(** * Boundary-scan vector engine of the urJTAG interconnect script

    A shallow embedding of [walkin__sample_use_partid_cli_time.py]: the
    device-ID slicing, the pin-table filter, the scan-vector codec, the walking
    pattern generators, the change detector and the connectivity classifier,
    followed by the properties of the specification that concern them.

    Python values are modelled as follows.
    - a scan vector (a Python [str] that is indexed and sliced) is a
      [list ascii];
    - tokens of the pin table, pin names, transition labels and the texts of
      the part tables are [string]s, a character being its code point
      (below 256);
    - Python integers are [Z];
    - a [dict] is a [gmap];
    - a call that can raise returns a [result], whose [Raise] carries the
      Python exception. *)

From Stdlib Require Import ZArith String Ascii DecimalString.
From stdpp Require Import gmap strings list fin_maps sorting.

Local Open Scope string_scope.
Local Open Scope list_scope.
Local Open Scope nat_scope.

(** ** Exceptions *)

Inductive exn := IndexError | ValueError | KeyError.

Inductive result (A : Type) :=
  | Ok (a : A)
  | Raise (e : exn).
Arguments Ok {A} a.
Arguments Raise {A} e.

#[global] Instance result_ret : MRet result := @Ok.
#[global] Instance result_bind : MBind result := λ A B f m,
  match m with
  | Ok a => f a
  | Raise e => Raise e
  end.

(** ** Python primitives used by the script *)

(** [s[i]] for an index produced by [range]: [IndexError] past the end. *)
Definition getitem {A} (s : list A) (i : nat) : result A :=
  match s !! i with
  | Some c => Ok c
  | None => Raise IndexError
  end.

(** [d[k]] on a dict: [KeyError] when the key is absent. *)
Definition getkey {V} (d : gmap string V) (k : string) : result V :=
  match d !! k with
  | Some v => Ok v
  | None => Raise KeyError
  end.

(** [str(n)] for an integer. *)
Definition str (n : Z) : list ascii :=
  list_ascii_of_string (NilZero.string_of_int (Z.to_int n)).

(** Characters.  An [ascii] stands for the character with that code point,
    so the texts of the model are the Python strings whose code points are
    below 256.  Among these the decimal digits are [0] to [9]. *)

(** The value of a decimal digit. *)
Definition digit_value (c : ascii) : option Z :=
  let n := nat_of_ascii c in
  if (48 <=? n) && (n <=? 57) then Some (Z.of_nat (n - 48)) else None.

(** The white space that [int] skips at both ends of its argument: tab to
    carriage return, the space, and the characters 133 and 160.  (The
    separators 28 to 31, which [str.strip] removes, are not among them.) *)
Definition int_isspace (c : ascii) : bool :=
  let n := nat_of_ascii c in
  (9 <=? n) && (n <=? 13) || (n =? 32) || (n =? 133) || (n =? 160).

Fixpoint int_lstrip (s : string) : string :=
  match s with
  | EmptyString => EmptyString
  | String c s' => if int_isspace c then int_lstrip s' else s
  end.

Definition int_strip (s : string) : string :=
  String.rev (int_lstrip (String.rev (int_lstrip s))).

(** The digits that follow a digit: further digits, each of which may be
    preceded by one underscore.  [acc] is the value read so far and [count]
    the number of digits read so far. *)
Fixpoint int_digits (s : string) (acc count : Z) : option (Z * Z) :=
  match s with
  | EmptyString => Some (acc, count)
  | String c s' =>
      if bool_decide (c = "_"%char) then
        match s' with
        | String d s'' =>
            match digit_value d with
            | Some v => int_digits s'' (10 * acc + v) (count + 1)
            | None => None
            end
        | EmptyString => None
        end
      else
        match digit_value c with
        | Some v => int_digits s' (10 * acc + v) (count + 1)
        | None => None
        end
  end%Z.

(** An unsigned literal: a digit, then [int_digits]. *)
Definition int_literal (s : string) : option (Z * Z) :=
  match s with
  | String c s' =>
      match digit_value c with
      | Some v => int_digits s' v 1
      | None => None
      end
  | EmptyString => None
  end.

(** The default of [sys.get_int_max_str_digits()]. *)
Definition INT_MAX_STR_DIGITS : Z := 4300.

(** [int(s)] for a string, in base 10: white space at both ends is skipped;
    then an optional sign, and digits in which single underscores may
    separate digit groups.  Every other string raises [ValueError], and so
    does a literal of more than [INT_MAX_STR_DIGITS] digits. *)
Definition int (s : string) : result Z :=
  let '(sign, body) :=
    match int_strip s with
    | String "+"%char s' => (1, s')
    | String "-"%char s' => (-1, s')
    | s' => (1, s')
    end%Z in
  match int_literal body with
  | Some (n, count) =>
      if (INT_MAX_STR_DIGITS <? count)%Z then Raise ValueError
      else Ok (sign * n)%Z
  | None => Raise ValueError
  end.

(** Slice bounds: a negative bound counts from the end, and [take]/[drop]
    clamp at both ends as Python slices do. *)
Definition slice_bound (len : nat) (i : Z) : nat :=
  Z.to_nat (if (i <? 0)%Z then (Z.of_nat len + i)%Z else i).

(** [s[:i]] *)
Definition slice_to {A} (s : list A) (i : Z) : list A :=
  take (slice_bound (length s) i) s.

(** [s[i:]] *)
Definition slice_from {A} (s : list A) (i : Z) : list A :=
  drop (slice_bound (length s) i) s.

(** The characters of a bit. *)
Definition bit_char (b : Z) : ascii :=
  if (b =? 0)%Z then "0"%char else "1"%char.

Definition is_bit (b : Z) : Prop := b = 0%Z ∨ b = 1%Z.

(** ** Device-ID slicing ([decimal_to_32bit_binary] and [main]) *)

Fixpoint bin_pos (p : positive) : list ascii :=
  match p with
  | xH => ["1"%char]
  | xO p' => bin_pos p' ++ ["0"%char]
  | xI p' => bin_pos p' ++ ["1"%char]
  end.

(** Zero padding to a minimal width. *)
Definition zfill (width : nat) (digits : list ascii) : list ascii :=
  replicate (width - length digits) "0"%char ++ digits.

(** [format(n, '032b')]: the sign, if any, counts towards the width. *)
Definition format_032b (n : Z) : list ascii :=
  match n with
  | Z0 => zfill 32 ["0"%char]
  | Zpos p => zfill 32 (bin_pos p)
  | Zneg p => "-"%char :: zfill 31 (bin_pos p)
  end.

Definition decimal_to_32bit_binary (decimal_number : Z) : list ascii :=
  format_032b decimal_number.

(** [s[a:b]] for the non-negative literal bounds used in [main]. *)
Definition slice {A} (s : list A) (a b : nat) : list A :=
  drop a (take b s).

Definition stepping_id (device_id : Z) : list ascii :=
  slice_to (decimal_to_32bit_binary device_id) 4.
Definition parts_id (device_id : Z) : list ascii :=
  slice (decimal_to_32bit_binary device_id) 4 20.
Definition manufacture_id (device_id : Z) : list ascii :=
  slice (decimal_to_32bit_binary device_id) 20 31.

(** ** Pin table ([get_dictionary_from_bsdl]) *)

Record bit_info := BitInfo {
  io_type : string;
  safe_value : string;
  pin_name : string;
  control_bit : option string;
  disable_value : option string;
  disable_status : option string;
}.

(** [components[k] if len(components) > k else None] *)
Definition optional_field (components : list string) (k : nat) : option string :=
  components !! k.

Definition make_info (c2 c3 c4 : string) (components : list string) : bit_info :=
  {| io_type := c2;
     safe_value := c3;
     pin_name := c4;
     control_bit := optional_field components 5;
     disable_value := optional_field components 6;
     disable_status := optional_field components 7 |}.

(** One iteration of the line loop, for a line that starts with [bit];
    [components] is [line.strip().split()]. *)
Definition bsdl_line (bit_info_dict : gmap Z bit_info) (components : list string)
    : result (gmap Z bit_info) :=
  c1 ← getitem components 1;
  bit ← int c1;
  c4 ← getitem components 4;
  if bool_decide (c4 ≠ "*") then
    c2 ← getitem components 2;
    if bool_decide (c2 = "O") || bool_decide (c2 = "I") || bool_decide (c2 = "B") then
      c3 ← getitem components 3;
      Ok (<[bit := make_info c2 c3 c4 components]> bit_info_dict)
    else Ok bit_info_dict
  else
    c2 ← getitem components 2;
    if bool_decide (c2 = "C") then
      c3 ← getitem components 3;
      Ok (<[bit := make_info c2 c3 c4 components]> bit_info_dict)
    else Ok bit_info_dict.

Fixpoint bsdl_lines (bit_info_dict : gmap Z bit_info) (lines : list (list string))
    : result (gmap Z bit_info) :=
  match lines with
  | [] => Ok bit_info_dict
  | components :: rest =>
      d ← bsdl_line bit_info_dict components;
      bsdl_lines d rest
  end.

(** The [try]/[except Exception] around the loop turns every exception into
    a printed message and the result [None]. *)
Definition get_dictionary_from_bsdl (lines : list (list string))
    : option (gmap Z bit_info) :=
  match bsdl_lines ∅ lines with
  | Ok d => Some d
  | Raise _ => None
  end.

(** ** Vector codec ([set_bits]) *)

Definition set_bits (output_string : list ascii) (bit_position bit_value : Z)
    : list ascii :=
  slice_to output_string bit_position
    ++ str bit_value
    ++ slice_from output_string (bit_position + 1).

(** [set_bits] is built from slices and a concatenation only, none of which
    raises: as a computation it always returns. *)
Definition set_bits_outcome (output_string : list ascii)
    (bit_position bit_value : Z) : result (list ascii) :=
  Ok (set_bits output_string bit_position bit_value).

(** ** Walk pattern generator *)

Definition is_output (info : bit_info) : bool :=
  bool_decide (io_type info = "O") || bool_decide (io_type info = "B").

(** The enable block shared, verbatim, by both generators: when the pin names
    a control cell and a disable value, write the complement of the disable
    value into the control cell. *)
Definition enable_pin (info : bit_info) (output_string : list ascii)
    : result (list ascii) :=
  match control_bit info with
  | Some cb =>
      control_bit ← int cb;
      match disable_value info with
      | Some dv =>
          disable_value ← int dv;
          let enable_value := Z.lxor 1 disable_value in
          Ok (set_bits output_string control_bit enable_value)
      | None => Ok output_string
      end
  | None => Ok output_string
  end.

(** [sorted(bit_info_dict.items())]: keys are unique, so the order is the
    order of the keys. *)
Definition item_le (p q : Z * bit_info) : Prop := (p.1 ≤ q.1)%Z.

#[global] Instance item_le_dec : RelDecision item_le.
Proof. intros p q. unfold item_le. apply _. Defined.

#[global] Instance item_le_trans : Transitive item_le.
Proof. intros p q r. unfold item_le. lia. Qed.

#[global] Instance item_le_total : Total item_le.
Proof. intros p q. unfold item_le. lia. Qed.

Definition sorted_items (bit_info_dict : gmap Z bit_info) : list (Z * bit_info) :=
  merge_sort item_le (map_to_list bit_info_dict).

(** The loop of [get_list_of_walkins_output_string] over the sorted items. *)
Fixpoint walkins_loop (items : list (Z * bit_info)) (walkin_string : list ascii)
    (value : Z) (dr_in_string_list : list (list ascii))
    : result (list (list ascii)) :=
  match items with
  | [] => Ok dr_in_string_list
  | (bit, info) :: rest =>
      let output_string := reverse walkin_string in
      if is_output info then
        let output_string := set_bits output_string bit value in
        output_string ← enable_pin info output_string;
        walkins_loop rest walkin_string value
          (dr_in_string_list ++ [reverse output_string])
      else walkins_loop rest walkin_string value dr_in_string_list
  end.

Definition get_list_of_walkins_output_string (bit_info_dict : gmap Z bit_info)
    (walkin_string : list ascii) (value : Z) : result (list (list ascii)) :=
  walkins_loop (sorted_items bit_info_dict) walkin_string value [].

(** The loop of [get_walkin_zeros_or_once_setup_string]. *)
Fixpoint setup_loop (items : list (Z * bit_info)) (value : Z)
    (output_string : list ascii) : result (list ascii) :=
  match items with
  | [] => Ok output_string
  | (bit, info) :: rest =>
      if is_output info then
        let output_string := set_bits output_string bit (Z.lxor value 1) in
        output_string ← enable_pin info output_string;
        setup_loop rest value output_string
      else setup_loop rest value output_string
  end.

(** [dr_in_string] is what [urc.get_dr_in_string()] returns. *)
Definition get_walkin_zeros_or_once_setup_string (dr_in_string : list ascii)
    (bit_info_dict : gmap Z bit_info) (value : Z) : result (list ascii) :=
  output_string ← setup_loop (sorted_items bit_info_dict) value dr_in_string;
  Ok (reverse output_string).

(** ** Change detector ([dr_out_changes_lookup]) *)

(** What the function prints for a differing bit. *)
Inductive report :=
  | BitChange (i : nat) (old new : ascii)
  | PinName (name : string).

(** The transition label [f"{old} -> {new}"]. *)
Definition transition (old new : ascii) : string :=
  String old (" -> " +:+ String new "").

(** The list comprehension that builds [differing_bits], over
    [range(len(data_bits_old))]. *)
Fixpoint differing_loop (indices : list nat) (data_bits_old data_bits_new : list ascii)
    : result (list (nat * ascii * ascii)) :=
  match indices with
  | [] => Ok []
  | i :: rest =>
      o ← getitem data_bits_old i;
      n ← getitem data_bits_new i;
      tl ← differing_loop rest data_bits_old data_bits_new;
      Ok (if bool_decide (o ≠ n) then (i, o, n) :: tl else tl)
  end.

Definition differing_bits (data_bits_old data_bits_new : list ascii)
    : result (list (nat * ascii * ascii)) :=
  differing_loop (seq 0 (length data_bits_old)) data_bits_old data_bits_new.

(** [summary_dict[key].append(x)] *)
Definition append_to (key : string) (x : string)
    (summary_dict : gmap string (list string)) : gmap string (list string) :=
  alter (λ l, l ++ [x]) key summary_dict.

Definition record_change (pin_name : string) (old new : ascii) (key : string)
    (summary_dict : gmap string (list string)) : gmap string (list string) :=
  append_to (key +:+ "io") (transition old new) (append_to key pin_name summary_dict).

(** The body of the loop over [differing_bits]; [walkin_state] is the global
    flag ([-1] at start, [0] in the walking-zeros pass, [1] in the
    walking-ones pass). *)
Definition lookup_step (walkin_state : Z) (bsdl_dictionary : gmap Z bit_info)
    (summary_dict_key : string)
    (st : gmap string (list string) * list report) (bit_info : nat * ascii * ascii)
    : gmap string (list string) * list report :=
  let '(summary_dict, out) := st in
  let '(i, old, new) := bit_info in
  let out := out ++ [BitChange i old new] in
  match bsdl_dictionary !! Z.of_nat i with
  | Some info =>
      let pin_name := pin_name info in
      let out := out ++ [PinName pin_name] in
      let summary_dict :=
        if bool_decide (walkin_state = 0%Z) && bool_decide (old = "1"%char)
        then record_change pin_name old new summary_dict_key summary_dict
        else summary_dict in
      let summary_dict :=
        if bool_decide (walkin_state = 1%Z) && bool_decide (old = "0"%char)
        then record_change pin_name old new summary_dict_key summary_dict
        else summary_dict in
      (summary_dict, out)
  | None => (summary_dict, out)
  end.

Definition dr_out_changes_lookup (walkin_state : Z)
    (data_bits_old data_bits_new : list ascii)
    (bsdl_dictionary : gmap Z bit_info)
    (summary_dict : gmap string (list string)) (summary_dict_key : string)
    : result (gmap string (list string) * list report) :=
  let summary_dict := <[summary_dict_key := []]> summary_dict in
  let summary_dict := <[summary_dict_key +:+ "io" := []]> summary_dict in
  differing_bits ← differing_bits data_bits_old data_bits_new;
  Ok (foldl (lookup_step walkin_state bsdl_dictionary summary_dict_key)
        (summary_dict, []) differing_bits).

Definition dr_shift_comapre (walkin_state : Z)
    (dr_init_bits dr_bits_new : list ascii) (bsdl_dictionary : gmap Z bit_info)
    (summary_dict : gmap string (list string)) (summary_dict_key : string)
    : result (list ascii * gmap string (list string) * list report) :=
  '(summary_dict, out) ← dr_out_changes_lookup walkin_state dr_init_bits
      dr_bits_new bsdl_dictionary summary_dict summary_dict_key;
  Ok (dr_bits_new, summary_dict, out).

(** ** Connectivity classifier ([view_summary]) *)

Inductive verdict :=
  | Connected (target : string)
  | Interference
  | Partial
  | NotConnected.

(** The innermost loop, over [range(len(summary_dict["sampleio"]))]: append
    the observed pin of every SAMPLE transition that carries [label] to the
    list of [driver]. *)
Fixpoint sample_loop (sample_indices : list nat)
    (summary_dict : gmap string (list string)) (label driver : string)
    (summary_chain_dict : gmap string (list string))
    : result (gmap string (list string)) :=
  match sample_indices with
  | [] => Ok summary_chain_dict
  | sample_index :: rest =>
      sampleio ← getkey summary_dict "sampleio";
      io ← getitem sampleio sample_index;
      if bool_decide (io = label) then
        sample ← getkey summary_dict "sample";
        observed ← getitem sample sample_index;
        sample_loop rest summary_dict label driver
          (append_to driver observed summary_chain_dict)
      else sample_loop rest summary_dict label driver summary_chain_dict
  end.

Definition match_pass (summary_dict : gmap string (list string))
    (label driver : string) (summary_chain_dict : gmap string (list string))
    : result (gmap string (list string)) :=
  sampleio ← getkey summary_dict "sampleio";
  sample_loop (seq 0 (length sampleio)) summary_dict label driver
    summary_chain_dict.

(** The loop over [range(len(summary_dict["extestio"]))]. *)
Fixpoint extest_loop (indices : list nat)
    (summary_dict : gmap string (list string))
    (summary_chain_dict : gmap string (list string))
    : result (gmap string (list string)) :=
  match indices with
  | [] => Ok summary_chain_dict
  | index :: rest =>
      extest ← getkey summary_dict "extest";
      driver ← getitem extest index;
      let summary_chain_dict :=
        match summary_chain_dict !! driver with
        | None => <[driver := []]> summary_chain_dict
        | Some _ => summary_chain_dict
        end in
      extestio ← getkey summary_dict "extestio";
      io ← getitem extestio index;
      summary_chain_dict ←
        (if bool_decide (io = "0 -> 1") then
           match_pass summary_dict "0 -> 1" driver summary_chain_dict
         else if bool_decide (io = "1 -> 0") then
           match_pass summary_dict "1 -> 0" driver summary_chain_dict
         else Ok summary_chain_dict);
      extest_loop rest summary_dict summary_chain_dict
  end.

(** The loop over [summary_list]. *)
Fixpoint summary_loop (summary_list : list (gmap string (list string)))
    (summary_chain_dict : gmap string (list string))
    : result (gmap string (list string)) :=
  match summary_list with
  | [] => Ok summary_chain_dict
  | summary_dict :: rest =>
      extestio ← getkey summary_dict "extestio";
      summary_chain_dict ←
        extest_loop (seq 0 (length extestio)) summary_dict summary_chain_dict;
      summary_loop rest summary_chain_dict
  end.

Definition summary_chain (summary_list : list (gmap string (list string)))
    : result (gmap string (list string)) :=
  summary_loop summary_list ∅.

(** The [if]/[elif] chain that prints the verdict of one driver pin;
    [value[0]] exists whenever the first test passes. *)
Definition classify (value : list string) : verdict :=
  if bool_decide (length value = 2) && bool_decide (value !! 0 = value !! 1)
  then Connected (default "" (value !! 0))
  else if bool_decide (2 < length value) then Interference
  else if bool_decide (length value = 1) then Partial
  else NotConnected.

(** [view_summary]: the verdict printed for each key of
    [summary_chain_dict]. *)
Definition view_summary (summary_list : list (gmap string (list string)))
    : result (gmap string verdict) :=
  match summary_chain summary_list with
  | Ok summary_chain_dict => Ok (classify <$> summary_chain_dict)
  | Raise e => Raise e
  end.

(** ** The walking session ([set_urc_bits] and the loop body of [main]) *)

(** The state a session works on: the DR input register of the chain object
    and the number of DR shifts performed so far, and the two globals of the
    script. *)
Record world := World {
  dr_in_reg : list ascii;
  shift_count : nat;
  walkin_state : Z;
  summary_list : list (gmap string (list string));
}.

(** The module-level initialisation: [walkin_state = -1], [summary_list = []]. *)
Definition initial_world (dr_in_string : list ascii) : world :=
  World dr_in_string 0 (-1) [].

Definition set_dr_in (bits_string : list ascii) (w : world) : world :=
  World bits_string (shift_count w) (walkin_state w) (summary_list w).

Definition shift_dr (w : world) : world :=
  World (dr_in_reg w) (S (shift_count w)) (walkin_state w) (summary_list w).

Definition set_walkin_state (s : Z) (w : world) : world :=
  World (dr_in_reg w) (shift_count w) s (summary_list w).

Definition set_summary_list (l : list (gmap string (list string))) (w : world)
    : world :=
  World (dr_in_reg w) (shift_count w) (walkin_state w) l.

Section Session.

(** The hardware: what [urc.get_dr_out_string()] returns after the given
    number of DR shifts.  The session is defined for every such device. *)
Variable dr_out : nat → list ascii.

Definition get_dr_out_string (w : world) : list ascii :=
  dr_out (shift_count w).

Definition get_sample_shift_init_bits (w : world) : list ascii * world :=
  let w := shift_dr w in
  (get_dr_out_string w, w).

Definition sample_run (bsdl_dictionary : gmap Z bit_info)
    (dr_init_bits : list ascii) (summary_dict : gmap string (list string))
    (summary_dict_key : string) (w : world)
    : result (list ascii * gmap string (list string) * world) :=
  let w := shift_dr w in
  let dr_bits_new := get_dr_out_string w in
  '(bits, summary_dict, _) ← dr_shift_comapre (walkin_state w)
      (reverse dr_init_bits) (reverse dr_bits_new) bsdl_dictionary
      summary_dict summary_dict_key;
  Ok (bits, summary_dict, w).

(** The loop of [set_urc_bits] over [bits_string_list]; the printed reports
    are not kept. *)
Fixpoint set_urc_bits_loop (bits_string_list : list (list ascii))
    (bit_info_dict : gmap Z bit_info) (dr_init_bits : list ascii)
    (sample_bsdl_dictionary : gmap Z bit_info)
    (dr_init_bits_sample : list ascii) (w : world) : result world :=
  match bits_string_list with
  | [] => Ok w
  | bits_string :: rest =>
      let summary_dict : gmap string (list string) := ∅ in
      let w := shift_dr (set_dr_in bits_string w) in
      '(dr_init_bits, summary_dict, _) ← dr_shift_comapre (walkin_state w)
          (reverse dr_init_bits) (reverse bits_string) bit_info_dict
          summary_dict "extest";
      let dr_init_bits := reverse dr_init_bits in
      '(dr_init_bits_sample, summary_dict, w) ← sample_run
          sample_bsdl_dictionary dr_init_bits_sample summary_dict "sample" w;
      let dr_init_bits_sample := reverse dr_init_bits_sample in
      let w := set_summary_list (summary_list w ++ [summary_dict]) w in
      set_urc_bits_loop rest bit_info_dict dr_init_bits
        sample_bsdl_dictionary dr_init_bits_sample w
  end.

Definition set_urc_bits (bits_string_list : list (list ascii))
    (bit_info_dict : gmap Z bit_info) (walkin_string : list ascii)
    (sample_bsdl_dictionary : gmap Z bit_info)
    (dr_init_bits_sample : list ascii) (w : world) : result world :=
  let dr_init_bits := walkin_string in
  set_urc_bits_loop bits_string_list bit_info_dict dr_init_bits
    sample_bsdl_dictionary dr_init_bits_sample w.

(** The body of [while True] in [main] up to the summary: both setups, the
    walking-zeros pass and the walking-ones pass. *)
Definition walking_passes (extest_bit_info_dict sample_bit_info_dict : gmap Z bit_info)
    (w : world) : result world :=
  walkin_zero_string ←
    get_walkin_zeros_or_once_setup_string (dr_in_reg w) extest_bit_info_dict 0;
  walkin_ones_string ←
    get_walkin_zeros_or_once_setup_string (dr_in_reg w) extest_bit_info_dict 1;
  let w := shift_dr (set_dr_in walkin_zero_string w) in
  let '(dr_init_bits_sample, w) := get_sample_shift_init_bits w in
  walkin_zero_output_list ←
    get_list_of_walkins_output_string extest_bit_info_dict walkin_zero_string 0;
  let w := set_walkin_state 0 w in
  w ← set_urc_bits walkin_zero_output_list extest_bit_info_dict
        walkin_zero_string sample_bit_info_dict dr_init_bits_sample w;
  let w := shift_dr (set_dr_in walkin_ones_string w) in
  let '(dr_init_bits_sample, w) := get_sample_shift_init_bits w in
  walkin_ones_output_list ←
    get_list_of_walkins_output_string extest_bit_info_dict walkin_ones_string 1;
  let w := set_walkin_state 1 w in
  set_urc_bits walkin_ones_output_list extest_bit_info_dict
    walkin_ones_string sample_bit_info_dict dr_init_bits_sample w.

(** The call [view_summary()]: the function reads the global
    [summary_list] and assigns to no global, so it hands back the verdicts it
    prints and leaves the accumulator and the device as they were. *)
Definition view_summary_call (w : world) : result (gmap string verdict * world) :=
  verdicts ← view_summary (summary_list w);
  Ok (verdicts, w).

(** The end of the loop body of [main]: the call [view_summary()], and then
    the assignment [summary_list = []]. *)
Definition session_end (w : world) : result (gmap string verdict * world) :=
  '(verdicts, w) ← view_summary_call w;
  Ok (verdicts, set_summary_list [] w).

Definition session (extest_bit_info_dict sample_bit_info_dict : gmap Z bit_info)
    (w : world) : result (gmap string verdict * world) :=
  w ← walking_passes extest_bit_info_dict sample_bit_info_dict w;
  session_end w.

End Session.

(** ** Part-file lookup ([search_folders_by_device_id], [fetch_part_file]) *)

Definition STEPPINGS_FILE : string := "/STEPPINGS".
Definition PARTS_FILE : string := "/PARTS".
Definition MANUFACTURERS_FILE : string := "/MANUFACTURERS".

(** [s.split(sep)] for a separator of one character. *)
Fixpoint split_on (sep : ascii) (s : string) : list string :=
  match s with
  | EmptyString => [EmptyString]
  | String c s' =>
      if bool_decide (c = sep) then EmptyString :: split_on sep s'
      else match split_on sep s' with
           | field :: rest => String c field :: rest
           | [] => [String c EmptyString]
           end
  end.

(** The characters below 256 that [str.strip()] removes: those for which
    [str.isspace] holds. *)
Definition py_isspace (c : ascii) : bool :=
  let n := nat_of_ascii c in
  (9 <=? n) && (n <=? 13) || (28 <=? n) && (n <=? 31) || (n =? 32)
  || (n =? 133) || (n =? 160).

Fixpoint lstrip (s : string) : string :=
  match s with
  | EmptyString => EmptyString
  | String c s' => if py_isspace c then lstrip s' else s
  end.

(** [s.strip()]. *)
Definition strip (s : string) : string :=
  String.rev (lstrip (String.rev (lstrip s))).

(** The loop of [search_folders_by_device_id] over the lines of the file. *)
Fixpoint search_lines (device_id_part : string) (data : list string)
    : option string :=
  match data with
  | [] => None
  | line :: rest =>
      let line_content := split_on "009"%char line in
      if bool_decide (device_id_part ∈ line_content) then
        let info := strip <$> filter (λ each, each ≠ "") line_content in
        if bool_decide (1 < length info) then info !! 1 else None
      else search_lines device_id_part rest
  end.

(** [fs] is the file system: the text that [file.read()] returns for a
    path, and [None] where [open] raises [FileNotFoundError], which the
    function catches. *)
Definition search_folders_by_device_id (fs : string → option string)
    (device_id_part file_path : string) : option string :=
  match fs file_path with
  | Some content => search_lines device_id_part (split_on "010"%char content)
  | None => None
  end.

(** A call that returns or raises [TypeError]. *)
Inductive outcome (A : Type) :=
  | Returns (a : A)
  | RaisesTypeError.
Arguments Returns {A} a.
Arguments RaisesTypeError {A}.

#[global] Instance outcome_ret : MRet outcome := @Returns.
#[global] Instance outcome_bind : MBind outcome := λ A B f m,
  match m with
  | Returns a => f a
  | RaisesTypeError => RaisesTypeError
  end.

(** [a + b] for a string [a] and a value [b] that is a string or [None]. *)
Definition str_add (a : string) (b : option string) : outcome string :=
  match b with
  | Some b => Returns (a +:+ b)
  | None => RaisesTypeError
  end.

(** The three guards all test [manufacture_folder_name], as the source
    does. *)
Definition fetch_part_file (fs : string → option string)
    (manufacture_id parts_id stepping_id base_folder : string)
    : outcome (option (list (option string))) :=
  let content_file := base_folder +:+ MANUFACTURERS_FILE in
  let manufacture_folder_name :=
    search_folders_by_device_id fs manufacture_id content_file in
  if bool_decide (manufacture_folder_name = None) then Returns None else
  content_file ← str_add base_folder manufacture_folder_name;
  let content_file := content_file +:+ PARTS_FILE in
  let parts_folder_name :=
    search_folders_by_device_id fs parts_id content_file in
  if bool_decide (manufacture_folder_name = None) then Returns None else
  content_file ← str_add base_folder manufacture_folder_name;
  content_file ← str_add (content_file +:+ "/") parts_folder_name;
  let content_file := content_file +:+ STEPPINGS_FILE in
  let stepping_filename :=
    search_folders_by_device_id fs stepping_id content_file in
  if bool_decide (manufacture_folder_name = None) then Returns None else
  content_file ← str_add base_folder manufacture_folder_name;
  content_file ← str_add (content_file +:+ "/") parts_folder_name;
  content_file ← str_add (content_file +:+ "/") stepping_filename;
  Returns (Some [manufacture_folder_name; parts_folder_name;
                 stepping_filename; Some content_file]).

(** * Vocabulary of the properties

    The notions the specification uses to state what the code does, written
    without loops or dictionaries, and the well-formedness conditions on the
    inputs. *)

(** ** Vector codec *)

(** What the specification asks of [set_bit], in its own words: the update
    in range, [IndexOutOfRange] (Python's [IndexError]) otherwise. *)
Definition set_bit_spec (vector : list ascii) (index bit_value : Z)
    : result (list ascii) :=
  if (index <? Z.of_nat (length vector))%Z
  then Ok (<[Z.to_nat index := bit_char bit_value]> vector)
  else Raise IndexError.

(** ** Device-ID fields *)

(** Bits [hi] down to [lo] of [n], most significant first, as characters:
    the field the specification names "bits hi-lo". *)
Definition bit_field (n : Z) (hi lo : nat) : list ascii :=
  (λ k, bit_char (Z.b2z (Z.testbit n (Z.of_nat k))))
    <$> reverse (seq lo (S hi - lo)).

(** The [w] low bits of [n], most significant first. *)
Definition low_bits (w : nat) (n : Z) : list ascii :=
  (λ k, bit_char (Z.b2z (Z.testbit n (Z.of_nat k)))) <$> reverse (seq 0 w).

(** ** Pin Map construction *)

(** The inclusion policy in the words of the specification. *)
Definition included (code name : string) : Prop :=
  ((code = "O" ∨ code = "I" ∨ code = "B") ∧ name ≠ "*")
  ∨ (code = "C" ∧ name = "*").

#[global] Instance included_dec code name : Decision (included code name).
Proof. unfold included. apply _. Defined.

(** A raw per-bit record: a token list with a bit index that [int] reads, a
    direction code and a pin name (at least five tokens). *)
Definition raw_record (components : list string) (bit : Z) (code name : string)
    : Prop :=
  (∃ c1, components !! 1 = Some c1 ∧ int c1 = Ok bit)
  ∧ components !! 2 = Some code
  ∧ components !! 4 = Some name.

Definition well_formed_line (components : list string) : Prop :=
  ∃ bit code name, raw_record components bit code name.

(** ** Change detector *)

(** The differing bits in the words of the specification: one record per
    index where the two vectors differ, in ascending index order. *)
Definition diff_at (old new : list ascii) (i : nat) : option (nat * ascii * ascii) :=
  match old !! i, new !! i with
  | Some o, Some n => if bool_decide (o ≠ n) then Some (i, o, n) else None
  | _, _ => None
  end.

Definition changed_bits (old new : list ascii) : list (nat * ascii * ascii) :=
  omap (diff_at old new) (seq 0 (length old)).

(** The directional filter: old value 1 in the walking-zeros pass, old value
    0 in the walking-ones pass. *)
Definition attributable (walkin_state : Z) (old : ascii) : bool :=
  bool_decide (walkin_state = 0%Z) && bool_decide (old = "1"%char)
  || bool_decide (walkin_state = 1%Z) && bool_decide (old = "0"%char).

(** What a differing bit adds to the summary: the name of its pin and its
    transition, when the Pin Map has the bit and the filter lets it pass. *)
Definition attributed (walkin_state : Z) (dict : gmap Z bit_info)
    (d : nat * ascii * ascii) : option (string * string) :=
  let '(i, old, new) := d in
  match dict !! Z.of_nat i with
  | Some info =>
      if attributable walkin_state old
      then Some (pin_name info, transition old new) else None
  | None => None
  end.

(** What is printed for a differing bit. *)
Definition reports_of (dict : gmap Z bit_info) (d : nat * ascii * ascii)
    : list report :=
  let '(i, old, new) := d in
  BitChange i old new ::
    match dict !! Z.of_nat i with
    | Some info => [PinName (pin_name info)]
    | None => []
    end.

Definition reported_bit (r : report) : option (nat * ascii * ascii) :=
  match r with
  | BitChange i old new => Some (i, old, new)
  | PinName _ => None
  end.

(** ** Connectivity classifier *)

(** A list of a step record; a missing key reads as the empty list. *)
Definition field (sd : gmap string (list string)) (k : string) : list string :=
  default [] (sd !! k).

(** Direction matching in the words of the specification: ["0 -> 1"]
    matches ["0 -> 1"], and ["1 -> 0"] matches ["1 -> 0"]. *)
Definition direction_match (driver_io sample_io : string) : bool :=
  bool_decide (driver_io = "0 -> 1" ∧ sample_io = "0 -> 1")
  || bool_decide (driver_io = "1 -> 0" ∧ sample_io = "1 -> 0").

(** The observed pins of a step whose transition matches a driver
    transition. *)
Definition matched (sd : gmap string (list string)) (driver_io : string)
    : list string :=
  zip (field sd "sample") (field sd "sampleio")
    ≫= λ p, if direction_match driver_io p.2 then [p.1] else [].

(** What one step contributes to the list of a driver pin: the matches of
    each of its attributed transitions in that step. *)
Definition contribution (driver : string) (sd : gmap string (list string))
    : list string :=
  zip (field sd "extest") (field sd "extestio")
    ≫= λ p, if bool_decide (p.1 = driver) then matched sd p.2 else [].

(** The list of a driver pin over the whole session. *)
Definition match_list (sl : list (gmap string (list string))) (driver : string)
    : list string :=
  sl ≫= contribution driver.

(** A driver pin is recorded when some step has an attributed EXTEST
    transition of it. *)
Definition recorded (sl : list (gmap string (list string))) (driver : string)
    : Prop :=
  ∃ sd, sd ∈ sl ∧ driver ∈ field sd "extest".

(** The shape of the records that [set_urc_bits] appends: the four keys, and
    names and transitions in pairs. *)
Definition well_formed_record (sd : gmap string (list string)) : Prop :=
  (is_Some (sd !! "extest") ∧ is_Some (sd !! "extestio")
   ∧ is_Some (sd !! "sample") ∧ is_Some (sd !! "sampleio"))
  ∧ length (field sd "extest") = length (field sd "extestio")
  ∧ length (field sd "sample") = length (field sd "sampleio").

(** ** Walk pattern generator *)

(** The control cell and the enable value a pin asks for, if it is gated:
    what the enable block reads from the pin description. *)
Definition gating (info : bit_info) : result (option (Z * Z)) :=
  match control_bit info with
  | Some cb =>
      c ← int cb;
      match disable_value info with
      | Some dv => d ← int dv; Ok (Some (c, Z.lxor 1 d))
      | None => Ok None
      end
  | None => Ok None
  end.

(** A pin description that fits a register of [n] bits: the index of an
    output or bidirectional pin is in the register, and so is its control
    cell when it is gated, with a bit as enable value. *)
Definition valid_pin (n : nat) (bit : Z) (info : bit_info) : Prop :=
  is_output info = true →
  (0 ≤ bit < Z.of_nat n)%Z
  ∧ ∃ g, gating info = Ok g
         ∧ ∀ c e, g = Some (c, e) → (0 ≤ c < Z.of_nat n)%Z ∧ is_bit e.

Definition valid_pin_map (n : nat) (dict : gmap Z bit_info) : Prop :=
  ∀ bit info, dict !! bit = Some info → valid_pin n bit info.

(** The writes of one pin on a vector in logical order: the data bit, then
    the control cell. *)
Definition pin_write (value : Z) (s : list ascii) (item : Z * bit_info)
    : list ascii :=
  let s1 := <[Z.to_nat item.1 := bit_char value]> s in
  match gating item.2 with
  | Ok (Some (c, e)) => <[Z.to_nat c := bit_char e]> s1
  | _ => s1
  end.

(** The output and bidirectional pins in ascending order of bit index. *)
Definition output_items (dict : gmap Z bit_info) : list (Z * bit_info) :=
  filter (λ item, is_output item.2 = true) (sorted_items dict).

(** Walk isolation of one vector, read in logical order: same length as the
    baseline, equal to it away from the data bit and the control cell of the
    pin, the control cell at its enable value, and the data bit at the walk
    level unless the pin is its own control cell. *)
Definition isolated (walkin_string : list ascii) (value : Z)
    (item : Z * bit_info) (v : list ascii) : Prop :=
  length v = length walkin_string
  ∧ (∀ i, i ≠ Z.to_nat item.1 →
          (∀ c e, gating item.2 = Ok (Some (c, e)) → i ≠ Z.to_nat c) →
          reverse v !! i = reverse walkin_string !! i)
  ∧ (∀ c e, gating item.2 = Ok (Some (c, e)) →
            reverse v !! Z.to_nat c = Some (bit_char e))
  ∧ ((∀ c e, gating item.2 = Ok (Some (c, e)) → c ≠ item.1) →
     reverse v !! Z.to_nat item.1 = Some (bit_char value)).

(** No other pin interferes with the control cell [c] of the pin at [bit]:
    no other output or bidirectional pin sits at index [c], and every pin
    gated by [c] is enabled by 0. *)
Definition no_conflict (dict : gmap Z bit_info) (bit c : Z) : Prop :=
  ∀ bit' info', dict !! bit' = Some info' → is_output info' = true →
    (bit' = c → bit' = bit)
    ∧ (∀ e', gating info' = Ok (Some (c, e')) → e' = 0%Z).

(** ** The loops of the classifier, index by index *)

(** The observed pin at a SAMPLE index, when its transition is [label]. *)
Definition pick (sd : gmap string (list string)) (label : string) (i : nat)
    : list string :=
  match field sd "sample" !! i, field sd "sampleio" !! i with
  | Some nm, Some io => if bool_decide (io = label) then [nm] else []
  | _, _ => []
  end.

(** The observed pins of the step whose transition is [label]. *)
Definition labelled (sd : gmap string (list string)) (label : string)
    : list string :=
  zip (field sd "sample") (field sd "sampleio")
    ≫= λ p, if bool_decide (p.2 = label) then [p.1] else [].

(** What the EXTEST index [i] of the step adds to the list of [driver]. *)
Definition contrib_at (sd : gmap string (list string)) (driver : string)
    (i : nat) : list string :=
  match field sd "extest" !! i, field sd "extestio" !! i with
  | Some nm, Some io => if bool_decide (nm = driver) then matched sd io else []
  | _, _ => []
  end.

(** ** Part-file lookup *)

(** The second non-empty field of a line, stripped: the folder or file name
    that a line of a lookup file gives. *)
Definition second_field (line_content : list string) : option string :=
  (strip <$> filter (λ each, each ≠ "") line_content) !! 1.

Definition TAB : string := String "009"%char "".
Definition NL : string := String "010"%char "".

(** The line holds the identifier as one of its tab-separated fields. *)
Definition names_id (device_id_part line : string) : Prop :=
  device_id_part ∈ split_on "009"%char line.

(** ** Pin descriptions the generators can read *)



(** No output or bidirectional pin sits at the index of the control cell of
    a gated pin, and the pins that share a control cell enable it with the
    same value. *)
Definition separate_control_cells (dict : gmap Z bit_info) : Prop :=
  ∀ bit info c e, dict !! bit = Some info → is_output info = true →
    gating info = Ok (Some (c, e)) →
    ∀ bit' info', dict !! bit' = Some info' → is_output info' = true →
      bit' ≠ c ∧ ∀ e', gating info' = Ok (Some (c, e')) → e' = e.

(** ** The records of a pass *)

(** A step record with the given attributed (name, transition) pairs of
    the driver and of the observer. *)
Definition record_of (E S : list (string * string))
    : gmap string (list string) :=
  <["sampleio" := S.*2]> (<["sample" := S.*1]>
    (<["extestio" := E.*2]> (<["extest" := E.*1]> ∅))).

(** The attributed changes between two snapshots of a register, both in
    transport order, as the session keeps them. *)
Definition attributed_changes (st : Z) (dict : gmap Z bit_info)
    (prev cur : list ascii) : list (string * string) :=
  omap (attributed st dict) (changed_bits (reverse prev) (reverse cur)).

(** The record of one walking step, from the two snapshots of the driver
    register and the two of the observer register. *)
Definition step_record (st : Z) (dict sdict : gmap Z bit_info)
    (prev cur sprev scur : list ascii) : gmap string (list string) :=
  record_of (attributed_changes st dict prev cur)
    (attributed_changes st sdict sprev scur).

(** The records of a pass over the vectors [vs]: each vector is compared
    with the one before it, and each readback of the observer, taken two
    shifts after the previous one, with the readback before it. *)
Fixpoint walk_records (dr_out : nat → list ascii) (st : Z)
    (dict sdict : gmap Z bit_info) (vs : list (list ascii))
    (prev sprev : list ascii) (t : nat) : list (gmap string (list string)) :=
  match vs with
  | [] => []
  | cur :: rest =>
      let scur := dr_out (S (S t)) in
      step_record st dict sdict prev cur sprev scur
        :: walk_records dr_out st dict sdict rest cur scur (S (S t))
  end.

(** The records of a pass in which each step attributes exactly the pin it
    walks: the driver side names the pin, the observer side is what the
    readbacks show. *)
Fixpoint pin_records (dr_out : nat → list ascii) (st : Z)
    (sdict : gmap Z bit_info) (label : string) (pins : list (Z * bit_info))
    (sprev : list ascii) (t : nat) : list (gmap string (list string)) :=
  match pins with
  | [] => []
  | pin :: rest =>
      let scur := dr_out (S (S t)) in
      record_of [(pin_name pin.2, label)]
        (attributed_changes st sdict sprev scur)
        :: pin_records dr_out st sdict label rest scur (S (S t))
  end.

(** The transition label of a walking step towards [value]. *)
Definition walk_label (value : Z) : string :=
  transition (bit_char (Z.lxor value 1)) (bit_char value).

(** A readback of the observer, in the order the driver returns it, that
    shows [c] at the logical position [j] and [R] elsewhere. *)
Definition observed (R : list ascii) (j : nat) (c : ascii) : list ascii :=
  reverse (<[j := c]> R).

(** * Properties *)

(** ** The result monad *)

Lemma bind_Ok {A B} (f : A → result B) (m : result A) (b : B) :
  m ≫= f = Ok b → ∃ a, m = Ok a ∧ f a = Ok b.
Proof. destruct m as [a|e]; [eauto | discriminate]. Qed.

Lemma getitem_Ok {A} (s : list A) (i : nat) (c : A) :
  s !! i = Some c → getitem s i = Ok c.
Proof. unfold getitem. by intros ->. Qed.

Lemma getitem_past_end {A} (s : list A) (i : nat) :
  length s ≤ i → getitem s i = Raise IndexError.
Proof. intros H. unfold getitem. by rewrite lookup_ge_None_2. Qed.

(** ** Vector codec *)

Lemma str_bit (b : Z) : is_bit b → str b = [bit_char b].
Proof. by intros [-> | ->]. Qed.

Lemma slice_bound_nat (len i : nat) : slice_bound len (Z.of_nat i) = i.
Proof.
  unfold slice_bound. destruct (Z.ltb_spec (Z.of_nat i) 0); lia.
Qed.

Lemma slice_bound_succ (len i : nat) : slice_bound len (Z.of_nat i + 1) = S i.
Proof.
  replace (Z.of_nat i + 1)%Z with (Z.of_nat (S i)) by lia.
  apply slice_bound_nat.
Qed.

(** On a natural index and a bit, [set_bits] keeps the first [i] characters,
    writes the bit, and keeps what follows position [i]. *)
Lemma set_bits_nat (v : list ascii) (i : nat) (b : Z) :
  is_bit b →
  set_bits v (Z.of_nat i) b = take i v ++ bit_char b :: drop (S i) v.
Proof.
  intros Hb. unfold set_bits, slice_to, slice_from.
  by rewrite slice_bound_nat, slice_bound_succ, (str_bit b Hb).
Qed.

Lemma set_bits_in_range (v : list ascii) (i : nat) (b : Z) :
  is_bit b → i < length v →
  set_bits v (Z.of_nat i) b = <[i := bit_char b]> v.
Proof.
  intros Hb Hi. rewrite set_bits_nat by done.
  symmetry. by apply insert_take_drop.
Qed.

Lemma set_bits_past_end (v : list ascii) (i : nat) (b : Z) :
  is_bit b → length v ≤ i →
  set_bits v (Z.of_nat i) b = v ++ [bit_char b].
Proof.
  intros Hb Hi. rewrite set_bits_nat by done.
  rewrite take_ge by done. rewrite drop_ge by lia. done.
Qed.

(** C4, as the code has it: in range [set_bits] is the one-position update;
    at or past the end nothing fails, and the bit is appended to the vector,
    which grows by one. *)
Theorem set_bits_update_or_append (v : list ascii) (i : nat) (b : Z) :
  is_bit b →
  (i < length v →
     set_bits_outcome v (Z.of_nat i) b = Ok (<[i := bit_char b]> v)
     ∧ set_bits_outcome v (Z.of_nat i) b = set_bit_spec v (Z.of_nat i) b)
  ∧ (length v ≤ i →
     set_bits_outcome v (Z.of_nat i) b = Ok (v ++ [bit_char b])).
Proof.
  intros Hb. unfold set_bits_outcome, set_bit_spec. split; intros Hi.
  - rewrite set_bits_in_range by done. split; [done|].
    destruct (Z.ltb_spec (Z.of_nat i) (Z.of_nat (length v))); [|lia].
    by rewrite Nat2Z.id.
  - by rewrite set_bits_past_end.
Qed.

Lemma set_bits_update_or_append_witness :
  set_bits_outcome ["1"; "1"; "1"]%char 1 0 = Ok ["1"; "0"; "1"]%char
  ∧ set_bits_outcome ["1"; "1"; "1"]%char 3 0 = Ok ["1"; "1"; "1"; "0"]%char.
Proof.
  split.
  - apply (proj1 (set_bits_update_or_append ["1"; "1"; "1"]%char 1 0
                    (or_introl eq_refl))). simpl. lia.
  - apply (proj2 (set_bits_update_or_append ["1"; "1"; "1"]%char 3 0
                    (or_introl eq_refl))). simpl. lia.
Defined.

(** C4 as stated fails: index 5 of a three-bit vector is out of range, the
    specification asks for [IndexOutOfRange], and the code returns a four-bit
    vector. *)
Lemma set_bits_out_of_range_returns :
  set_bits_outcome ["0"; "0"; "0"]%char 5 1 = Ok ["0"; "0"; "0"; "1"]%char
  ∧ set_bit_spec ["0"; "0"; "0"]%char 5 1 = Raise IndexError
  ∧ set_bits_outcome ["0"; "0"; "0"]%char 5 1
      ≠ set_bit_spec ["0"; "0"; "0"]%char 5 1.
Proof. repeat split. discriminate. Qed.

(** ** Device-ID fields *)

Lemma low_bits_succ (w : nat) (n : Z) :
  low_bits (S w) n
  = low_bits w (Z.div2 n) ++ [bit_char (Z.b2z (Z.testbit n 0))].
Proof.
  unfold low_bits. rewrite <- cons_seq, <- fmap_S_seq, reverse_cons, fmap_app.
  f_equal. rewrite <- fmap_reverse, <- list_fmap_compose.
  apply list_fmap_ext. intros _ k _. unfold compose.
  rewrite Z.div2_spec, Z.shiftr_spec by lia.
  do 3 f_equal. lia.
Qed.

Lemma low_bits_zero (w : nat) : low_bits w 0 = replicate w "0"%char.
Proof.
  induction w as [|w IH]; [done|].
  rewrite low_bits_succ. simpl Z.div2. by rewrite IH, replicate_S_end.
Qed.

Lemma zfill_snoc (w : nat) (digits : list ascii) (c : ascii) :
  zfill (S w) (digits ++ [c]) = zfill w digits ++ [c].
Proof.
  unfold zfill. rewrite length_app. simpl.
  replace (S w - (length digits + 1)) with (w - length digits) by lia.
  by rewrite (assoc_L (++)).
Qed.

(** Below [2^w] the padded numeral is the [w]-bit pattern. *)
Lemma zfill_bin_pos (p : positive) : ∀ w : nat,
  (Z.pos p < 2 ^ Z.of_nat w)%Z → zfill w (bin_pos p) = low_bits w (Z.pos p).
Proof.
  induction p as [p IH | p IH |]; intros [|w] Hlt;
    try (simpl in Hlt; lia);
    rewrite Nat2Z.inj_succ, Z.pow_succ_r in Hlt by lia.
  - simpl bin_pos. rewrite zfill_snoc, low_bits_succ, IH by lia. done.
  - simpl bin_pos. rewrite zfill_snoc, low_bits_succ, IH by lia. done.
  - rewrite low_bits_succ. simpl Z.div2. rewrite low_bits_zero.
    unfold zfill. simpl. by rewrite Nat.sub_0_r.
Qed.


Lemma format_032b_low_bits (n : Z) :
  (0 ≤ n < 2 ^ 32)%Z → format_032b n = low_bits 32 n.
Proof.
  intros [H0 H32]. destruct n as [|p|p]; [done | | lia].
  simpl format_032b. by apply (zfill_bin_pos p 32).
Qed.






(** ** Pin Map construction *)

(** One record: stored under its bit index when the policy includes it, and
    otherwise the dictionary is returned unchanged, without an error. *)
Lemma bsdl_line_policy (d : gmap Z bit_info) (components : list string)
    (bit : Z) (code name : string) :
  raw_record components bit code name →
  (included code name →
     ∃ info, bsdl_line d components = Ok (<[bit := info]> d)
             ∧ io_type info = code ∧ pin_name info = name)
  ∧ (¬ included code name → bsdl_line d components = Ok d).
Proof.
  intros ([c1 [H1 Hint]] & H2 & H4).
  assert (is_Some (components !! 3)) as [c3 H3].
  { apply lookup_lt_is_Some. apply lookup_lt_Some in H4. lia. }
  unfold bsdl_line, included.
  rewrite (getitem_Ok _ _ _ H1). simpl. rewrite Hint. simpl.
  rewrite (getitem_Ok _ _ _ H4). simpl.
  case_bool_decide as Hn; rewrite (getitem_Ok _ _ _ H2); simpl.
  - destruct (bool_decide (code = "O") || bool_decide (code = "I")
              || bool_decide (code = "B")) eqn:Hc.
    + rewrite (getitem_Ok _ _ _ H3). simpl. split; [eauto|].
      intros Hnot. exfalso. apply Hnot. left. split; [|done].
      rewrite !orb_true_iff, !bool_decide_eq_true in Hc. tauto.
    + rewrite !orb_false_iff, !bool_decide_eq_false in Hc. split; [|done].
      intros [[? _] | [_ ?]]; [tauto | done].
  - case_bool_decide as Hc.
    + rewrite (getitem_Ok _ _ _ H3). simpl. split; [eauto|].
      intros Hnot. exfalso. apply Hnot. by right.
    + split; [|done]. intros [[_ ?] | [? _]]; done.
Qed.

Lemma bsdl_lines_policy (lines : list (list string)) : ∀ d0 : gmap Z bit_info,
  Forall well_formed_line lines →
  ∃ d, bsdl_lines d0 lines = Ok d
       ∧ ∀ bit, is_Some (d !! bit) ↔
           is_Some (d0 !! bit)
           ∨ ∃ components code name, components ∈ lines
               ∧ raw_record components bit code name ∧ included code name.
Proof.
  induction lines as [|components lines IH]; intros d0 Hwf.
  - exists d0. split; [done|]. intros bit. split; [by left|].
    intros [? | (? & ? & ? & Hin & _)]; [done|]. by apply elem_of_nil in Hin.
  - apply Forall_cons in Hwf as [(bit0 & code0 & name0 & Hraw) Hwf].
    destruct (bsdl_line_policy d0 _ _ _ _ Hraw) as [Hyes Hno].
    simpl. destruct (decide (included code0 name0)) as [Hinc | Hinc].
    + destruct (Hyes Hinc) as (info & -> & _). simpl.
      destruct (IH (<[bit0 := info]> d0) Hwf) as (d & -> & Hd).
      exists d. split; [done|]. intros bit. rewrite Hd. split.
      * intros [Hs | (c & code & name & Hin & Hr & Hi)].
        -- destruct (decide (bit0 = bit)) as [<- | Hne].
           ++ right. exists components, code0, name0.
              split; [apply elem_of_cons; by left | done].
           ++ left. by rewrite lookup_insert_ne in Hs.
        -- right. exists c, code, name. split; [apply elem_of_cons; by right | done].
      * intros [Hs | (c & code & name & Hin & Hr & Hi)].
        -- left. destruct (decide (bit0 = bit)) as [<- | Hne].
           ++ rewrite lookup_insert_eq. eauto.
           ++ by rewrite lookup_insert_ne.
        -- apply elem_of_cons in Hin as [-> | Hin].
           ++ left. destruct Hr as ([c1 [Hc1 Hb]] & _).
              destruct Hraw as ([c1' [Hc1' Hb']] & _).
              assert (bit0 = bit) as <- by congruence.
              rewrite lookup_insert_eq. eauto.
           ++ right. exists c, code, name. done.
    + rewrite (Hno Hinc). simpl.
      destruct (IH d0 Hwf) as (d & -> & Hd).
      exists d. split; [done|]. intros bit. rewrite Hd. split.
      * intros [Hs | (c & code & name & Hin & Hr & Hi)]; [by left|].
        right. exists c, code, name. split; [apply elem_of_cons; by right | done].
      * intros [Hs | (c & code & name & Hin & Hr & Hi)]; [by left|].
        apply elem_of_cons in Hin as [-> | Hin].
        -- exfalso. apply Hinc.
           destruct Hr as (_ & Hc & Hn). destruct Hraw as (_ & Hc' & Hn').
           congruence.
        -- right. exists c, code, name. done.
Qed.

Lemma getitem_inv {A} (s : list A) (i : nat) (c : A) :
  getitem s i = Ok c → s !! i = Some c.
Proof. unfold getitem. destruct (s !! i); [by intros [= ->] | done]. Qed.

(** What a line that is processed without an exception looks like, and
    what it does to the dictionary. *)
Lemma bsdl_line_inv (d d' : gmap Z bit_info) (components : list string) :
  bsdl_line d components = Ok d' →
  ∃ bit code name,
    raw_record components bit code name
    ∧ ((included code name
        ∧ ∃ c3, components !! 3 = Some c3
                ∧ d' = <[bit := make_info code c3 name components]> d)
       ∨ (¬ included code name ∧ d' = d)).
Proof.
  intros Hrun0. pose proof Hrun0 as Hrun. unfold bsdl_line in Hrun.
  apply bind_Ok in Hrun as (c1 & H1 & Hrun). apply getitem_inv in H1.
  apply bind_Ok in Hrun as (bit & Hint & Hrun).
  apply bind_Ok in Hrun as (name & H4 & Hrun). apply getitem_inv in H4.
  assert (is_Some (components !! 2)) as [code H2].
  { apply lookup_lt_is_Some. apply lookup_lt_Some in H4. lia. }
  assert (raw_record components bit code name) as Hraw
    by (repeat split; eauto).
  exists bit, code, name. split; [done|].
  destruct (bsdl_line_policy d components bit code name Hraw) as [Hyes Hno].
  destruct (decide (included code name)) as [Hinc | Hinc].
  - left. split; [done|]. rewrite (getitem_Ok _ _ _ H2) in Hrun.
    unfold included in Hinc. case_bool_decide as Hn; simpl in Hrun.
    + destruct Hinc as [[Hc _] | [_ ?]]; [|done].
      rewrite (proj2 (orb_true_iff _ _)) in Hrun.
      2:{ rewrite orb_true_iff, !bool_decide_eq_true. tauto. }
      apply bind_Ok in Hrun as (c3 & H3 & [= <-]). apply getitem_inv in H3.
      eauto.
    + destruct Hinc as [[_ ?] | [-> _]]; [done|].
      rewrite bool_decide_eq_true_2 in Hrun by done.
      apply bind_Ok in Hrun as (c3 & H3 & [= <-]). apply getitem_inv in H3.
      eauto.
  - right. split; [done|]. rewrite (Hno Hinc) in Hrun0. congruence.
Qed.

Lemma bsdl_lines_Ok_well_formed (lines : list (list string)) :
  ∀ d0 d : gmap Z bit_info,
  bsdl_lines d0 lines = Ok d → Forall well_formed_line lines.
Proof.
  induction lines as [|c lines IH]; intros d0 d Hrun; [constructor|].
  cbn [bsdl_lines] in Hrun. apply bind_Ok in Hrun as (d1 & H1 & Hrun).
  constructor; [|by eapply IH].
  apply bsdl_line_inv in H1 as (bit & code & name & Hraw & _).
  by exists bit, code, name.
Qed.

Lemma bsdl_lines_app (l1 l2 : list (list string)) : ∀ d0 : gmap Z bit_info,
  bsdl_lines d0 (l1 ++ l2) = bsdl_lines d0 l1 ≫= λ d, bsdl_lines d l2.
Proof.
  induction l1 as [|c l1 IH]; intros d0; [done|].
  cbn [app bsdl_lines]. destruct (bsdl_line d0 c) as [d1|e]; [|done].
  apply IH.
Qed.

Lemma bsdl_lines_entries (lines : list (list string)) :
  ∀ d0 d : gmap Z bit_info,
  bsdl_lines d0 lines = Ok d →
  ∀ bit info, d !! bit = Some info →
    d0 !! bit = Some info
    ∨ (included (io_type info) (pin_name info)
       ∧ ∃ components,
           components ∈ lines
           ∧ raw_record components bit (io_type info) (pin_name info)
           ∧ components !! 3 = Some (safe_value info)
           ∧ control_bit info = components !! 5
           ∧ disable_value info = components !! 6
           ∧ disable_status info = components !! 7).
Proof.
  induction lines as [|c lines IH]; intros d0 d Hrun bit info Hlook.
  - injection Hrun as <-. by left.
  - cbn [bsdl_lines] in Hrun. apply bind_Ok in Hrun as (d1 & H1 & Hrun).
    destruct (IH d1 d Hrun bit info Hlook)
      as [Hd1 | (Hinc & c' & Hin & Hrest)].
    + apply bsdl_line_inv in H1
        as (bit' & code & name & Hraw & [(Hinc & c3 & H3 & ->) | (_ & ->)]);
        [|by left].
      apply lookup_insert_Some in Hd1 as [[<- <-] | [_ ?]]; [|by left].
      right. split; [done|]. exists c. split; [apply elem_of_cons; by left|].
      done.
    + right. split; [done|]. exists c'.
      split; [apply elem_of_cons; by right | done].
Qed.

(** C7: over raw per-bit records, a bit index is in the Pin Map exactly when
    one of its records has direction O, I or B and a pin name other than [*],
    or direction C and the pin name [*]; every other record is dropped without
    an error.  What the Pin Map holds for a bit index is such a record of that
    index: its direction code, safe value and pin name, and its control cell,
    disable value and disable status where the record has them. *)
Theorem pin_map_inclusion_policy (lines : list (list string)) :
  Forall well_formed_line lines →
  ∃ d, get_dictionary_from_bsdl lines = Some d
       ∧ (∀ bit, is_Some (d !! bit) ↔
            ∃ components code name, components ∈ lines
              ∧ raw_record components bit code name ∧ included code name)
       ∧ ∀ bit info, d !! bit = Some info →
           ∃ components,
             components ∈ lines
             ∧ raw_record components bit (io_type info) (pin_name info)
             ∧ included (io_type info) (pin_name info)
             ∧ components !! 3 = Some (safe_value info)
             ∧ control_bit info = components !! 5
             ∧ disable_value info = components !! 6
             ∧ disable_status info = components !! 7.
Proof.
  intros Hwf. destruct (bsdl_lines_policy lines ∅ Hwf) as (d & Hd & Hiff).
  exists d. unfold get_dictionary_from_bsdl. rewrite Hd. split; [done|]. split.
  - intros bit. rewrite Hiff. split; [|by right].
    intros [Hs | H]; [|done]. rewrite lookup_empty in Hs. by destruct Hs.
  - intros bit info Hlook.
    destruct (bsdl_lines_entries lines ∅ d Hd bit info Hlook)
      as [Hempty | (Hinc & components & Hin & Hraw & Hrest)].
    + by rewrite lookup_empty in Hempty.
    + exists components. done.
Qed.

Lemma pin_map_inclusion_policy_witness :
  ∃ d, get_dictionary_from_bsdl
         [["bit"; "3"; "O"; "1"; "PA"; "2"; "1"; "Z"]; ["bit"; "2"; "C"; "1"; "*"];
          ["bit"; "4"; "C"; "1"; "X"]; ["bit"; "5"; "I"; "1"; "*"]] = Some d
       ∧ (∀ bit, is_Some (d !! bit) ↔
            ∃ components code name,
              components ∈ [["bit"; "3"; "O"; "1"; "PA"; "2"; "1"; "Z"];
                            ["bit"; "2"; "C"; "1"; "*"];
                            ["bit"; "4"; "C"; "1"; "X"];
                            ["bit"; "5"; "I"; "1"; "*"]]
              ∧ raw_record components bit code name ∧ included code name)
       ∧ ∀ bit info, d !! bit = Some info →
           ∃ components,
             components ∈ [["bit"; "3"; "O"; "1"; "PA"; "2"; "1"; "Z"];
                           ["bit"; "2"; "C"; "1"; "*"];
                           ["bit"; "4"; "C"; "1"; "X"];
                           ["bit"; "5"; "I"; "1"; "*"]]
             ∧ raw_record components bit (io_type info) (pin_name info)
             ∧ included (io_type info) (pin_name info)
             ∧ components !! 3 = Some (safe_value info)
             ∧ control_bit info = components !! 5
             ∧ disable_value info = components !! 6
             ∧ disable_status info = components !! 7.
Proof.
  apply (pin_map_inclusion_policy
           [["bit"; "3"; "O"; "1"; "PA"; "2"; "1"; "Z"]; ["bit"; "2"; "C"; "1"; "*"];
            ["bit"; "4"; "C"; "1"; "X"]; ["bit"; "5"; "I"; "1"; "*"]]).
  repeat apply Forall_cons_2; [| | | | apply Forall_nil_2].
  - exists 3%Z, "O", "PA". repeat split. by exists "3".
  - exists 2%Z, "C", "*". repeat split. by exists "2".
  - exists 4%Z, "C", "X". repeat split. by exists "4".
  - exists 5%Z, "I", "*". repeat split. by exists "5".
Defined.

(** ** Change detector *)

Lemma length_string_app (s t : string) :
  String.length (s +:+ t) = String.length s + String.length t.
Proof. induction s as [|c s IH]; simpl; [done | by rewrite IH]. Qed.

Lemma io_key_ne (key : string) : key +:+ "io" ≠ key.
Proof.
  intros H. apply (f_equal String.length) in H.
  rewrite length_string_app in H. simpl in H. lia.
Qed.

Lemma differing_loop_Ok (old new : list ascii) (indices : list nat) :
  Forall (λ i, i < length old ∧ i < length new) indices →
  differing_loop indices old new = Ok (omap (diff_at old new) indices).
Proof.
  induction indices as [|i indices IH]; intros H; [done|].
  apply Forall_cons in H as [[Ho Hn] H].
  apply lookup_lt_is_Some in Ho as [o Ho]. apply lookup_lt_is_Some in Hn as [n Hn].
  simpl. rewrite (getitem_Ok _ _ _ Ho), (getitem_Ok _ _ _ Hn). simpl.
  rewrite (IH H). simpl.
  assert (diff_at old new i
          = if bool_decide (o ≠ n) then Some (i, o, n) else None) as ->
    by (unfold diff_at; by rewrite Ho, Hn).
  by case_bool_decide.
Qed.

Lemma differing_bits_Ok (old new : list ascii) :
  length old ≤ length new →
  differing_bits old new = Ok (changed_bits old new).
Proof.
  intros Hlen. apply differing_loop_Ok. apply Forall_forall.
  intros i Hi. apply elem_of_seq in Hi. lia.
Qed.

Lemma differing_loop_short (old new : list ascii) (k : nat) : ∀ a : nat,
  a ≤ length new → length new < a + k → a + k ≤ length old →
  differing_loop (seq a k) old new = Raise IndexError.
Proof.
  induction k as [|k IH]; intros a Ha Hk Hold; [lia|].
  assert (is_Some (old !! a)) as [o Ho] by (apply lookup_lt_is_Some; lia).
  simpl. rewrite (getitem_Ok _ _ _ Ho). simpl.
  destruct (decide (a = length new)) as [-> | Hne].
  - by rewrite getitem_past_end.
  - assert (is_Some (new !! a)) as [n Hn] by (apply lookup_lt_is_Some; lia).
    rewrite (getitem_Ok _ _ _ Hn). simpl.
    rewrite (IH (S a)) by lia. done.
Qed.

Lemma differing_bits_short (old new : list ascii) :
  length new < length old → differing_bits old new = Raise IndexError.
Proof.
  intros H. apply differing_loop_short; lia.
Qed.

Lemma changed_bits_prefix (old new : list ascii) :
  changed_bits old (take (length old) new) = changed_bits old new.
Proof.
  unfold changed_bits.
  assert (∀ l, Forall (λ i, i < length old) l →
            omap (diff_at old (take (length old) new)) l
            = omap (diff_at old new) l) as Hext.
  { induction l as [|i l IH]; intros Hl; [done|].
    apply Forall_cons in Hl as [Hi Hl]. csimpl. rewrite (IH Hl).
    unfold diff_at. by rewrite lookup_take_lt. }
  apply Hext. apply Forall_forall. intros i Hi. apply elem_of_seq in Hi. lia.
Qed.

Lemma record_change_lookup_key nm o n key (sd : gmap string (list string)) :
  record_change nm o n key sd !! key = (λ l, l ++ [nm]) <$> sd !! key.
Proof.
  unfold record_change, append_to.
  rewrite lookup_alter_ne by apply io_key_ne. apply lookup_alter_eq.
Qed.

Lemma record_change_lookup_io nm o n key (sd : gmap string (list string)) :
  record_change nm o n key sd !! (key +:+ "io")
  = (λ l, l ++ [transition o n]) <$> sd !! (key +:+ "io").
Proof.
  unfold record_change, append_to.
  rewrite lookup_alter_eq. f_equal.
  apply lookup_alter_ne. intros H. by apply (io_key_ne key).
Qed.

Lemma record_change_lookup_other nm o n key k (sd : gmap string (list string)) :
  k ≠ key → k ≠ key +:+ "io" → record_change nm o n key sd !! k = sd !! k.
Proof.
  intros H1 H2. unfold record_change, append_to.
  by rewrite !lookup_alter_ne.
Qed.

(** One differing bit: its report is printed, and the summary changes only
    when the bit is attributed. *)
Lemma lookup_step_eq st dict key (sd : gmap string (list string)) out d :
  lookup_step st dict key (sd, out) d
  = (match attributed st dict d with
     | Some _ => record_change
                   (default "" (fst <$> attributed st dict d)) d.1.2 d.2 key sd
     | None => sd
     end, out ++ reports_of dict d).
Proof.
  destruct d as [[i o] n]. unfold lookup_step, attributed, reports_of, attributable.
  destruct (dict !! Z.of_nat i) as [info|]; [|done]. simpl.
  rewrite <- (assoc_L (++)). simpl. f_equal.
  destruct (decide (st = 0%Z)) as [-> | H0].
  - rewrite (bool_decide_eq_true_2 (0%Z = 0%Z)) by done.
    rewrite (bool_decide_eq_false_2 (0%Z = 1%Z)) by done. simpl.
    rewrite orb_false_r. by case_bool_decide.
  - rewrite (bool_decide_eq_false_2 (st = 0%Z)) by done. simpl.
    destruct (bool_decide (st = 1%Z) && bool_decide (o = "0"%char)); done.
Qed.

Lemma lookup_fold st dict key (diffs : list (nat * ascii * ascii)) :
  ∀ (sd : gmap string (list string)) (out : list report),
  let r := foldl (lookup_step st dict key) (sd, out) diffs in
  r.1 !! key = (λ l, l ++ (omap (attributed st dict) diffs).*1) <$> sd !! key
  ∧ r.1 !! (key +:+ "io")
    = (λ l, l ++ (omap (attributed st dict) diffs).*2) <$> sd !! (key +:+ "io")
  ∧ (∀ k, k ≠ key → k ≠ key +:+ "io" → r.1 !! k = sd !! k)
  ∧ r.2 = out ++ diffs ≫= reports_of dict.
Proof.
  induction diffs as [|d diffs IH]; intros sd out r.
  - subst r. simpl. repeat split.
    + destruct (sd !! key); simpl; by rewrite ?app_nil_r.
    + destruct (sd !! (key +:+ "io")); simpl; by rewrite ?app_nil_r.
    + by rewrite app_nil_r.
  - subst r. cbn [foldl]. rewrite lookup_step_eq.
    match goal with |- context [foldl _ (?s, ?o) diffs] =>
      destruct (IH s o) as (Hk & Hio & Hother & Hout) end.
    rewrite Hk, Hio, Hout. clear Hk Hio Hout.
    csimpl. destruct d as [[i o] n].
    destruct (attributed st dict (i, o, n)) as [[nm io]|] eqn:Hatt.
    + assert (io = transition o n) as ->.
      { unfold attributed in Hatt. destruct (dict !! Z.of_nat i); [|done].
        destruct (attributable st o); congruence. }
      simpl. rewrite record_change_lookup_key, record_change_lookup_io.
      repeat split.
      * destruct (sd !! key); simpl; [|done]. by rewrite <- (assoc_L (++)).
      * destruct (sd !! (key +:+ "io")); simpl; [|done].
        by rewrite <- (assoc_L (++)).
      * intros k H1 H2. rewrite Hother by done.
        by apply record_change_lookup_other.
      * by rewrite <- (assoc_L (++)).
    + repeat split; [done | by rewrite <- (assoc_L (++))].
Qed.

Lemma omap_reported_bits dict (diffs : list (nat * ascii * ascii)) :
  omap reported_bit (diffs ≫= reports_of dict) = diffs.
Proof.
  induction diffs as [|[[i o] n] diffs IH]; [done|].
  csimpl. rewrite omap_app, IH. simpl.
  by destruct (dict !! Z.of_nat i).
Qed.

(** The change detector on snapshots it can compare: the summary lists under
    the two keys are the attributed pin names and transitions, the other keys
    are untouched, and every differing bit is reported. *)
Lemma dr_out_changes_lookup_Ok st (old new : list ascii) dict
    (sd : gmap string (list string)) key :
  length old ≤ length new →
  ∃ sd' out,
    dr_out_changes_lookup st old new dict sd key = Ok (sd', out)
    ∧ sd' !! key
      = Some (omap (attributed st dict) (changed_bits old new)).*1
    ∧ sd' !! (key +:+ "io")
      = Some (omap (attributed st dict) (changed_bits old new)).*2
    ∧ (∀ k, k ≠ key → k ≠ key +:+ "io" → sd' !! k = sd !! k)
    ∧ omap reported_bit out = changed_bits old new.
Proof.
  intros Hlen. unfold dr_out_changes_lookup.
  rewrite (differing_bits_Ok _ _ Hlen). simpl.
  match goal with |- context [foldl _ (?s, ?o) ?l] =>
    destruct (lookup_fold st dict key l s o) as (Hk & Hio & Hother & Hout);
    destruct (foldl (lookup_step st dict key) (s, o) l) as [sd' out] eqn:Hfold end.
  simpl in *. exists sd', out. split; [done|].
  rewrite Hk, Hio, Hout. repeat split.
  - rewrite lookup_insert_ne by apply io_key_ne. by rewrite lookup_insert_eq.
  - by rewrite lookup_insert_eq.
  - intros k H1 H2. rewrite Hother by done. by rewrite !lookup_insert_ne.
  - apply omap_reported_bits.
Qed.

Lemma attributable_true st (o : ascii) :
  attributable st o = true ↔
  (st = 0%Z ∧ o = "1"%char) ∨ (st = 1%Z ∧ o = "0"%char).
Proof.
  unfold attributable.
  by rewrite orb_true_iff, !andb_true_iff, !bool_decide_eq_true.
Qed.

Lemma attributed_Some st dict (i : nat) (o n : ascii) (nm io : string) :
  attributed st dict (i, o, n) = Some (nm, io) ↔
  (∃ info, dict !! Z.of_nat i = Some info ∧ nm = pin_name info)
  ∧ io = transition o n
  ∧ ((st = 0%Z ∧ o = "1"%char) ∨ (st = 1%Z ∧ o = "0"%char)).
Proof.
  unfold attributed. rewrite <- attributable_true.
  destruct (dict !! Z.of_nat i) as [info|].
  - destruct (attributable st o).
    + split.
      * intros [= <- <-]. eauto.
      * intros ((info' & [= <-] & ->) & -> & _). done.
    + split; [done|]. by intros (_ & _ & ?).
  - split; [done|]. by intros ((info' & ? & _) & _).
Qed.



(** C5, as the code has it: a new snapshot shorter than the old one makes
    the comparison fail with [IndexError] at the first missing position; a
    longer one is compared on the length of the old snapshot and nothing
    fails. *)
Theorem change_detector_length_mismatch st (old new : list ascii) dict
    (sd : gmap string (list string)) key :
  (length new < length old →
     dr_out_changes_lookup st old new dict sd key = Raise IndexError)
  ∧ (length old < length new →
     (∃ r, dr_out_changes_lookup st old new dict sd key = Ok r)
     ∧ dr_out_changes_lookup st old new dict sd key
       = dr_out_changes_lookup st old (take (length old) new) dict sd key).
Proof.
  split; intros Hlen.
  - unfold dr_out_changes_lookup. by rewrite differing_bits_short.
  - split.
    + destruct (dr_out_changes_lookup_Ok st old new dict sd key)
        as (sd' & out & Hrun & _); [lia | eauto].
    + unfold dr_out_changes_lookup.
      rewrite !differing_bits_Ok, changed_bits_prefix; [done | | lia].
      rewrite length_take. lia.
Qed.

Lemma change_detector_length_mismatch_witness :
  dr_out_changes_lookup 0 ["1"; "1"]%char ["0"]%char ∅ ∅ "sample"
    = Raise IndexError
  ∧ dr_out_changes_lookup 0 ["1"]%char ["0"; "1"]%char ∅ ∅ "sample"
    = dr_out_changes_lookup 0 ["1"]%char ["0"]%char ∅ ∅ "sample".
Proof.
  split.
  - apply (proj1 (change_detector_length_mismatch 0 ["1"; "1"]%char ["0"]%char
                    ∅ ∅ "sample")). simpl. lia.
  - apply (proj2 (change_detector_length_mismatch 0 ["1"]%char ["0"; "1"]%char
                    ∅ ∅ "sample")). simpl. lia.
Defined.

(** C5 as stated fails: the snapshots ["0"] and ["11"] differ in length, and
    the change detector returns the change of bit 0 instead of failing. *)
Lemma change_detector_compares_prefix :
  length ["0"]%char ≠ length ["1"; "1"]%char
  ∧ ∃ sd',
      dr_out_changes_lookup 1 ["0"]%char ["1"; "1"]%char ∅ ∅ "sample"
      = Ok (sd', [BitChange 0 "0" "1"]).
Proof. split; [done|]. eexists. reflexivity. Qed.

(** ** Connectivity classifier *)

Lemma getkey_field (sd : gmap string (list string)) (k : string) :
  is_Some (sd !! k) → getkey sd k = Ok (field sd k).
Proof. intros [l Hl]. unfold getkey, field. by rewrite Hl. Qed.

(** A loop over the indices of two lists of one length visits the pairs of
    their zip. *)
Lemma bind_seq_zip {A B C} (g : A → B → list C) (l1 : list A) : ∀ l2 : list B,
  length l1 = length l2 →
  seq 0 (length l1) ≫= (λ i, match l1 !! i, l2 !! i with
                              | Some a, Some b => g a b
                              | _, _ => []
                              end)
  = zip l1 l2 ≫= (λ p, g p.1 p.2).
Proof.
  induction l1 as [|a l1 IH]; intros [|b l2] Hlen; try done.
  simpl length. rewrite <- cons_seq, <- fmap_S_seq. simpl zip.
  rewrite !bind_cons, list_fmap_bind. simpl. f_equal.
  apply IH. simpl in Hlen. lia.
Qed.

Lemma bind_nil_const {A B} (l : list A) : l ≫= (λ _, @nil B) = [].
Proof. induction l as [|a l IH]; [done|]. by rewrite bind_cons, IH. Qed.

Section StepRecord.

Variable sd : gmap string (list string).
Hypothesis Hwf : well_formed_record sd.

Lemma sample_loop_spec (label driver : string) (indices : list nat) :
  ∀ chain : gmap string (list string),
  Forall (λ i, i < length (field sd "sample")) indices →
  ∃ chain',
    sample_loop indices sd label driver chain = Ok chain'
    ∧ chain' !! driver
      = (λ l, l ++ (indices ≫= pick sd label)) <$> chain !! driver
    ∧ ∀ k, k ≠ driver → chain' !! k = chain !! k.
Proof.
  destruct Hwf as ((_ & _ & Hs & Hsio) & _ & Hlen).
  induction indices as [|i indices IH]; intros chain Hi.
  - exists chain. split; [done|]. split; [|done].
    destruct (chain !! driver); simpl; by rewrite ?app_nil_r.
  - apply Forall_cons in Hi as [Hi Hrest].
    assert (is_Some (field sd "sample" !! i)) as [nm Hnm]
      by by apply lookup_lt_is_Some.
    assert (is_Some (field sd "sampleio" !! i)) as [io Hio]
      by (apply lookup_lt_is_Some; lia).
    rewrite bind_cons. unfold pick at 1. rewrite Hnm, Hio.
    cbn [sample_loop]. rewrite (getkey_field _ _ Hsio). csimpl.
    rewrite (getitem_Ok _ _ _ Hio). csimpl.
    case_bool_decide as Hlabel.
    + rewrite (getkey_field _ _ Hs). csimpl.
      rewrite (getitem_Ok _ _ _ Hnm). csimpl.
      destruct (IH (append_to driver nm chain) Hrest) as (chain' & -> & Hd & Ho).
      exists chain'. split; [done|]. split.
      * rewrite Hd. unfold append_to. rewrite lookup_alter_eq.
        destruct (chain !! driver); simpl; [|done].
        by rewrite <- (assoc_L (++)).
      * intros k Hk. rewrite (Ho k Hk). unfold append_to.
        by rewrite lookup_alter_ne.
    + destruct (IH chain Hrest) as (chain' & -> & Hd & Ho).
      exists chain'. done.
Qed.

Lemma match_pass_spec (label driver : string)
    (chain : gmap string (list string)) :
  ∃ chain',
    match_pass sd label driver chain = Ok chain'
    ∧ chain' !! driver = (λ l, l ++ labelled sd label) <$> chain !! driver
    ∧ ∀ k, k ≠ driver → chain' !! k = chain !! k.
Proof.
  pose proof Hwf as ((_ & _ & Hs & Hsio) & _ & Hlen).
  unfold match_pass. rewrite (getkey_field _ _ Hsio). simpl.
  destruct (sample_loop_spec label driver
              (seq 0 (length (field sd "sampleio"))) chain)
    as (chain' & -> & Hd & Ho).
  { apply Forall_forall. intros i Hi. apply elem_of_seq in Hi. lia. }
  exists chain'. split; [done|]. split; [|done].
  rewrite Hd. rewrite <- Hlen. unfold pick, labelled.
  by rewrite (bind_seq_zip
                (λ nm io, if bool_decide (io = label) then [nm] else [])
                _ _ Hlen).
Qed.

End StepRecord.

Lemma direction_match_label (label sample_io : string) :
  label = "0 -> 1" ∨ label = "1 -> 0" →
  direction_match label sample_io = bool_decide (sample_io = label).
Proof.
  unfold direction_match.
  intros [-> | ->]; repeat case_bool_decide; simpl; try tauto;
    try by destruct_and?.
  all: exfalso; intuition congruence.
Qed.

Lemma direction_match_other (driver_io sample_io : string) :
  driver_io ≠ "0 -> 1" → driver_io ≠ "1 -> 0" →
  direction_match driver_io sample_io = false.
Proof.
  intros H1 H2. unfold direction_match.
  repeat case_bool_decide; simpl; try tauto; try by destruct_and?.
Qed.

Lemma matched_label (sd : gmap string (list string)) (label : string) :
  label = "0 -> 1" ∨ label = "1 -> 0" → matched sd label = labelled sd label.
Proof.
  intros H. unfold matched, labelled. apply list_bind_ext; [|done].
  intros p. by rewrite direction_match_label.
Qed.

Lemma matched_other (sd : gmap string (list string)) (driver_io : string) :
  driver_io ≠ "0 -> 1" → driver_io ≠ "1 -> 0" → matched sd driver_io = [].
Proof.
  intros H1 H2. unfold matched.
  transitivity (zip (field sd "sample") (field sd "sampleio")
                  ≫= (λ _, @nil string)); [|apply bind_nil_const].
  apply list_bind_ext; [|done]. intros p. by rewrite direction_match_other.
Qed.

Section ExtestLoop.

Variable sd : gmap string (list string).
Hypothesis Hwf : well_formed_record sd.

(** The [if]/[elif] on the driver transition, for a driver that already has
    its list. *)
Lemma direction_pass_spec (io driver : string) (l0 : list string)
    (chain : gmap string (list string)) :
  chain !! driver = Some l0 →
  ∃ chain',
    (if bool_decide (io = "0 -> 1") then match_pass sd "0 -> 1" driver chain
     else if bool_decide (io = "1 -> 0") then match_pass sd "1 -> 0" driver chain
     else Ok chain) = Ok chain'
    ∧ chain' !! driver = Some (l0 ++ matched sd io)
    ∧ ∀ k, k ≠ driver → chain' !! k = chain !! k.
Proof.
  intros Hl0. case_bool_decide as H01; [|case_bool_decide as H10].
  - subst io. destruct (match_pass_spec sd Hwf "0 -> 1" driver chain)
      as (chain' & -> & Hd & Ho).
    exists chain'. rewrite Hd, Hl0, matched_label by auto. done.
  - subst io. destruct (match_pass_spec sd Hwf "1 -> 0" driver chain)
      as (chain' & -> & Hd & Ho).
    exists chain'. rewrite Hd, Hl0, matched_label by auto. done.
  - exists chain. rewrite matched_other, app_nil_r by done. done.
Qed.

Lemma extest_loop_spec (indices : list nat) :
  ∀ chain : gmap string (list string),
  Forall (λ i, i < length (field sd "extest")) indices →
  ∃ chain',
    extest_loop indices sd chain = Ok chain'
    ∧ ∀ driver,
        (is_Some (chain' !! driver) ↔
           is_Some (chain !! driver)
           ∨ ∃ i, i ∈ indices ∧ field sd "extest" !! i = Some driver)
        ∧ default [] (chain' !! driver)
          = default [] (chain !! driver) ++ (indices ≫= contrib_at sd driver).
Proof.
  pose proof Hwf as ((He & Heio & _ & _) & Hlen & _).
  induction indices as [|i indices IH]; intros chain Hi.
  - exists chain. split; [done|]. intros driver. split.
    + split; [by left|]. intros [? | (i & Hin & _)]; [done|].
      by apply elem_of_nil in Hin.
    + by rewrite app_nil_r.
  - apply Forall_cons in Hi as [Hi Hrest].
    assert (is_Some (field sd "extest" !! i)) as [nm Hnm]
      by by apply lookup_lt_is_Some.
    assert (is_Some (field sd "extestio" !! i)) as [io Hio]
      by (apply lookup_lt_is_Some; lia).
    cbn [extest_loop]. rewrite (getkey_field _ _ He). csimpl.
    rewrite (getitem_Ok _ _ _ Hnm). csimpl.
    rewrite (getkey_field _ _ Heio). csimpl.
    rewrite (getitem_Ok _ _ _ Hio). csimpl.
    set (chain1 := match chain !! nm with
                   | Some _ => chain
                   | None => <[nm := []]> chain
                   end).
    assert (chain1 !! nm = Some (default [] (chain !! nm))) as H1nm.
    { subst chain1. destruct (chain !! nm) eqn:E; [done|].
      by rewrite lookup_insert_eq. }
    assert (∀ k, k ≠ nm → chain1 !! k = chain !! k) as H1other.
    { intros k Hk. subst chain1. destruct (chain !! nm); [done|].
      by rewrite lookup_insert_ne. }
    destruct (direction_pass_spec io nm _ chain1 H1nm)
      as (chain2 & -> & H2nm & H2other). csimpl.
    destruct (IH chain2 Hrest) as (chain' & -> & Hspec).
    exists chain'. split; [done|]. intros driver.
    destruct (Hspec driver) as [Hsome Hdef]. rewrite Hsome, Hdef.
    unfold contrib_at at 2. rewrite Hnm, Hio.
    destruct (decide (nm = driver)) as [<- | Hne].
    + rewrite H2nm, bool_decide_eq_true_2 by done. split.
      * split; [|eauto]. intros _. right. exists i.
        split; [apply elem_of_cons; by left | done].
      * simpl. by rewrite <- (assoc_L (++)).
    + rewrite H2other, H1other, bool_decide_eq_false_2 by done. split; [|done].
      split.
      * intros [? | (j & Hj & Hjn)]; [by left|]. right. exists j.
        split; [apply elem_of_cons; by right | done].
      * intros [? | (j & Hj & Hjn)]; [by left|].
        apply elem_of_cons in Hj as [-> | Hj]; [congruence|].
        right. eauto.
Qed.

(** One step record: the drivers it names get a list, and every list grows
    by the contribution of the step. *)
Lemma step_record_spec (chain : gmap string (list string)) :
  ∃ chain',
    extest_loop (seq 0 (length (field sd "extestio"))) sd chain = Ok chain'
    ∧ ∀ driver,
        (is_Some (chain' !! driver) ↔
           is_Some (chain !! driver) ∨ driver ∈ field sd "extest")
        ∧ default [] (chain' !! driver)
          = default [] (chain !! driver) ++ contribution driver sd.
Proof.
  pose proof Hwf as (_ & Hlen & _).
  destruct (extest_loop_spec (seq 0 (length (field sd "extestio"))) chain)
    as (chain' & Hrun & Hspec).
  { apply Forall_forall. intros i Hi. apply elem_of_seq in Hi. lia. }
  exists chain'. split; [done|]. intros driver.
  destruct (Hspec driver) as [Hsome Hdef]. split.
  - rewrite Hsome. apply or_iff_compat_l. split.
    + intros (i & _ & Hi). by apply list_elem_of_lookup_2 in Hi.
    + intros Hin. apply list_elem_of_lookup_1 in Hin as [i Hi].
      exists i. split; [|done]. apply elem_of_seq.
      apply lookup_lt_Some in Hi. lia.
  - rewrite Hdef. f_equal. rewrite <- Hlen. unfold contrib_at, contribution.
    by rewrite (bind_seq_zip
                  (λ nm io, if bool_decide (nm = driver) then matched sd io else [])
                  _ _ Hlen).
Qed.

End ExtestLoop.

Lemma summary_loop_spec (sl : list (gmap string (list string))) :
  ∀ chain : gmap string (list string),
  Forall well_formed_record sl →
  ∃ chain',
    summary_loop sl chain = Ok chain'
    ∧ ∀ driver,
        (is_Some (chain' !! driver) ↔
           is_Some (chain !! driver) ∨ recorded sl driver)
        ∧ default [] (chain' !! driver)
          = default [] (chain !! driver) ++ match_list sl driver.
Proof.
  induction sl as [|sd sl IH]; intros chain Hwf.
  - exists chain. split; [done|]. intros driver. split.
    + split; [by left|]. intros [? | (sd & Hin & _)]; [done|].
      by apply elem_of_nil in Hin.
    + unfold match_list. by rewrite app_nil_r.
  - apply Forall_cons in Hwf as [Hsd Hwf].
    cbn [summary_loop].
    rewrite (getkey_field sd "extestio") by (by destruct Hsd as ((_ & ? & _) & _)).
    csimpl. destruct (step_record_spec sd Hsd chain) as (chain1 & -> & H1).
    csimpl. destruct (IH chain1 Hwf) as (chain' & -> & H').
    exists chain'. split; [done|]. intros driver.
    destruct (H1 driver) as [H1s H1d]. destruct (H' driver) as [H's H'd].
    rewrite H's, H'd, H1s, H1d. split.
    + split.
      * intros [[? | Hin] | (sd' & Hin & Hd)]; [by left | |].
        -- right. exists sd. split; [apply elem_of_cons; by left | done].
        -- right. exists sd'. split; [apply elem_of_cons; by right | done].
      * intros [? | (sd' & Hin & Hd)]; [by left; left|].
        apply elem_of_cons in Hin as [-> | Hin]; [by left; right|].
        right. by exists sd'.
    + unfold match_list. csimpl. by rewrite (assoc_L (++)).
Qed.

Lemma summary_chain_spec (sl : list (gmap string (list string))) :
  Forall well_formed_record sl →
  ∃ chain,
    summary_chain sl = Ok chain
    ∧ ∀ driver,
        (is_Some (chain !! driver) ↔ recorded sl driver)
        ∧ (∀ L, chain !! driver = Some L → L = match_list sl driver).
Proof.
  intros Hwf. destruct (summary_loop_spec sl ∅ Hwf) as (chain & Hrun & Hspec).
  exists chain. split; [done|]. intros driver.
  destruct (Hspec driver) as [Hs Hd]. rewrite lookup_empty in Hs, Hd. split.
  - rewrite Hs. split; [|by right]. intros [[? ?] | ?]; done.
  - intros L HL. by rewrite HL in Hd.
Qed.

Lemma view_summary_runs (sl : list (gmap string (list string))) :
  Forall well_formed_record sl → ∃ verdicts, view_summary sl = Ok verdicts.
Proof.
  intros Hwf. destruct (summary_chain_spec sl Hwf) as (chain & Hrun & _).
  exists (classify <$> chain). unfold view_summary. by rewrite Hrun.
Qed.

(** The verdict of a driver pin is read off its list, and only recorded
    driver pins have one. *)
Lemma view_summary_lookup (sl : list (gmap string (list string)))
    (verdicts : gmap string verdict) (driver : string) :
  Forall well_formed_record sl → view_summary sl = Ok verdicts →
  (recorded sl driver →
     verdicts !! driver = Some (classify (match_list sl driver)))
  ∧ (¬ recorded sl driver → verdicts !! driver = None).
Proof.
  intros Hwf Hview.
  destruct (summary_chain_spec sl Hwf) as (chain & Hrun & Hspec).
  unfold view_summary in Hview. rewrite Hrun in Hview. injection Hview as <-.
  destruct (Hspec driver) as [Hs HL]. rewrite lookup_fmap. split; intros Hrec.
  - apply Hs in Hrec as [L HLk]. rewrite HLk. simpl. by rewrite (HL L HLk).
  - destruct (chain !! driver) as [L|] eqn:E; [|done].
    exfalso. apply Hrec, Hs. eauto.
Qed.

(** The verdict table. *)
Lemma classify_table (L : list string) :
  (length L = 2 → L !! 0 = L !! 1 →
     ∃ target, L !! 0 = Some target ∧ classify L = Connected target)
  ∧ (2 < length L → classify L = Interference)
  ∧ (length L = 1 → classify L = Partial)
  ∧ (length L = 0 ∨ (length L = 2 ∧ L !! 0 ≠ L !! 1) →
     classify L = NotConnected).
Proof.
  unfold classify.
  destruct L as [|a [|b [|c L]]]; simpl; repeat split; try lia; try done.
  - intros _ [= ->]. exists b. by rewrite bool_decide_eq_true_2.
  - intros [? | [_ Hne]]; [done|]. by rewrite bool_decide_eq_false_2.
Qed.

(** C1: the classifier keeps, for each driver pin, one list over all steps,
    to which a step adds every attributed observed pin whose transition
    matches an attributed transition of the driver in that step; the verdict
    of the driver is read off that list by the table of the specification. *)
Theorem classifier_verdicts (sl : list (gmap string (list string))) :
  Forall well_formed_record sl →
  ∃ chain verdicts,
    summary_chain sl = Ok chain
    ∧ view_summary sl = Ok verdicts
    ∧ (∀ driver L, chain !! driver = Some L → L = match_list sl driver)
    ∧ (∀ driver, recorded sl driver →
         verdicts !! driver = Some (classify (match_list sl driver)))
    ∧ ∀ L : list string,
        (length L = 2 → L !! 0 = L !! 1 →
           ∃ target, L !! 0 = Some target ∧ classify L = Connected target)
        ∧ (2 < length L → classify L = Interference)
        ∧ (length L = 1 → classify L = Partial)
        ∧ (length L = 0 ∨ (length L = 2 ∧ L !! 0 ≠ L !! 1) →
           classify L = NotConnected).
Proof.
  intros Hwf. destruct (summary_chain_spec sl Hwf) as (chain & Hrun & Hspec).
  exists chain, (classify <$> chain). unfold view_summary. rewrite Hrun.
  split; [done|]. split; [done|]. split; [|split].
  - intros driver. apply (Hspec driver).
  - intros driver Hrec. destruct (Hspec driver) as [Hs HL].
    apply Hs in Hrec as [L HLk]. rewrite lookup_fmap, HLk. simpl.
    by rewrite (HL L HLk).
  - apply classify_table.
Qed.

(** C10: a driver pin has a verdict exactly when some step of the session
    recorded an attributed EXTEST transition of it; a driver pin that never
    shows one has no entry at all. *)
Theorem verdict_keys (sl : list (gmap string (list string))) :
  Forall well_formed_record sl →
  ∃ verdicts,
    view_summary sl = Ok verdicts
    ∧ (∀ driver, is_Some (verdicts !! driver) ↔ recorded sl driver)
    ∧ (∀ driver, ¬ recorded sl driver → verdicts !! driver = None).
Proof.
  intros Hwf. destruct (summary_chain_spec sl Hwf) as (chain & Hrun & Hspec).
  exists (classify <$> chain). unfold view_summary. rewrite Hrun.
  split; [done|].
  assert (∀ driver, is_Some ((classify <$> chain) !! driver) ↔ recorded sl driver)
    as Hiff.
  { intros driver. rewrite lookup_fmap, fmap_is_Some. apply (Hspec driver). }
  split; [done|]. intros driver Hnot.
  apply eq_None_not_Some. by rewrite Hiff.
Qed.

(** ** Walk pattern generator *)

Lemma enable_pin_gating (info : bit_info) (s : list ascii) :
  enable_pin info s
  = g ← gating info;
    Ok (match g with Some (c, e) => set_bits s c e | None => s end).
Proof.
  unfold enable_pin, gating. destruct (control_bit info) as [cb|]; [|done].
  destruct (int cb) as [c|]; [|done]. simpl.
  destruct (disable_value info) as [dv|]; [|done].
  by destruct (int dv).
Qed.

Lemma set_bits_insert (s : list ascii) (p b : Z) :
  (0 ≤ p < Z.of_nat (length s))%Z → is_bit b →
  set_bits s p b = <[Z.to_nat p := bit_char b]> s.
Proof.
  intros Hp Hb. rewrite <- (Z2Nat.id p) at 1 by lia.
  apply set_bits_in_range; [done | lia].
Qed.

Lemma length_pin_write value (s : list ascii) item :
  length (pin_write value s item) = length s.
Proof.
  unfold pin_write. destruct (gating item.2) as [[[c e]|]|];
    by rewrite ?length_insert.
Qed.

(** On a valid pin the two string writes of the generators are the two
    list updates. *)
Lemma pin_write_ok (value : Z) (s : list ascii) (bit : Z) (info : bit_info) :
  valid_pin (length s) bit info → is_output info = true → is_bit value →
  enable_pin info (set_bits s bit value) = Ok (pin_write value s (bit, info)).
Proof.
  intros Hv Hout Hb. destruct (Hv Hout) as (Hbit & g & Hg & Hc).
  rewrite enable_pin_gating, Hg. simpl. unfold pin_write. simpl. rewrite Hg.
  rewrite (set_bits_insert s bit value) by done.
  destruct g as [[c e]|]; [|done].
  destruct (Hc c e eq_refl) as [Hcr He].
  by rewrite set_bits_insert by (by rewrite ?length_insert).
Qed.

Lemma is_bit_lxor (value : Z) : is_bit value → is_bit (Z.lxor value 1).
Proof. intros [-> | ->]; [by right | by left]. Qed.

(** *** Sorted items *)

Lemma elem_of_sorted_items (dict : gmap Z bit_info) bit info :
  (bit, info) ∈ sorted_items dict ↔ dict !! bit = Some info.
Proof.
  unfold sorted_items. rewrite merge_sort_Permutation.
  apply elem_of_map_to_list.
Qed.

Lemma NoDup_sorted_keys (dict : gmap Z bit_info) :
  NoDup (sorted_items dict).*1.
Proof.
  unfold sorted_items. rewrite merge_sort_Permutation.
  apply NoDup_fst_map_to_list.
Qed.

Lemma StronglySorted_strict (l : list (Z * bit_info)) :
  StronglySorted item_le l → NoDup l.*1 →
  StronglySorted (λ p q, (p.1 < q.1)%Z) l.
Proof.
  induction 1 as [|p l Hl IH Hall]; intros Hnd; constructor.
  - apply IH. by apply NoDup_cons in Hnd as [_ ?].
  - csimpl in Hnd. apply NoDup_cons in Hnd as [Hnotin _].
    apply Forall_forall. intros q Hq.
    rewrite Forall_forall in Hall. specialize (Hall q Hq). unfold item_le in Hall.
    assert (p.1 ≠ q.1).
    { intros Heq. apply Hnotin. rewrite Heq. apply list_elem_of_fmap. eauto. }
    lia.
Qed.

Lemma StronglySorted_filter {A} (R : relation A) (P : A → Prop)
    `{∀ x, Decision (P x)} (l : list A) :
  StronglySorted R l → StronglySorted R (filter P l).
Proof.
  induction 1 as [|x l Hl IH Hall]; [constructor|].
  rewrite filter_cons. case_decide; [|done].
  constructor; [done|]. rewrite Forall_forall in Hall |- *.
  intros y Hy. apply Hall. by apply list_elem_of_filter in Hy as [_ ?].
Qed.

Lemma output_items_sorted (dict : gmap Z bit_info) :
  StronglySorted (λ p q, (p.1 < q.1)%Z) (output_items dict).
Proof.
  apply StronglySorted_filter, StronglySorted_strict.
  - apply StronglySorted_merge_sort; apply _.
  - apply NoDup_sorted_keys.
Qed.

Lemma elem_of_output_items (dict : gmap Z bit_info) bit info :
  (bit, info) ∈ output_items dict ↔
  dict !! bit = Some info ∧ is_output info = true.
Proof.
  unfold output_items. rewrite list_elem_of_filter, elem_of_sorted_items.
  simpl. tauto.
Qed.

Lemma length_output_items (dict : gmap Z bit_info) :
  length (output_items dict)
  = length (filter (λ item, is_output item.2 = true) (map_to_list dict)).
Proof.
  unfold output_items, sorted_items. by rewrite merge_sort_Permutation.
Qed.

(** *** The two loops as list updates *)

Lemma walkins_loop_spec (walkin_string : list ascii) (value : Z)
    (items : list (Z * bit_info)) :
  ∀ acc : list (list ascii),
  (∀ bit info, (bit, info) ∈ items →
     valid_pin (length walkin_string) bit info) →
  is_bit value →
  walkins_loop items walkin_string value acc
  = Ok (acc ++ ((λ item, reverse (pin_write value (reverse walkin_string) item))
                  <$> filter (λ item, is_output item.2 = true) items)).
Proof.
  induction items as [|[bit info] items IH]; intros acc Hv Hb.
  - simpl. by rewrite app_nil_r.
  - cbn [walkins_loop]. rewrite filter_cons. simpl.
    assert (∀ b i, (b, i) ∈ items → valid_pin (length walkin_string) b i) as Hv'.
    { intros b i Hin. apply Hv. apply elem_of_cons. by right. }
    destruct (is_output info) eqn:Hout.
    + rewrite pin_write_ok; [|rewrite length_reverse; apply Hv;
                                apply elem_of_cons; by left | done | done].
      csimpl. rewrite IH by done. by rewrite <- (assoc_L (++)).
    + by rewrite IH by done.
Qed.

Lemma setup_loop_spec (value : Z) (items : list (Z * bit_info)) :
  ∀ s : list ascii,
  (∀ bit info, (bit, info) ∈ items → valid_pin (length s) bit info) →
  is_bit value →
  setup_loop items value s
  = Ok (foldl (pin_write (Z.lxor value 1)) s
          (filter (λ item, is_output item.2 = true) items)).
Proof.
  induction items as [|[bit info] items IH]; intros s Hv Hb; [done|].
  cbn [setup_loop]. rewrite filter_cons. simpl.
  assert (∀ s' : list ascii, length s' = length s →
            ∀ b i, (b, i) ∈ items → valid_pin (length s') b i) as Hv'.
  { intros s' -> b i Hin. apply Hv. apply elem_of_cons. by right. }
  destruct (is_output info) eqn:Hout.
  - rewrite pin_write_ok;
      [|apply Hv; apply elem_of_cons; by left | done | by apply is_bit_lxor].
    csimpl.
    rewrite IH; [done | exact (Hv' _ (length_pin_write _ _ _)) | done].
  - rewrite IH; [done | exact (Hv' s eq_refl) | done].
Qed.

Lemma length_foldl_pin_write value (items : list (Z * bit_info)) :
  ∀ s : list ascii, length (foldl (pin_write value) s items) = length s.
Proof.
  induction items as [|item items IH]; intros s; [done|].
  cbn [foldl]. by rewrite IH, length_pin_write.
Qed.

(** *** The effect of the writes of one pin *)

Section PinWrite.

Variables (n : nat) (value : Z) (s : list ascii) (bit : Z) (info : bit_info).
Hypothesis Hlen : length s = n.
Hypothesis Hvalid : valid_pin n bit info.
Hypothesis Hout : is_output info = true.

Lemma pin_write_other (i : nat) :
  i ≠ Z.to_nat bit →
  (∀ c e, gating info = Ok (Some (c, e)) → i ≠ Z.to_nat c) →
  pin_write value s (bit, info) !! i = s !! i.
Proof.
  intros Hb Hc. unfold pin_write. simpl.
  destruct (gating info) as [[[c e]|]|].
  - rewrite list_lookup_insert_ne by (intros Heq; by apply (Hc c e)).
    by rewrite list_lookup_insert_ne.
  - by rewrite list_lookup_insert_ne.
  - by rewrite list_lookup_insert_ne.
Qed.

Lemma pin_write_control (c e : Z) :
  gating info = Ok (Some (c, e)) →
  pin_write value s (bit, info) !! Z.to_nat c = Some (bit_char e).
Proof.
  intros Hg. destruct (Hvalid Hout) as (_ & g & Hg' & Hc).
  rewrite Hg in Hg'. injection Hg' as <-.
  destruct (Hc c e eq_refl) as [Hcr _].
  unfold pin_write. simpl. rewrite Hg.
  apply list_lookup_insert_eq. rewrite length_insert. lia.
Qed.

Lemma pin_write_data :
  (∀ c e, gating info = Ok (Some (c, e)) → c ≠ bit) →
  pin_write value s (bit, info) !! Z.to_nat bit = Some (bit_char value).
Proof.
  intros Hself. destruct (Hvalid Hout) as (Hbit & g & Hg & Hc).
  unfold pin_write. simpl. rewrite Hg.
  destruct g as [[c e]|].
  - destruct (Hc c e eq_refl) as [Hcr _].
    rewrite list_lookup_insert_ne
      by (intros Heq; apply (Hself c e Hg); lia).
    apply list_lookup_insert_eq. lia.
  - apply list_lookup_insert_eq. lia.
Qed.

End PinWrite.

Lemma pin_vector_isolated (walkin_string : list ascii) (value : Z) bit info :
  valid_pin (length walkin_string) bit info → is_output info = true →
  isolated walkin_string value (bit, info)
    (reverse (pin_write value (reverse walkin_string) (bit, info))).
Proof.
  intros Hv Hout. unfold isolated. rewrite reverse_involutive. simpl.
  assert (length (reverse walkin_string) = length walkin_string) as Hlen
    by apply length_reverse.
  split; [by rewrite length_reverse, length_pin_write|].
  split; [|split].
  - intros i Hi Hc. by apply pin_write_other.
  - intros c e Hg. by eapply pin_write_control.
  - intros Hself. by eapply pin_write_data.
Qed.

(** C2, as the code has it: on a Pin Map that fits the baseline, the
    generator returns one vector for each output or bidirectional pin, in
    ascending order of bit index; each vector is derived from the baseline
    alone and equals it except at the data bit of its pin and at the control
    cell of that pin when it is gated; the control cell holds the enable
    value, and the data bit holds the walk level unless the pin is its own
    control cell. *)
Theorem walk_isolation (dict : gmap Z bit_info) (walkin_string : list ascii)
    (value : Z) :
  valid_pin_map (length walkin_string) dict → is_bit value →
  ∃ vs,
    get_list_of_walkins_output_string dict walkin_string value = Ok vs
    ∧ length vs
      = length (filter (λ item, is_output item.2 = true) (map_to_list dict))
    ∧ StronglySorted (λ p q, (p.1 < q.1)%Z) (output_items dict)
    ∧ (∀ bit info, (bit, info) ∈ output_items dict ↔
         dict !! bit = Some info ∧ is_output info = true)
    ∧ Forall2 (isolated walkin_string value) (output_items dict) vs.
Proof.
  intros Hv Hb. unfold get_list_of_walkins_output_string.
  rewrite walkins_loop_spec;
    [|intros bit info Hin; apply (Hv bit info); by apply elem_of_sorted_items
     |done].
  eexists. split; [done|]. simpl. fold (output_items dict).
  split; [by rewrite length_fmap, length_output_items|].
  split; [apply output_items_sorted|].
  split; [apply elem_of_output_items|].
  apply Forall2_fmap_r, Forall_Forall2_diag, Forall_forall.
  intros [bit info] Hin. apply elem_of_output_items in Hin as [Hd Hout].
  apply pin_vector_isolated; [by apply (Hv bit info) | done].
Qed.

Lemma walk_isolation_witness :
  ∃ vs,
    get_list_of_walkins_output_string
      {[0%Z := BitInfo "O" "1" "PA" (Some "2") (Some "1") (Some "Z");
        1%Z := BitInfo "B" "1" "PB" None None None]}
      ["1"; "1"; "1"]%char 0 = Ok vs
    ∧ Forall2 (isolated ["1"; "1"; "1"]%char 0)
        (output_items
           {[0%Z := BitInfo "O" "1" "PA" (Some "2") (Some "1") (Some "Z");
             1%Z := BitInfo "B" "1" "PB" None None None]}) vs.
Proof.
  destruct (walk_isolation
              {[0%Z := BitInfo "O" "1" "PA" (Some "2") (Some "1") (Some "Z");
                1%Z := BitInfo "B" "1" "PB" None None None]}
              ["1"; "1"; "1"]%char 0) as (vs & Hrun & _ & _ & _ & Hiso).
  - intros bit info Hin _.
    apply lookup_insert_Some in Hin as [[<- <-] | [_ Hin]];
      [|apply lookup_singleton_Some in Hin as [<- <-]].
    + split; [simpl; lia|]. exists (Some (2, 0)%Z). split; [reflexivity|].
      intros c e [= <- <-]. split; [simpl; lia | by left].
    + split; [simpl; lia|]. exists None. split; [reflexivity|]. done.
  - by left.
  - exists vs. split; [exact Hrun | exact Hiso].
Defined.

(** C2 as stated fails on a pin that is its own control cell (an open-drain
    output): with disable value 1 the enable value 0 is written over the data
    bit, so for the walk level 1 the vector of the pin equals the baseline and
    its data bit is not at the walk level. *)
Lemma walk_level_lost_on_self_controlled_pin :
  valid_pin_map 1 {[0%Z := BitInfo "O" "1" "P0" (Some "0") (Some "1") (Some "Z")]}
  ∧ get_walkin_zeros_or_once_setup_string ["1"]%char
      {[0%Z := BitInfo "O" "1" "P0" (Some "0") (Some "1") (Some "Z")]} 1
    = Ok ["0"]%char
  ∧ get_list_of_walkins_output_string
      {[0%Z := BitInfo "O" "1" "P0" (Some "0") (Some "1") (Some "Z")]}
      ["0"]%char 1
    = Ok [["0"]%char]
  ∧ reverse ["0"]%char !! 0 ≠ Some (bit_char 1).
Proof.
  split; [|repeat split; discriminate].
  intros bit info Hin _. apply lookup_singleton_Some in Hin as [<- <-].
  split; [lia|]. exists (Some (0, 0)%Z). split; [reflexivity|].
  intros c e [= <- <-]. split; [lia | by left].
Qed.

(** *** Control cells *)

Section ControlCell.

Variables (n : nat) (dict : gmap Z bit_info).
Variables (bit : Z) (info : bit_info) (c : Z).
Hypothesis Hvalid : valid_pin_map n dict.
Hypothesis Hpin : dict !! bit = Some info.
Hypothesis Hout : is_output info = true.
Hypothesis Hgate : gating info = Ok (Some (c, 0%Z)).
Hypothesis Hfree : no_conflict dict bit c.

Lemma control_cell_range : (0 ≤ c < Z.of_nat n)%Z.
Proof.
  destruct (Hvalid bit info Hpin Hout) as (_ & g & Hg & Hc).
  rewrite Hgate in Hg. injection Hg as <-. by destruct (Hc c 0%Z eq_refl).
Qed.

(** The writes of any output pin of the map either put 0 into the control
    cell or leave it as it is. *)
Lemma control_cell_step (value : Z) (s : list ascii) bit' info' :
  length s = n → (bit', info') ∈ output_items dict →
  pin_write value s (bit', info') !! Z.to_nat c = Some "0"%char
  ∨ pin_write value s (bit', info') !! Z.to_nat c = s !! Z.to_nat c.
Proof.
  intros Hlen Hin. apply elem_of_output_items in Hin as [Hd' Hout'].
  pose proof control_cell_range as Hc.
  destruct (Hfree bit' info' Hd' Hout') as [Hdata Hctl].
  destruct (Hvalid bit' info' Hd' Hout') as (Hbit' & g & Hg & Hgc).
  destruct (decide (g = Some (c, 0%Z))) as [-> | Hdiff].
  - left. exact (pin_write_control n value s bit' info' Hlen
                   (Hvalid bit' info' Hd') Hout' c 0%Z Hg).
  - right. assert (bit' ≠ c) as Hne.
    { intros Heq. apply Hdiff. specialize (Hdata Heq). subst bit'.
      rewrite Hpin in Hd'. injection Hd' as <-. congruence. }
    apply pin_write_other; [lia|].
    intros c' e' Hg'. rewrite Hg' in Hg. injection Hg as <-.
    destruct (Hgc c' e' eq_refl) as [Hc' _].
    intros Heq. assert (c' = c) as -> by lia.
    apply Hdiff. by rewrite (Hctl e' Hg').
Qed.

Lemma control_cell_fold (value : Z) (items : list (Z * bit_info)) :
  ∀ s : list ascii,
  length s = n → items ⊆ output_items dict →
  s !! Z.to_nat c = Some "0"%char ∨ (bit, info) ∈ items →
  foldl (pin_write value) s items !! Z.to_nat c = Some "0"%char.
Proof.
  induction items as [|[bit' info'] items IH]; intros s Hlen Hsub Hor.
  - destruct Hor as [? | Hin]; [done | by apply elem_of_nil in Hin].
  - cbn [foldl].
    assert ((bit', info') ∈ output_items dict) as Hin'
      by (apply Hsub, elem_of_cons; by left).
    apply IH; [by rewrite length_pin_write | |].
    { intros x Hx. apply Hsub, elem_of_cons. by right. }
    destruct Hor as [H0 | Hin].
    + left. destruct (control_cell_step value s bit' info' Hlen Hin')
        as [? | Heq]; [done | by rewrite Heq].
    + apply elem_of_cons in Hin as [[= <- <-] | Hin]; [|by right].
      left. exact (pin_write_control n value s bit info Hlen
                     (Hvalid bit info Hpin) Hout c 0%Z Hgate).
Qed.

End ControlCell.

Lemma gating_disable_one (info : bit_info) (cb : string) (c : Z) :
  control_bit info = Some cb → int cb = Ok c → disable_value info = Some "1" →
  gating info = Ok (Some (c, 0%Z)).
Proof. intros Hcb Hint Hdv. unfold gating. by rewrite Hcb, Hint, Hdv. Qed.

(** C6, as the code has it: for a gated output or bidirectional pin with
    disable value 1, in a Pin Map that fits the register, the baseline of
    either walk level and every walking vector derived from it hold 0 in the
    control cell of the pin, provided no other output or bidirectional pin
    sits at the index of that cell and every pin gated by the cell is enabled
    by 0 as well. *)
Theorem gated_pin_enabled (dict : gmap Z bit_info) (dr_in_string : list ascii)
    (value : Z) (bit : Z) (info : bit_info) (cb : string) (c : Z) :
  valid_pin_map (length dr_in_string) dict → is_bit value →
  dict !! bit = Some info → is_output info = true →
  control_bit info = Some cb → int cb = Ok c →
  disable_value info = Some "1" →
  no_conflict dict bit c →
  ∃ baseline vs,
    get_walkin_zeros_or_once_setup_string dr_in_string dict value = Ok baseline
    ∧ get_list_of_walkins_output_string dict baseline value = Ok vs
    ∧ length vs = length (output_items dict)
    ∧ reverse baseline !! Z.to_nat c = Some "0"%char
    ∧ Forall (λ v, reverse v !! Z.to_nat c = Some "0"%char) vs.
Proof.
  intros Hvalid Hb Hpin Hout Hcb Hint Hdv Hfree.
  pose proof (gating_disable_one info cb c Hcb Hint Hdv) as Hgate.
  set (n := length dr_in_string) in *.
  set (L := foldl (pin_write (Z.lxor value 1)) dr_in_string (output_items dict)).
  assert (length L = n) as HlenL by apply length_foldl_pin_write.
  assert (L !! Z.to_nat c = Some "0"%char) as HL.
  { apply (control_cell_fold n dict bit info c Hvalid Hpin Hout Hgate Hfree);
      [done | done |].
    right. by apply elem_of_output_items. }
  exists (reverse L). eexists.
  split; [|split; [|split; [|split]]].
  - unfold get_walkin_zeros_or_once_setup_string.
    rewrite setup_loop_spec; [done | | done].
    intros b i Hin. apply (Hvalid b i). by apply elem_of_sorted_items.
  - unfold get_list_of_walkins_output_string.
    rewrite walkins_loop_spec; [done | | done].
    intros b i Hin. rewrite length_reverse, HlenL.
    apply (Hvalid b i). by apply elem_of_sorted_items.
  - simpl. by rewrite length_fmap.
  - by rewrite reverse_involutive.
  - simpl. apply Forall_fmap, Forall_forall. intros [b i] Hin. simpl.
    rewrite !reverse_involutive. fold (output_items dict) in Hin.
    destruct (control_cell_step n dict bit info c Hvalid Hpin Hout Hgate Hfree
                value L b i HlenL Hin) as [? | Heq]; [done|].
    by rewrite Heq.
Qed.

Lemma gated_pin_enabled_witness :
  ∃ baseline vs,
    get_walkin_zeros_or_once_setup_string ["0"; "0"; "1"]%char
      {[0%Z := BitInfo "O" "1" "PA" (Some "2") (Some "1") (Some "Z");
        1%Z := BitInfo "B" "1" "PB" None None None]} 0 = Ok baseline
    ∧ get_list_of_walkins_output_string
        {[0%Z := BitInfo "O" "1" "PA" (Some "2") (Some "1") (Some "Z");
          1%Z := BitInfo "B" "1" "PB" None None None]} baseline 0 = Ok vs
    ∧ reverse baseline !! 2 = Some "0"%char
    ∧ Forall (λ v, reverse v !! 2 = Some "0"%char) vs.
Proof.
  destruct (gated_pin_enabled
              {[0%Z := BitInfo "O" "1" "PA" (Some "2") (Some "1") (Some "Z");
                1%Z := BitInfo "B" "1" "PB" None None None]}
              ["0"; "0"; "1"]%char 0 0
              (BitInfo "O" "1" "PA" (Some "2") (Some "1") (Some "Z")) "2" 2)
    as (baseline & vs & Hbase & Hrun & _ & Hc & Hall);
    try reflexivity.
  - intros bit info Hin _.
    apply lookup_insert_Some in Hin as [[<- <-] | [_ Hin]];
      [|apply lookup_singleton_Some in Hin as [<- <-]].
    + split; [simpl; lia|]. exists (Some (2, 0)%Z). split; [reflexivity|].
      intros c e [= <- <-]. split; [simpl; lia | by left].
    + split; [simpl; lia|]. exists None. split; [reflexivity|]. done.
  - by left.
  - intros bit info Hin _.
    apply lookup_insert_Some in Hin as [[<- <-] | [_ Hin]];
      [|apply lookup_singleton_Some in Hin as [<- <-]].
    + split; [done|]. by intros e [= <-].
    + split; [done|]. intros e He. discriminate He.
  - exists baseline, vs. repeat split; assumption.
Defined.

(** C6 as stated fails when another pin writes the control cell after the
    pin itself.  Pin 0 has disable value 1 and control cell 2.  In the first
    map pin 1 shares the cell with disable value 0 and enables it with 1; in
    the second map the cell is itself the output pin 2, whose data bit is
    driven to the complement of the walk level.  Both baselines hold 1 in
    the control cell of pin 0. *)
Lemma shared_control_cell_overwritten :
  (valid_pin_map 3
     {[0%Z := BitInfo "O" "1" "PA" (Some "2") (Some "1") (Some "Z");
       1%Z := BitInfo "O" "1" "PB" (Some "2") (Some "0") (Some "Z")]}
   ∧ get_walkin_zeros_or_once_setup_string ["0"; "0"; "0"]%char
       {[0%Z := BitInfo "O" "1" "PA" (Some "2") (Some "1") (Some "Z");
         1%Z := BitInfo "O" "1" "PB" (Some "2") (Some "0") (Some "Z")]} 0
     = Ok ["1"; "1"; "1"]%char)
  ∧ (valid_pin_map 3
       {[0%Z := BitInfo "O" "1" "PA" (Some "2") (Some "1") (Some "Z");
         2%Z := BitInfo "O" "1" "PC" None None None]}
     ∧ get_walkin_zeros_or_once_setup_string ["0"; "0"; "0"]%char
         {[0%Z := BitInfo "O" "1" "PA" (Some "2") (Some "1") (Some "Z");
           2%Z := BitInfo "O" "1" "PC" None None None]} 0
       = Ok ["1"; "0"; "1"]%char)
  ∧ reverse ["1"; "1"; "1"]%char !! 2 ≠ Some "0"%char
  ∧ reverse ["1"; "0"; "1"]%char !! 2 ≠ Some "0"%char.
Proof.
  split; [split; [|reflexivity] | split; [split; [|reflexivity] | done]].
  - intros bit info Hin _.
    apply lookup_insert_Some in Hin as [[<- <-] | [_ Hin]];
      [|apply lookup_singleton_Some in Hin as [<- <-]].
    + split; [lia|]. exists (Some (2, 0)%Z). split; [reflexivity|].
      intros c e [= <- <-]. split; [lia | by left].
    + split; [lia|]. exists (Some (2, 1)%Z). split; [reflexivity|].
      intros c e [= <- <-]. split; [lia | by right].
  - intros bit info Hin _.
    apply lookup_insert_Some in Hin as [[<- <-] | [_ Hin]];
      [|apply lookup_singleton_Some in Hin as [<- <-]].
    + split; [lia|]. exists (Some (2, 0)%Z). split; [reflexivity|].
      intros c e [= <- <-]. split; [lia | by left].
    + split; [lia|]. exists None. split; [reflexivity|]. done.
Qed.

(** ** The session summary *)

(** The record of one walking step: the EXTEST comparison on an empty
    record, then the SAMPLE comparison on the result. *)
Lemma step_record_well_formed st st' (old new sold snew : list ascii)
    (dict sdict : gmap Z bit_info) :
  length old ≤ length new → length sold ≤ length snew →
  ∃ sd1 out1 sd2 out2,
    dr_out_changes_lookup st old new dict ∅ "extest" = Ok (sd1, out1)
    ∧ dr_out_changes_lookup st' sold snew sdict sd1 "sample" = Ok (sd2, out2)
    ∧ well_formed_record sd2.
Proof.
  intros Hlen Hslen.
  destruct (dr_out_changes_lookup_Ok st old new dict ∅ "extest" Hlen)
    as (sd1 & out1 & Hrun1 & He & Heio & _ & _).
  destruct (dr_out_changes_lookup_Ok st' sold snew sdict sd1 "sample" Hslen)
    as (sd2 & out2 & Hrun2 & Hs & Hsio & Hother & _).
  exists sd1, out1, sd2, out2. split; [done|]. split; [done|].
  assert (sd2 !! "extest" = sd1 !! "extest") as He2 by (by apply Hother).
  assert (sd2 !! "extestio" = sd1 !! "extestio") as Heio2 by (by apply Hother).
  change ("extest" +:+ "io") with "extestio" in Heio.
  change ("sample" +:+ "io") with "sampleio" in Hsio.
  rewrite He in He2. rewrite Heio in Heio2.
  unfold well_formed_record, field. rewrite He2, Heio2, Hs, Hsio. simpl.
  rewrite !length_fmap. eauto 10.
Qed.

Section SessionFacts.

Variable dr_out : nat → list ascii.
Variables (extest_dict sample_dict : gmap Z bit_info).

(** Each vector of the list appends exactly one record to [summary_list]. *)
Lemma set_urc_bits_loop_appends (bits_string_list : list (list ascii)) :
  ∀ dr_init_bits dr_init_bits_sample w w',
  set_urc_bits_loop dr_out bits_string_list extest_dict dr_init_bits
    sample_dict dr_init_bits_sample w = Ok w' →
  ∃ recs, summary_list w' = summary_list w ++ recs
          ∧ length recs = length bits_string_list.
Proof.
  induction bits_string_list as [|bits_string rest IH];
    intros init sinit w w' Hrun.
  - injection Hrun as <-. exists []. by rewrite app_nil_r.
  - cbn [set_urc_bits_loop] in Hrun.
    apply bind_Ok in Hrun as ([[init' sd1] out1] & _ & Hrun).
    apply bind_Ok in Hrun as ([[sinit' sd2] w2] & Hsample & Hrun).
    apply IH in Hrun as (recs & Hsum & Hlen). simpl in Hsum.
    unfold sample_run in Hsample.
    apply bind_Ok in Hsample as ([[? ?] ?] & _ & [= _ _ <-]).
    exists (sd2 :: recs). simpl. rewrite Hsum, Hlen. simpl.
    by rewrite <- (assoc_L (++)).
Qed.

Variables (m k : nat).
Hypothesis Hdevice : ∀ t, length (dr_out t) = k.

(** On vectors of one length and a register of constant width the loop
    runs to its end, and its records have the shape the classifier reads. *)
Lemma set_urc_bits_loop_runs (bits_string_list : list (list ascii)) :
  Forall (λ b : list ascii, length b = m) bits_string_list →
  ∀ (dr_init_bits dr_init_bits_sample : list ascii) w,
  length dr_init_bits = m → length dr_init_bits_sample = k →
  length (dr_in_reg w) = m →
  ∃ w' recs,
    set_urc_bits_loop dr_out bits_string_list extest_dict dr_init_bits
      sample_dict dr_init_bits_sample w = Ok w'
    ∧ summary_list w' = summary_list w ++ recs
    ∧ length recs = length bits_string_list
    ∧ Forall well_formed_record recs
    ∧ length (dr_in_reg w') = m.
Proof.
  induction 1 as [|bits_string rest Hb Hrest IH];
    intros init sinit w Hinit Hsinit Hreg.
  - exists w, []. by rewrite app_nil_r.
  - cbn [set_urc_bits_loop]. unfold dr_shift_comapre, sample_run. simpl.
    destruct (step_record_well_formed (walkin_state w) (walkin_state w)
                (reverse init) (reverse bits_string) (reverse sinit)
                (reverse (dr_out (S (S (shift_count w)))))
                extest_dict sample_dict)
      as (sd1 & out1 & sd2 & out2 & -> & Hrun2 & Hwf).
    { rewrite !length_reverse. lia. }
    { rewrite !length_reverse, Hdevice. lia. }
    csimpl. unfold get_dr_out_string, dr_shift_comapre. simpl.
    rewrite Hrun2. csimpl.
    match goal with |- context [set_urc_bits_loop _ _ _ ?i _ ?s ?w0] =>
      destruct (IH i s w0) as (w' & recs & -> & Hsum & Hlen & Hall & Hreg')
    end.
    { by rewrite reverse_involutive. }
    { by rewrite reverse_involutive. }
    { done. }
    exists w', (sd2 :: recs). split; [done|]. simpl in Hsum.
    rewrite Hsum, <- (assoc_L (++)). simpl. rewrite Hlen.
    repeat split; [by constructor | done].
Qed.

End SessionFacts.

Lemma setup_string_runs (dict : gmap Z bit_info) (dr_in_string : list ascii)
    (value : Z) :
  valid_pin_map (length dr_in_string) dict → is_bit value →
  ∃ baseline,
    get_walkin_zeros_or_once_setup_string dr_in_string dict value = Ok baseline
    ∧ length baseline = length dr_in_string.
Proof.
  intros Hv Hb. unfold get_walkin_zeros_or_once_setup_string.
  rewrite setup_loop_spec; [| |done].
  - eexists. split; [done|].
    by rewrite length_reverse, length_foldl_pin_write.
  - intros b i Hin. apply (Hv b i). by apply elem_of_sorted_items.
Qed.

Lemma walkins_list_runs (dict : gmap Z bit_info) (walkin_string : list ascii)
    (value : Z) :
  valid_pin_map (length walkin_string) dict → is_bit value →
  ∃ vs,
    get_list_of_walkins_output_string dict walkin_string value = Ok vs
    ∧ length vs = length (output_items dict)
    ∧ Forall (λ v : list ascii, length v = length walkin_string) vs.
Proof.
  intros Hv Hb. unfold get_list_of_walkins_output_string.
  rewrite walkins_loop_spec; [| |done].
  - eexists. split; [done|]. simpl. split; [by rewrite length_fmap|].
    apply Forall_fmap, Forall_forall. intros item _. simpl.
    by rewrite length_reverse, length_pin_write, length_reverse.
  - intros b i Hin. apply (Hv b i). by apply elem_of_sorted_items.
Qed.

(** C9, as the code has it: the accumulator is empty when the script
    starts; every vector that [set_urc_bits] walks appends exactly one record;
    a session that starts with an empty accumulator on a Pin Map that fits
    the register runs to its end and hands one record per walking step of the
    two passes to the classifier.  The classifier reads them and gives each
    recorded driver pin the verdict of its list, and it leaves the
    accumulator as it found it; the accumulator is emptied by the statement
    of [main] that follows the call, so it is empty after that statement. *)
Theorem session_summary_lifecycle (dr_out : nat → list ascii)
    (extest_dict sample_dict : gmap Z bit_info) (k : nat) (w : world) :
  valid_pin_map (length (dr_in_reg w)) extest_dict →
  (∀ t, length (dr_out t) = k) →
  summary_list w = [] →
  summary_list (initial_world (dr_in_reg w)) = []
  ∧ (∀ bits_string_list walkin_string dr_init_bits_sample w0 w0',
       set_urc_bits dr_out bits_string_list extest_dict walkin_string
         sample_dict dr_init_bits_sample w0 = Ok w0' →
       ∃ recs, summary_list w0' = summary_list w0 ++ recs
               ∧ length recs = length bits_string_list)
  ∧ ∃ w1 verdicts w2,
      walking_passes dr_out extest_dict sample_dict w = Ok w1
      ∧ length (summary_list w1) = 2 * length (output_items extest_dict)
      ∧ Forall well_formed_record (summary_list w1)
      ∧ view_summary (summary_list w1) = Ok verdicts
      ∧ view_summary_call w1 = Ok (verdicts, w1)
      ∧ (∀ driver,
           (recorded (summary_list w1) driver →
              verdicts !! driver
              = Some (classify (match_list (summary_list w1) driver)))
           ∧ (¬ recorded (summary_list w1) driver →
                verdicts !! driver = None))
      ∧ session dr_out extest_dict sample_dict w = Ok (verdicts, w2)
      ∧ w2 = set_summary_list [] w1
      ∧ summary_list w2 = []
      ∧ length (dr_in_reg w2) = length (dr_in_reg w).
Proof.
  intros Hvalid Hdevice Hempty. split; [done|]. split.
  { intros l ws sinit w0 w0'. apply set_urc_bits_loop_appends. }
  set (m := length (dr_in_reg w)) in *.
  destruct (setup_string_runs extest_dict (dr_in_reg w) 0 Hvalid)
    as (zeros & Hzeros & Hlz); [by left|].
  destruct (setup_string_runs extest_dict (dr_in_reg w) 1 Hvalid)
    as (ones & Hones & Hlo); [by right|].
  destruct (walkins_list_runs extest_dict zeros 0)
    as (zlist & Hzlist & Hnz & Hallz); [by rewrite Hlz | by left |].
  destruct (walkins_list_runs extest_dict ones 1)
    as (olist & Holist & Hno & Hallo); [by rewrite Hlo | by right |].
  rewrite Hlz in Hallz. rewrite Hlo in Hallo.
  unfold session, walking_passes, set_urc_bits, get_sample_shift_init_bits.
  rewrite Hzeros, Hones. csimpl. rewrite Hzlist. csimpl.
  match goal with |- context [set_urc_bits_loop _ zlist _ ?i _ ?s ?w0] =>
    destruct (set_urc_bits_loop_runs dr_out extest_dict sample_dict m k
                Hdevice zlist Hallz i s w0)
      as (wz & recz & -> & Hsumz & Hlenz & Hwfz & Hregz)
  end; [done | apply Hdevice | done |].
  csimpl. rewrite Holist. csimpl.
  match goal with |- context [set_urc_bits_loop _ olist _ ?i _ ?s ?w0] =>
    destruct (set_urc_bits_loop_runs dr_out extest_dict sample_dict m k
                Hdevice olist Hallo i s w0)
      as (wo & reco & -> & Hsumo & Hleno & Hwfo & Hrego)
  end; [done | apply Hdevice | done |].
  simpl in Hsumz, Hsumo. rewrite Hempty in Hsumz. simpl in Hsumz.
  rewrite Hsumz in Hsumo.
  assert (Forall well_formed_record (summary_list wo)) as Hwf
    by (rewrite Hsumo; by apply Forall_app).
  destruct (view_summary_runs (summary_list wo) Hwf) as (verdicts & Hview).
  exists wo, verdicts, (set_summary_list [] wo).
  split; [done|]. split; [rewrite Hsumo, length_app; lia|].
  split; [done|]. split; [done|].
  split; [unfold view_summary_call; by rewrite Hview|].
  split; [intros driver; by apply view_summary_lookup|].
  csimpl. unfold session_end, view_summary_call.
  rewrite Hview. done.
Qed.

Lemma session_summary_lifecycle_witness :
  ∃ w1 verdicts w2,
    walking_passes (λ _, ["0"; "0"]%char)
      {[0%Z := BitInfo "O" "1" "PA" (Some "2") (Some "1") (Some "Z");
        1%Z := BitInfo "B" "1" "PB" None None None]}
      {[0%Z := BitInfo "I" "1" "SA" None None None]}
      (initial_world ["0"; "0"; "1"]%char) = Ok w1
    ∧ length (summary_list w1) = 4
    ∧ view_summary_call w1 = Ok (verdicts, w1)
    ∧ session (λ _, ["0"; "0"]%char)
        {[0%Z := BitInfo "O" "1" "PA" (Some "2") (Some "1") (Some "Z");
          1%Z := BitInfo "B" "1" "PB" None None None]}
        {[0%Z := BitInfo "I" "1" "SA" None None None]}
        (initial_world ["0"; "0"; "1"]%char) = Ok (verdicts, w2)
    ∧ w2 = set_summary_list [] w1
    ∧ summary_list w2 = [].
Proof.
  destruct (session_summary_lifecycle (λ _, ["0"; "0"]%char)
              {[0%Z := BitInfo "O" "1" "PA" (Some "2") (Some "1") (Some "Z");
                1%Z := BitInfo "B" "1" "PB" None None None]}
              {[0%Z := BitInfo "I" "1" "SA" None None None]}
              2 (initial_world ["0"; "0"; "1"]%char))
    as (_ & _ & w1 & verdicts & w2 & Hpass & Hlen & _ & _ & Hcall & _
        & Hrun & Hw2 & Hend & _).
  - intros bit info Hin _.
    apply lookup_insert_Some in Hin as [[<- <-] | [_ Hin]];
      [|apply lookup_singleton_Some in Hin as [<- <-]].
    + split; [simpl; lia|]. exists (Some (2, 0)%Z). split; [reflexivity|].
      intros c e [= <- <-]. split; [simpl; lia | by left].
    + split; [simpl; lia|]. exists None. split; [reflexivity|]. done.
  - reflexivity.
  - reflexivity.
  - exists w1, verdicts, w2. split; [exact Hpass|]. split; [exact Hlen|].
    split; [exact Hcall|]. split; [exact Hrun|]. split; [exact Hw2|].
    exact Hend.
Defined.

(** C9 as stated fails: after the classifier has run, the accumulator still
    holds the four records of the session; classification does not empty
    it. *)
Lemma classifier_leaves_accumulator :
  ∃ w1 verdicts w1',
    walking_passes (λ _, ["0"; "0"]%char)
      {[0%Z := BitInfo "O" "1" "PA" (Some "2") (Some "1") (Some "Z");
        1%Z := BitInfo "B" "1" "PB" None None None]}
      {[0%Z := BitInfo "I" "1" "SA" None None None]}
      (initial_world ["0"; "0"; "1"]%char) = Ok w1
    ∧ view_summary_call w1 = Ok (verdicts, w1')
    ∧ length (summary_list w1') = 4
    ∧ summary_list w1' ≠ [].
Proof.
  destruct (walking_passes _ _ _ _) as [w1|e] eqn:Hrun;
    vm_compute in Hrun; [|discriminate Hrun].
  injection Hrun as Hw1. exists w1.
  destruct (view_summary_call w1) as [[verdicts w1']|e] eqn:Hcall;
    rewrite <- Hw1 in Hcall; vm_compute in Hcall; [|discriminate Hcall].
  injection Hcall as _ Hw1'. exists verdicts, w1'.
  split; [done|]. split; [done|]. rewrite <- Hw1'.
  split; [reflexivity | discriminate].
Qed.

Lemma classifier_verdicts_witness :
  ∃ chain verdicts,
    summary_chain
      [ {["extest" := ["P1"]; "extestio" := ["1 -> 0"];
          "sample" := ["S1"; "S2"]; "sampleio" := ["1 -> 0"; "0 -> 1"]]};
        {["extest" := ["P1"]; "extestio" := ["0 -> 1"];
          "sample" := ["S1"]; "sampleio" := ["0 -> 1"]]} ] = Ok chain
    ∧ view_summary
        [ {["extest" := ["P1"]; "extestio" := ["1 -> 0"];
            "sample" := ["S1"; "S2"]; "sampleio" := ["1 -> 0"; "0 -> 1"]]};
          {["extest" := ["P1"]; "extestio" := ["0 -> 1"];
            "sample" := ["S1"]; "sampleio" := ["0 -> 1"]]} ] = Ok verdicts
    ∧ chain !! "P1" = Some ["S1"; "S1"]
    ∧ verdicts !! "P1" = Some (Connected "S1").
Proof.
  destruct (classifier_verdicts
              [ {["extest" := ["P1"]; "extestio" := ["1 -> 0"];
                  "sample" := ["S1"; "S2"]; "sampleio" := ["1 -> 0"; "0 -> 1"]]};
                {["extest" := ["P1"]; "extestio" := ["0 -> 1"];
                  "sample" := ["S1"]; "sampleio" := ["0 -> 1"]]} ])
    as (chain & verdicts & Hchain & Hview & _).
  - repeat apply Forall_cons_2; [| | apply Forall_nil_2];
      (split; [repeat split; by eexists | split; reflexivity]).
  - exists chain, verdicts. split; [exact Hchain|]. split; [exact Hview|].
    injection Hview as <-. injection Hchain as <-. split; reflexivity.
Defined.

Lemma verdict_keys_witness :
  ∃ verdicts,
    view_summary
      [ {["extest" := ["P1"]; "extestio" := ["1 -> 0"];
          "sample" := ["S1"]; "sampleio" := ["1 -> 0"]]};
        {["extest" := []; "extestio" := [];
          "sample" := ["S2"]; "sampleio" := ["0 -> 1"]]} ] = Ok verdicts
    ∧ (∀ driver, is_Some (verdicts !! driver) ↔
         recorded
           [ {["extest" := ["P1"]; "extestio" := ["1 -> 0"];
               "sample" := ["S1"]; "sampleio" := ["1 -> 0"]]};
             {["extest" := []; "extestio" := [];
               "sample" := ["S2"]; "sampleio" := ["0 -> 1"]]} ] driver).
Proof.
  destruct (verdict_keys
              [ {["extest" := ["P1"]; "extestio" := ["1 -> 0"];
                  "sample" := ["S1"]; "sampleio" := ["1 -> 0"]]};
                {["extest" := []; "extestio" := [];
                  "sample" := ["S2"]; "sampleio" := ["0 -> 1"]]} ])
    as (verdicts & Hview & Hiff & _).
  - repeat apply Forall_cons_2; [| | apply Forall_nil_2];
      (split; [repeat split; by eexists | split; reflexivity]).
  - exists verdicts. split; [exact Hview | exact Hiff].
Defined.

(** * Further properties of the code *)

(** ** [set_bits] at and beyond the ends of the vector *)

(** X1: writing the same bit twice at the same index is the same as writing
    it once as long as the index is at most the length of the vector; further
    out each call appends, so the second call adds a second copy of the
    bit. *)
Theorem set_bits_twice (v : list ascii) (i : nat) (b : Z) :
  is_bit b →
  (i ≤ length v →
     set_bits (set_bits v (Z.of_nat i) b) (Z.of_nat i) b
     = set_bits v (Z.of_nat i) b)
  ∧ (length v < i →
     set_bits (set_bits v (Z.of_nat i) b) (Z.of_nat i) b
     = v ++ [bit_char b; bit_char b]).
Proof.
  intros Hb. split; intros Hi.
  - destruct (decide (i < length v)) as [Hlt | Hge].
    + rewrite (set_bits_in_range v i b Hb Hlt).
      rewrite set_bits_in_range; [|done|by rewrite length_insert].
      apply list_insert_insert_eq.
    + assert (i = length v) as -> by lia.
      rewrite (set_bits_past_end v) by done.
      rewrite set_bits_nat by done.
      rewrite take_app_length, drop_ge; [done|].
      rewrite length_app. simpl. lia.
  - rewrite (set_bits_past_end v) by (done || lia).
    rewrite set_bits_past_end; [|done|rewrite length_app; simpl; lia].
    by rewrite <- (assoc_L (++)).
Qed.

Lemma set_bits_twice_witness :
  set_bits (set_bits ["1"; "1"]%char 2 0) 2 0 = set_bits ["1"; "1"]%char 2 0
  ∧ set_bits (set_bits ["1"; "1"]%char 3 0) 3 0 = ["1"; "1"; "0"; "0"]%char.
Proof.
  split.
  - apply (proj1 (set_bits_twice ["1"; "1"]%char 2 0 (or_introl eq_refl))).
    simpl. lia.
  - apply (proj2 (set_bits_twice ["1"; "1"]%char 3 0 (or_introl eq_refl))).
    simpl. lia.
Defined.

(** X2: reading back.  The written bit is found at its index when the index
    is at most the length; past that the bit sits at the end of the vector
    and the position of the index does not exist.  Every other position of
    the input keeps its value, and the length grows by one exactly when the
    index is out of range. *)
Theorem set_bits_read_back (v : list ascii) (i : nat) (b : Z) :
  is_bit b →
  (i ≤ length v → set_bits v (Z.of_nat i) b !! i = Some (bit_char b))
  ∧ (length v < i →
     set_bits v (Z.of_nat i) b !! i = None
     ∧ last (set_bits v (Z.of_nat i) b) = Some (bit_char b))
  ∧ (∀ j, j ≠ i → j < length v → set_bits v (Z.of_nat i) b !! j = v !! j)
  ∧ length (set_bits v (Z.of_nat i) b)
    = if bool_decide (i < length v) then length v else S (length v).
Proof.
  intros Hb. split; [|split; [|split]].
  - intros Hi. destruct (decide (i < length v)) as [Hlt | Hge].
    + rewrite set_bits_in_range by done. by apply list_lookup_insert_eq.
    + assert (i = length v) as -> by lia.
      rewrite set_bits_past_end by done.
      by rewrite lookup_app_r, Nat.sub_diag by done.
  - intros Hi. rewrite set_bits_past_end by (done || lia). split.
    + apply lookup_ge_None_2. rewrite length_app. simpl. lia.
    + apply last_snoc.
  - intros j Hne Hj. destruct (decide (i < length v)) as [Hlt | Hge].
    + rewrite set_bits_in_range by done. by apply list_lookup_insert_ne.
    + rewrite set_bits_past_end by (done || lia). by apply lookup_app_l.
  - case_bool_decide as Hlt.
    + rewrite set_bits_in_range by done. apply length_insert.
    + rewrite set_bits_past_end by (done || lia).
      rewrite length_app. simpl. lia.
Qed.

Lemma set_bits_read_back_witness :
  set_bits ["1"; "1"]%char 1 0 !! 1 = Some "0"%char
  ∧ set_bits ["1"; "1"]%char 5 0 !! 5 = None.
Proof.
  split.
  - apply (proj1 (set_bits_read_back ["1"; "1"]%char 1 0 (or_introl eq_refl))).
    simpl. lia.
  - apply (proj1 (proj1 (proj2 (set_bits_read_back ["1"; "1"]%char 5 0
                                  (or_introl eq_refl))) ltac:(simpl; lia))).
Defined.

(** X3: negative indices.  Index [-k] with [2 <= k <= len] counts from the
    end, as Python indexing does.  Index [-1] does not: the slice after it
    starts at index 0, so the result is the vector without its last
    character, the bit, and then the whole vector again.  An index below
    [-len] puts the bit in front of the vector. *)
Theorem set_bits_negative_index (v : list ascii) (k : nat) (b : Z) :
  is_bit b →
  set_bits v (-1) b = take (length v - 1) v ++ bit_char b :: v
  ∧ (2 ≤ k ≤ length v →
     set_bits v (- Z.of_nat k) b = <[length v - k := bit_char b]> v)
  ∧ (length v < k → 2 ≤ k → set_bits v (- Z.of_nat k) b = bit_char b :: v).
Proof.
  intros Hb. unfold set_bits, slice_to, slice_from, slice_bound.
  rewrite (str_bit b Hb). split; [|split].
  - simpl. replace (Z.to_nat (Z.of_nat (length v) + -1)) with (length v - 1)
      by lia. done.
  - intros Hk.
    destruct (Z.ltb_spec (- Z.of_nat k) 0); [|lia].
    destruct (Z.ltb_spec (- Z.of_nat k + 1) 0); [|lia].
    replace (Z.to_nat (Z.of_nat (length v) + - Z.of_nat k))
      with (length v - k) by lia.
    replace (Z.to_nat (Z.of_nat (length v) + (- Z.of_nat k + 1)))
      with (S (length v - k)) by lia.
    symmetry. apply insert_take_drop. lia.
  - intros Hlen Hk.
    destruct (Z.ltb_spec (- Z.of_nat k) 0); [|lia].
    destruct (Z.ltb_spec (- Z.of_nat k + 1) 0); [|lia].
    replace (Z.to_nat (Z.of_nat (length v) + - Z.of_nat k)) with 0 by lia.
    replace (Z.to_nat (Z.of_nat (length v) + (- Z.of_nat k + 1)))
      with 0 by lia.
    done.
Qed.

Lemma set_bits_negative_index_witness :
  set_bits ["1"; "1"; "1"]%char (-1) 0 = ["1"; "1"; "0"; "1"; "1"; "1"]%char
  ∧ set_bits ["1"; "1"; "1"]%char (-2) 0 = ["1"; "0"; "1"]%char.
Proof.
  split.
  - apply (proj1 (set_bits_negative_index ["1"; "1"; "1"]%char 2 0
                    (or_introl eq_refl))).
  - apply (proj1 (proj2 (set_bits_negative_index ["1"; "1"; "1"]%char 2 0
                           (or_introl eq_refl)))). simpl. lia.
Defined.

(** ** Device-ID slices *)

Lemma length_zfill (w : nat) (digits : list ascii) :
  length (zfill w digits) = w `max` length digits.
Proof. unfold zfill. rewrite length_app, length_replicate. lia. Qed.

Lemma length_format_032b (n : Z) : (0 ≤ n)%Z → 32 ≤ length (format_032b n).
Proof.
  intros Hn. destruct n as [|p|p]; [| |lia]; simpl format_032b;
    rewrite length_zfill; lia.
Qed.

Lemma bit_char_b2z_inj (x y : bool) :
  bit_char (Z.b2z x) = bit_char (Z.b2z y) → x = y.
Proof. by destruct x, y. Qed.

Lemma bit_field_eq_inv (a b : Z) (hi lo : nat) :
  bit_field a hi lo = bit_field b hi lo →
  ∀ k, lo ≤ k ≤ hi → Z.testbit a (Z.of_nat k) = Z.testbit b (Z.of_nat k).
Proof.
  unfold bit_field. intros Heq k Hk.
  assert (k ∈ reverse (seq lo (S hi - lo))) as Hin
    by (apply elem_of_reverse, elem_of_seq; lia).
  revert Heq Hin. generalize (reverse (seq lo (S hi - lo))).
  induction l as [|x l IH]; intros Heq Hin; [by apply elem_of_nil in Hin|].
  csimpl in Heq. injection Heq as Hx Hl.
  apply elem_of_cons in Hin as [-> | Hin]; [by apply bit_char_b2z_inj | auto].
Qed.

Lemma bit_field_ext (a b : Z) (hi lo : nat) :
  (∀ k, lo ≤ k ≤ hi → Z.testbit a (Z.of_nat k) = Z.testbit b (Z.of_nat k)) →
  bit_field a hi lo = bit_field b hi lo.
Proof.
  intros H. unfold bit_field. apply list_fmap_ext. intros i k Hk.
  apply list_elem_of_lookup_2, elem_of_reverse, elem_of_seq in Hk.
  rewrite H by lia. done.
Qed.

Lemma testbit_above_32 (a : Z) (k : Z) :
  (0 ≤ a < 2 ^ 32)%Z → (32 ≤ k)%Z → Z.testbit a k = false.
Proof.
  intros Ha Hk. rewrite <- (Z.mod_small a (2 ^ 32)) by done.
  apply Z.mod_pow2_bits_high. lia.
Qed.

(** X4: the three slices have 4, 16 and 11 characters for every
    non-negative ID, and for an ID that fits 32 bits they are consecutive
    pieces of the 32-character string: together with the last character,
    bit 0 of the ID, which no field uses, they make up the whole string. *)
Theorem device_id_slices (device_id : Z) :
  ((0 ≤ device_id)%Z →
     length (stepping_id device_id) = 4
     ∧ length (parts_id device_id) = 16
     ∧ length (manufacture_id device_id) = 11)
  ∧ ((0 ≤ device_id < 2 ^ 32)%Z →
     length (decimal_to_32bit_binary device_id) = 32
     ∧ stepping_id device_id ++ parts_id device_id
         ++ manufacture_id device_id
         ++ [bit_char (Z.b2z (Z.testbit device_id 0))]
       = decimal_to_32bit_binary device_id).
Proof.
  split.
  - intros H. pose proof (length_format_032b device_id H) as Hlen.
    unfold stepping_id, parts_id, manufacture_id, decimal_to_32bit_binary,
      slice_to, slice, slice_bound. simpl Z.to_nat.
    rewrite !length_drop, !length_take. lia.
  - intros H. unfold stepping_id, parts_id, manufacture_id,
      decimal_to_32bit_binary.
    rewrite (format_032b_low_bits _ H). done.
Qed.

Lemma device_id_slices_witness :
  length (stepping_id 0x12345678) = 4
  ∧ length (parts_id 0x12345678) = 16
  ∧ length (manufacture_id 0x12345678) = 11.
Proof. apply (proj1 (device_id_slices 0x12345678)). lia. Defined.

(** X5: two IDs that fit 32 bits yield the same stepping, part and
    manufacturer fields exactly when they agree on bits 31 to 1: the three
    lookup keys identify the register contents up to the fixed bit 0. *)
Theorem device_id_fields_determine_id (a b : Z) :
  (0 ≤ a < 2 ^ 32)%Z → (0 ≤ b < 2 ^ 32)%Z →
  (stepping_id a = stepping_id b
   ∧ parts_id a = parts_id b
   ∧ manufacture_id a = manufacture_id b)
  ↔ Z.shiftr a 1 = Z.shiftr b 1.
Proof.
  intros Ha Hb.
  unfold stepping_id, parts_id, manufacture_id, decimal_to_32bit_binary.
  rewrite (format_032b_low_bits _ Ha), (format_032b_low_bits _ Hb).
  change (slice_to (low_bits 32 a) 4) with (bit_field a 31 28).
  change (slice_to (low_bits 32 b) 4) with (bit_field b 31 28).
  change (slice (low_bits 32 a) 4 20) with (bit_field a 27 12).
  change (slice (low_bits 32 b) 4 20) with (bit_field b 27 12).
  change (slice (low_bits 32 a) 20 31) with (bit_field a 11 1).
  change (slice (low_bits 32 b) 20 31) with (bit_field b 11 1).
  split.
  - intros (Hs & Hp & Hm). apply Z.bits_inj'. intros n Hn.
    rewrite !Z.shiftr_spec by done.
    destruct (Z.le_gt_cases 31 n) as [Hhigh | Hlow].
    { by rewrite !testbit_above_32 by (done || lia). }
    replace (n + 1)%Z with (Z.of_nat (Z.to_nat (n + 1))) by lia.
    destruct (decide (Z.to_nat (n + 1) ≤ 11)).
    { apply (bit_field_eq_inv a b 11 1 Hm). lia. }
    destruct (decide (Z.to_nat (n + 1) ≤ 27)).
    { apply (bit_field_eq_inv a b 27 12 Hp). lia. }
    apply (bit_field_eq_inv a b 31 28 Hs). lia.
  - intros Heq.
    assert (∀ k, 1 ≤ k →
              Z.testbit a (Z.of_nat k) = Z.testbit b (Z.of_nat k)) as Hbits.
    { intros k Hk. replace (Z.of_nat k) with (Z.of_nat (k - 1) + 1)%Z by lia.
      rewrite <- !Z.shiftr_spec by lia. by rewrite Heq. }
    repeat split; apply bit_field_ext; intros k Hk; apply Hbits; lia.
Qed.

Lemma device_id_fields_determine_id_witness :
  (stepping_id 0x12345678 = stepping_id 0x12345679
   ∧ parts_id 0x12345678 = parts_id 0x12345679
   ∧ manufacture_id 0x12345678 = manufacture_id 0x12345679)
  ↔ Z.shiftr 0x12345678 1 = Z.shiftr 0x12345679 1.
Proof. apply device_id_fields_determine_id; lia. Defined.

(** ** The pin table as a whole *)

(** X6: the table is all or nothing.  The function returns a dictionary
    exactly when every [bit] line has a bit index that [int] reads, a
    direction code and a pin name; a single line that lacks one of them makes
    the whole call return [None], whatever the other lines hold. *)
Theorem pin_table_all_or_nothing (lines : list (list string)) :
  is_Some (get_dictionary_from_bsdl lines) ↔ Forall well_formed_line lines.
Proof.
  unfold get_dictionary_from_bsdl. split.
  - destruct (bsdl_lines ∅ lines) as [d|e] eqn:Hrun.
    + intros _. by eapply bsdl_lines_Ok_well_formed.
    + by intros [? ?].
  - intros Hwf. destruct (bsdl_lines_policy lines ∅ Hwf) as (d & -> & _).
    eauto.
Qed.

(** X7: every entry of the returned dictionary comes from a line of its bit
    index that the policy includes, and carries the fields of that line: code,
    safe value and pin name, and the control cell, disable value and disable
    status when the line has them.  In particular no input, output or
    bidirectional entry is named [*]. *)
Theorem pin_table_entries (lines : list (list string)) (d : gmap Z bit_info)
    (bit : Z) (info : bit_info) :
  get_dictionary_from_bsdl lines = Some d → d !! bit = Some info →
  included (io_type info) (pin_name info)
  ∧ (is_output info = true → pin_name info ≠ "*")
  ∧ ∃ components,
      components ∈ lines
      ∧ raw_record components bit (io_type info) (pin_name info)
      ∧ components !! 3 = Some (safe_value info)
      ∧ control_bit info = components !! 5
      ∧ disable_value info = components !! 6
      ∧ disable_status info = components !! 7.
Proof.
  unfold get_dictionary_from_bsdl. intros Hrun Hlook.
  destruct (bsdl_lines ∅ lines) as [d'|e] eqn:Hlines; [|done].
  injection Hrun as ->.
  destruct (bsdl_lines_entries lines ∅ d Hlines bit info Hlook)
    as [Hempty | [Hinc Hrec]]; [by rewrite lookup_empty in Hempty|].
  split; [done|]. split; [|done].
  unfold is_output. rewrite orb_true_iff, !bool_decide_eq_true.
  intros Hout. destruct Hinc as [[_ ?] | [Hc _]]; [done|].
  rewrite Hc in Hout. by destruct Hout.
Qed.

Lemma pin_table_entries_witness :
  included "O" "PA"
  ∧ (is_output (BitInfo "O" "1" "PA" (Some "2") (Some "1") (Some "Z")) = true →
     "PA" ≠ "*")
  ∧ ∃ components,
      components ∈ [["bit"; "3"; "O"; "1"; "PA"; "2"; "1"; "Z"];
                    ["bit"; "2"; "C"; "1"; "*"]]
      ∧ raw_record components 3 "O" "PA"
      ∧ components !! 3 = Some "1"
      ∧ Some "2" = components !! 5
      ∧ Some "1" = components !! 6
      ∧ Some "Z" = components !! 7.
Proof.
  apply (pin_table_entries
           [["bit"; "3"; "O"; "1"; "PA"; "2"; "1"; "Z"];
            ["bit"; "2"; "C"; "1"; "*"]]
           {[3%Z := BitInfo "O" "1" "PA" (Some "2") (Some "1") (Some "Z");
             2%Z := BitInfo "C" "1" "*" None None None]}
           3 (BitInfo "O" "1" "PA" (Some "2") (Some "1") (Some "Z")));
    reflexivity.
Defined.

(** X8: a later line of the same bit index replaces the earlier entry.
    Appending one more record to a table that reads well stores that record
    under its bit index, over whatever was there, when the policy includes
    it, and changes nothing when it does not. *)
Theorem pin_table_last_record_wins (lines : list (list string))
    (d : gmap Z bit_info) (components : list string) (bit : Z)
    (code name : string) :
  get_dictionary_from_bsdl lines = Some d →
  raw_record components bit code name →
  (included code name →
     ∃ c3, components !! 3 = Some c3
           ∧ get_dictionary_from_bsdl (lines ++ [components])
             = Some (<[bit := make_info code c3 name components]> d))
  ∧ (¬ included code name →
     get_dictionary_from_bsdl (lines ++ [components]) = Some d).
Proof.
  unfold get_dictionary_from_bsdl. intros Hrun Hraw.
  destruct (bsdl_lines ∅ lines) as [d'|e] eqn:Hlines; [|done].
  injection Hrun as ->. rewrite bsdl_lines_app, Hlines. csimpl.
  destruct (bsdl_line_policy d components bit code name Hraw) as [Hyes Hno].
  split.
  - intros Hinc. destruct (Hyes Hinc) as (info & Hline & _).
    pose proof Hline as Hinv.
    apply bsdl_line_inv in Hinv
      as (bit' & code' & name' & Hraw' & [(_ & c3 & H3 & Heq) | (Hnot & _)]).
    + destruct Hraw as ([c1 [Hc1 Hb]] & Hc & Hn).
      destruct Hraw' as ([c1' [Hc1' Hb']] & Hc' & Hn').
      assert (bit' = bit) as -> by congruence.
      assert (code' = code) as -> by congruence.
      assert (name' = name) as -> by congruence.
      exists c3. split; [done|]. rewrite Hline. csimpl. by rewrite Heq.
    + destruct Hraw as (_ & Hc & Hn). destruct Hraw' as (_ & Hc' & Hn').
      exfalso. apply Hnot. congruence.
  - intros Hinc. by rewrite (Hno Hinc).
Qed.

Lemma pin_table_last_record_wins_witness :
  ∃ c3, ["bit"; "3"; "B"; "0"; "PB"] !! 3 = Some c3
        ∧ get_dictionary_from_bsdl
            ([["bit"; "3"; "O"; "1"; "PA"; "2"; "1"; "Z"]]
               ++ [["bit"; "3"; "B"; "0"; "PB"]])
          = Some (<[3%Z := make_info "B" c3 "PB" ["bit"; "3"; "B"; "0"; "PB"]]>
                    {[3%Z := BitInfo "O" "1" "PA" (Some "2") (Some "1")
                               (Some "Z")]}).
Proof.
  apply (proj1 (pin_table_last_record_wins
                  [["bit"; "3"; "O"; "1"; "PA"; "2"; "1"; "Z"]]
                  {[3%Z := BitInfo "O" "1" "PA" (Some "2") (Some "1") (Some "Z")]}
                  ["bit"; "3"; "B"; "0"; "PB"] 3 "B" "PB"
                  eq_refl
                  (conj (ex_intro _ "3" (conj eq_refl eq_refl))
                        (conj eq_refl eq_refl)))).
  left. split; [by right; right | done].
Defined.

(** ** Part-file lookup *)

Lemma search_lines_skip (device_id_part : string) (pre rest : list string) :
  Forall (λ l, ¬ names_id device_id_part l) pre →
  search_lines device_id_part (pre ++ rest) = search_lines device_id_part rest.
Proof.
  induction 1 as [|line pre Hline Hpre IH]; [done|].
  cbn [app search_lines]. by rewrite bool_decide_eq_false_2.
Qed.

Lemma search_lines_hit (device_id_part line : string) (rest : list string) :
  names_id device_id_part line →
  search_lines device_id_part (line :: rest)
  = second_field (split_on "009"%char line).
Proof.
  intros Hin. cbn [search_lines]. rewrite bool_decide_eq_true_2 by done.
  unfold second_field. case_bool_decide as Hlen; [done|].
  symmetry. apply lookup_ge_None_2. lia.
Qed.

(** X9: the lookup in a table file.  A missing file and a file without a
    line that holds the identifier as a tab-separated field both give [None].
    Otherwise the first such line decides alone: the result is its second
    non-empty field, stripped, and it is [None] when that line has no second
    field, whatever the lines after it hold. *)
Theorem search_first_matching_line (fs : string → option string)
    (device_id_part file_path : string) :
  (fs file_path = None →
     search_folders_by_device_id fs device_id_part file_path = None)
  ∧ (∀ content,
       fs file_path = Some content →
       Forall (λ l, ¬ names_id device_id_part l) (split_on "010"%char content) →
       search_folders_by_device_id fs device_id_part file_path = None)
  ∧ (∀ content pre line post,
       fs file_path = Some content →
       split_on "010"%char content = pre ++ line :: post →
       Forall (λ l, ¬ names_id device_id_part l) pre →
       names_id device_id_part line →
       search_folders_by_device_id fs device_id_part file_path
       = second_field (split_on "009"%char line)).
Proof.
  unfold search_folders_by_device_id. split; [by intros ->|]. split.
  - intros content -> Hnone.
    rewrite <- (app_nil_r (split_on _ content)).
    by rewrite search_lines_skip.
  - intros content pre line post -> -> Hpre Hline.
    rewrite search_lines_skip by done. by apply search_lines_hit.
Qed.

Lemma search_first_matching_line_witness :
  search_folders_by_device_id
    (λ _, Some ("0001" +:+ NL
                  +:+ "0001" +:+ TAB +:+ "acme" +:+ TAB +:+ "Acme Corp"))
    "0001" "/MANUFACTURERS"
  = second_field (split_on "009"%char "0001")
  ∧ second_field (split_on "009"%char "0001") = None.
Proof.
  split; [|reflexivity].
  apply (proj2 (proj2 (search_first_matching_line
                         (λ _, Some ("0001" +:+ NL
                                       +:+ "0001" +:+ TAB +:+ "acme" +:+ TAB
                                       +:+ "Acme Corp"))
                         "0001" "/MANUFACTURERS"))
           ("0001" +:+ NL
              +:+ "0001" +:+ TAB +:+ "acme" +:+ TAB +:+ "Acme Corp")
           [] "0001"
           ["0001" +:+ TAB +:+ "acme" +:+ TAB +:+ "Acme Corp"]).
  - reflexivity.
  - reflexivity.
  - constructor.
  - unfold names_id. apply elem_of_cons. by left.
Defined.

(** X10: the outcomes of [fetch_part_file].  It returns [None] exactly when
    the manufacturer is not found.  When the manufacturer is found and the
    part or the stepping is not, the guards test the manufacturer name again,
    the missing name reaches a string concatenation, and the call raises
    [TypeError].  When all three are found it returns the three names and
    the path built from them. *)
Theorem fetch_part_file_outcomes (fs : string → option string)
    (manufacture_id parts_id stepping_id base_folder : string) :
  let fetched :=
    fetch_part_file fs manufacture_id parts_id stepping_id base_folder in
  let manufacturer :=
    search_folders_by_device_id fs manufacture_id
      (base_folder +:+ MANUFACTURERS_FILE) in
  (fetched = Returns None ↔ manufacturer = None)
  ∧ ∀ m, manufacturer = Some m →
      let part :=
        search_folders_by_device_id fs parts_id
          ((base_folder +:+ m) +:+ PARTS_FILE) in
      (part = None → fetched = RaisesTypeError)
      ∧ ∀ p, part = Some p →
          let stepping :=
            search_folders_by_device_id fs stepping_id
              ((((base_folder +:+ m) +:+ "/") +:+ p) +:+ STEPPINGS_FILE) in
          (stepping = None → fetched = RaisesTypeError)
          ∧ ∀ s, stepping = Some s →
              fetched
              = Returns
                  (Some [Some m; Some p; Some s;
                         Some (((((base_folder +:+ m) +:+ "/") +:+ p)
                                 +:+ "/") +:+ s)]).
Proof.
  intros fetched manufacturer. subst fetched. unfold fetch_part_file.
  fold manufacturer. destruct manufacturer as [m|] eqn:Hm.
  - rewrite bool_decide_eq_false_2 by done. split.
    + csimpl.
      destruct (search_folders_by_device_id fs parts_id _) as [p|]; csimpl;
        [|done].
      destruct (search_folders_by_device_id fs stepping_id _) as [s|];
        csimpl; done.
    + intros m' [= <-]. csimpl. split; [by intros ->|].
      intros p ->. csimpl. split; [by intros ->|]. by intros s ->.
  - rewrite bool_decide_eq_true_2 by done. split; [done|]. by intros m.
Qed.

Lemma fetch_part_file_outcomes_witness :
  fetch_part_file
    (λ path, if bool_decide (path = "/b/MANUFACTURERS")
             then Some ("01" +:+ TAB +:+ "acme" +:+ TAB +:+ "Acme")
             else None)
    "01" "02" "03" "/b" = RaisesTypeError.
Proof.
  destruct (fetch_part_file_outcomes
              (λ path, if bool_decide (path = "/b/MANUFACTURERS")
                       then Some ("01" +:+ TAB +:+ "acme" +:+ TAB +:+ "Acme")
                       else None)
              "01" "02" "03" "/b") as [_ Hfound].
  destruct (Hfound "acme") as [Hpart _]; [reflexivity|].
  apply Hpart. reflexivity.
Defined.

(** ** What the generators read and when they raise *)









(** ** The baseline vector *)

Lemma foldl_pin_write_keep (value : Z) (i : nat) (items : list (Z * bit_info)) :
  ∀ s : list ascii,
  (∀ item, item ∈ items →
     Z.to_nat item.1 ≠ i
     ∧ ∀ c e, gating item.2 = Ok (Some (c, e)) → Z.to_nat c ≠ i) →
  foldl (pin_write value) s items !! i = s !! i.
Proof.
  induction items as [|[bit info] items IH]; intros s Hitems; [done|].
  cbn [foldl]. rewrite IH.
  - destruct (Hitems (bit, info)) as [Hb Hc]; [apply elem_of_cons; by left|].
    apply pin_write_other; [done|]. intros c e Hg Heq.
    by apply (Hc c e Hg).
  - intros item Hin. apply Hitems, elem_of_cons. by right.
Qed.

Lemma foldl_pin_write_set (n : nat) (value : Z) (i : nat) (x : ascii)
    (items : list (Z * bit_info)) :
  ∀ s : list ascii,
  length s = n →
  (∀ item, item ∈ items → ∀ s' : list ascii, length s' = n →
     pin_write value s' item !! i = Some x
     ∨ pin_write value s' item !! i = s' !! i) →
  s !! i = Some x
  ∨ (∃ item, item ∈ items
             ∧ ∀ s' : list ascii, length s' = n →
                 pin_write value s' item !! i = Some x) →
  foldl (pin_write value) s items !! i = Some x.
Proof.
  induction items as [|item items IH]; intros s Hlen Hstep Hor.
  - destruct Hor as [? | (item & Hin & _)]; [done|].
    by apply elem_of_nil in Hin.
  - cbn [foldl]. apply IH; [by rewrite length_pin_write | |].
    { intros item' Hin. apply Hstep, elem_of_cons. by right. }
    destruct Hor as [Hs | (item' & Hin & Hset)].
    + left. destruct (Hstep item (list_elem_of_here _ _) s Hlen) as [? | Heq];
        [done | by rewrite Heq].
    + apply elem_of_cons in Hin as [-> | Hin]; [left; by apply Hset|].
      right. eauto.
Qed.

Lemma reverse_lookup_mirror {A} (l : list A) (i : nat) :
  i < length l → reverse l !! (length l - S i) = l !! i.
Proof.
  intros Hi. rewrite reverse_lookup by lia. f_equal. lia.
Qed.

(** X12: on a map without output or bidirectional pins the list of walking
    vectors is empty, and the baseline is the live snapshot reversed: the
    setup function writes nothing, but still reverses the string it read. *)
Theorem no_output_pins (dict : gmap Z bit_info)
    (dr_in_string walkin_string : list ascii) (value : Z) :
  (∀ bit info, dict !! bit = Some info → is_output info = false) →
  get_walkin_zeros_or_once_setup_string dr_in_string dict value
  = Ok (reverse dr_in_string)
  ∧ get_list_of_walkins_output_string dict walkin_string value = Ok [].
Proof.
  intros Hnone.
  assert (Forall (λ item : Z * bit_info, is_output item.2 = false)
            (sorted_items dict)) as Hall.
  { apply Forall_forall. intros [bit info] Hin.
    apply (Hnone bit info). by apply elem_of_sorted_items. }
  unfold get_walkin_zeros_or_once_setup_string,
    get_list_of_walkins_output_string.
  generalize dependent (sorted_items dict). intros items Hall. split.
  - assert (setup_loop items value dr_in_string = Ok dr_in_string) as ->; [|done].
    induction Hall as [|[bit info] items Hout Hall IH]; [done|].
    cbn [setup_loop]. simpl in Hout. by rewrite Hout.
  - generalize (@nil (list ascii)).
    induction Hall as [|[bit info] items Hout Hall IH]; intros acc; [done|].
    cbn [walkins_loop]. simpl in Hout. by rewrite Hout.
Qed.

Lemma no_output_pins_witness :
  get_walkin_zeros_or_once_setup_string ["1"; "0"; "0"]%char
    {[0%Z := BitInfo "I" "1" "SA" None None None]} 0
  = Ok ["0"; "0"; "1"]%char
  ∧ get_list_of_walkins_output_string
      {[0%Z := BitInfo "I" "1" "SA" None None None]} ["1"; "0"; "0"]%char 0
    = Ok [].
Proof.
  apply (no_output_pins {[0%Z := BitInfo "I" "1" "SA" None None None]}
           ["1"; "0"; "0"]%char ["1"; "0"; "0"]%char 0).
  intros bit info Hin. by apply lookup_singleton_Some in Hin as [_ <-].
Defined.

(** X13: the baseline, as it is handed to the driver.  On a Pin Map that
    fits the register it has the length of the snapshot.  A position that is
    neither the data bit of an output or bidirectional pin nor the control
    cell of a gated one comes back mirrored: index [n - 1 - i] of the result
    holds what index [i] of the snapshot held.  The data bit of every output
    or bidirectional pin holds the complement of the walk level, at the
    mirrored index, unless some gated pin uses that index as its control
    cell. *)
Theorem baseline_contents (dict : gmap Z bit_info) (dr_in_string : list ascii)
    (value : Z) :
  valid_pin_map (length dr_in_string) dict → is_bit value →
  ∃ baseline,
    get_walkin_zeros_or_once_setup_string dr_in_string dict value = Ok baseline
    ∧ length baseline = length dr_in_string
    ∧ (∀ i, i < length dr_in_string →
         (∀ bit info, dict !! bit = Some info → is_output info = true →
            Z.to_nat bit ≠ i
            ∧ ∀ c e, gating info = Ok (Some (c, e)) → Z.to_nat c ≠ i) →
         baseline !! (length dr_in_string - S i) = dr_in_string !! i)
    ∧ (∀ bit info, dict !! bit = Some info → is_output info = true →
         (∀ bit' info' c e, dict !! bit' = Some info' →
            is_output info' = true → gating info' = Ok (Some (c, e)) →
            c ≠ bit) →
         baseline !! (length dr_in_string - S (Z.to_nat bit))
         = Some (bit_char (Z.lxor value 1))).
Proof.
  intros Hvalid Hb. set (n := length dr_in_string).
  set (L := foldl (pin_write (Z.lxor value 1)) dr_in_string (output_items dict)).
  assert (length L = n) as HlenL by apply length_foldl_pin_write.
  exists (reverse L). split; [|split; [|split]].
  - unfold get_walkin_zeros_or_once_setup_string.
    rewrite setup_loop_spec; [done | | done].
    intros b i Hin. apply (Hvalid b i). by apply elem_of_sorted_items.
  - by rewrite length_reverse.
  - intros i Hi Hfree. rewrite <- HlenL.
    rewrite reverse_lookup_mirror by lia.
    apply foldl_pin_write_keep. intros [bit info] Hin.
    apply elem_of_output_items in Hin as [Hd Hout]. by apply (Hfree bit info).
  - intros bit info Hd Hout Hfree.
    destruct (Hvalid bit info Hd Hout) as (Hbit & _).
    rewrite <- HlenL. rewrite reverse_lookup_mirror by lia.
    apply (foldl_pin_write_set n); [done | |].
    + intros [bit' info'] Hin s' Hlen'.
      apply elem_of_output_items in Hin as [Hd' Hout'].
      destruct (Hvalid bit' info' Hd' Hout') as (Hbit' & g & Hg & Hgc).
      destruct (decide (bit' = bit)) as [-> | Hne].
      * left. rewrite Hd in Hd'. injection Hd' as <-.
        apply (pin_write_data n); [done | by apply (Hvalid bit info) | done |].
        intros c e Hge. by apply (Hfree bit info c e).
      * right. apply pin_write_other; [lia|].
        intros c e Hge Heq. rewrite Hge in Hg. injection Hg as <-.
        destruct (Hgc c e eq_refl) as [Hc _].
        apply (Hfree bit' info' c e Hd' Hout' Hge). lia.
    + right. exists (bit, info). split; [by apply elem_of_output_items|].
      intros s' Hlen'.
      apply (pin_write_data n); [done | by apply (Hvalid bit info) | done |].
      intros c e Hge. by apply (Hfree bit info c e).
Qed.

Lemma baseline_contents_witness :
  ∃ baseline,
    get_walkin_zeros_or_once_setup_string ["1"; "0"; "1"; "0"]%char
      {[0%Z := BitInfo "O" "1" "PA" (Some "2") (Some "1") (Some "Z")]} 0
    = Ok baseline
    ∧ baseline = ["0"; "0"; "0"; "1"]%char.
Proof.
  destruct (baseline_contents
              {[0%Z := BitInfo "O" "1" "PA" (Some "2") (Some "1") (Some "Z")]}
              ["1"; "0"; "1"; "0"]%char 0) as (baseline & Hrun & _).
  - intros bit info Hin _. apply lookup_singleton_Some in Hin as [<- <-].
    split; [simpl; lia|]. exists (Some (2, 0)%Z). split; [reflexivity|].
    intros c e [= <- <-]. split; [simpl; lia | by left].
  - by left.
  - exists baseline. split; [exact Hrun|]. by injection Hrun as <-.
Defined.

(** ** The differing bits *)

Lemma differing_bits_inv (old new : list ascii) d :
  differing_bits old new = Ok d →
  length old ≤ length new ∧ d = changed_bits old new.
Proof.
  intros Hrun. destruct (decide (length old ≤ length new)) as [Hle | Hgt].
  - rewrite differing_bits_Ok in Hrun by done. by injection Hrun as <-.
  - rewrite differing_bits_short in Hrun by lia. done.
Qed.

Lemma diff_at_Some (old new : list ascii) (i j : nat) (o n : ascii) :
  diff_at old new i = Some (j, o, n) ↔
  j = i ∧ old !! i = Some o ∧ new !! i = Some n ∧ o ≠ n.
Proof.
  unfold diff_at. destruct (old !! i) as [o'|], (new !! i) as [n'|];
    try (split; [done | by intros (_ & ? & ? & _)]).
  case_bool_decide as Hne.
  - split; [by intros [= <- <- <-] | by intros (-> & [= <-] & [= <-] & _)].
  - split; [done|]. intros (_ & [= <-] & [= <-] & ?). done.
Qed.

Lemma omap_seq_sorted {B} (f : nat → option B) (key : B → nat) (a k : nat) :
  (∀ i x, f i = Some x → key x = i) →
  StronglySorted (λ x y, key x < key y) (omap f (seq a k))
  ∧ Forall (λ x, a ≤ key x) (omap f (seq a k)).
Proof.
  intros Hkey. revert a. induction k as [|k IH]; intros a.
  - split; constructor.
  - destruct (IH (S a)) as [Hs Hall]. csimpl.
    assert (Forall (λ x : B, a ≤ key x) (omap f (seq (S a) k))) as Hall'.
    { eapply Forall_impl; [exact Hall|]. intros x. simpl. lia. }
    destruct (f a) as [x|] eqn:Hfa; [|done].
    apply Hkey in Hfa. split.
    + constructor; [done|]. eapply Forall_impl; [exact Hall|].
      intros y. simpl. lia.
    + constructor; [lia | done].
Qed.

(** X14: what the change detector compares.  When the comparison returns,
    its list holds exactly the positions where both snapshots have a
    character and the characters differ, with the old and the new character,
    each position once and in ascending order. *)
Theorem differing_bits_characterised (old new : list ascii)
    (d : list (nat * ascii * ascii)) :
  differing_bits old new = Ok d →
  (∀ i o n, (i, o, n) ∈ d ↔
     old !! i = Some o ∧ new !! i = Some n ∧ o ≠ n)
  ∧ StronglySorted (λ x y, x.1.1 < y.1.1) d.
Proof.
  intros Hrun. apply differing_bits_inv in Hrun as [Hlen ->].
  unfold changed_bits. split.
  - intros i o n. rewrite list_elem_of_omap. split.
    + intros (j & _ & Hj). apply diff_at_Some in Hj as (-> & Hj). done.
    + intros (Ho & Hn & Hne). exists i. split.
      * apply elem_of_seq. apply lookup_lt_Some in Ho. lia.
      * by apply diff_at_Some.
  - apply (omap_seq_sorted (diff_at old new) (λ x, x.1.1)).
    intros i [[j o] n] Hj. apply diff_at_Some in Hj. simpl. tauto.
Qed.

Lemma differing_bits_characterised_witness :
  (∀ i o n, (i, o, n) ∈ [(0, "1", "0"); (2, "0", "1")]%char ↔
     ["1"; "1"; "0"]%char !! i = Some o ∧ ["0"; "1"; "1"]%char !! i = Some n
     ∧ o ≠ n)
  ∧ StronglySorted (λ x y : nat * ascii * ascii, x.1.1 < y.1.1)
      [(0, "1", "0"); (2, "0", "1")]%char.
Proof.
  apply (differing_bits_characterised ["1"; "1"; "0"]%char ["0"; "1"; "1"]%char).
  reflexivity.
Defined.

Lemma omap_cons_eq {A B} (f : A → option B) (x : A) (l : list A) :
  omap f (x :: l)
  = match f x with Some y => y :: omap f l | None => omap f l end.
Proof. done. Qed.

Lemma omap_ext_in {A B} (f g : A → option B) (l : list A) :
  (∀ x, x ∈ l → f x = g x) → omap f l = omap g l.
Proof.
  induction l as [|x l IH]; intros H; [done|]. csimpl.
  rewrite (H x) by (apply elem_of_cons; by left).
  rewrite IH; [done|]. intros y Hy. apply H, elem_of_cons. by right.
Qed.

(** X15: comparing two snapshots of one length in the other direction
    finds the same positions with the old and the new character swapped. *)
Theorem differing_bits_symmetric (old new : list ascii) :
  length old = length new →
  ∃ d, differing_bits old new = Ok d
       ∧ differing_bits new old = Ok ((λ x, (x.1.1, x.2, x.1.2)) <$> d).
Proof.
  intros Hlen. exists (changed_bits old new).
  rewrite !differing_bits_Ok by lia. split; [done|]. f_equal.
  unfold changed_bits. rewrite list_fmap_omap, Hlen.
  apply omap_ext_in. intros i _. unfold diff_at.
  destruct (new !! i) as [n|], (old !! i) as [o|]; try done. simpl.
  repeat case_bool_decide; simpl; congruence.
Qed.

Lemma differing_bits_symmetric_witness :
  ∃ d, differing_bits ["1"; "0"]%char ["0"; "0"]%char = Ok d
       ∧ differing_bits ["0"; "0"]%char ["1"; "0"]%char
         = Ok ((λ x, (x.1.1, x.2, x.1.2)) <$> d).
Proof.
  apply (differing_bits_symmetric ["1"; "0"]%char ["0"; "0"]%char).
  reflexivity.
Defined.

Lemma attributed_outside_passes st dict (l : list (nat * ascii * ascii)) :
  st ≠ 0%Z → st ≠ 1%Z → omap (attributed st dict) l = [].
Proof.
  intros H0 H1. induction l as [|[[i o] n] l IH]; [done|].
  rewrite omap_cons_eq, IH.
  destruct (attributed st dict (i, o, n)) as [[nm io]|] eqn:Hatt; [|done].
  apply attributed_Some in Hatt as (_ & _ & [[? _] | [? _]]); done.
Qed.

(** X16: nothing is attributed outside the two passes.  With the flag at
    any value other than 0 and 1, as at the start of the script, the two
    summary lists are left empty, while every differing bit is still
    printed. *)
Theorem lookup_outside_passes st (old new : list ascii) dict
    (sd : gmap string (list string)) key :
  st ≠ 0%Z → st ≠ 1%Z → length old ≤ length new →
  ∃ sd' out,
    dr_out_changes_lookup st old new dict sd key = Ok (sd', out)
    ∧ sd' !! key = Some []
    ∧ sd' !! (key +:+ "io") = Some []
    ∧ differing_bits old new = Ok (omap reported_bit out).
Proof.
  intros H0 H1 Hlen.
  destruct (dr_out_changes_lookup_Ok st old new dict sd key Hlen)
    as (sd' & out & Hrun & Hk & Hio & _ & Hout).
  exists sd', out. split; [done|].
  pose proof (attributed_outside_passes st dict (changed_bits old new) H0 H1)
    as Hnone.
  rewrite Hk, Hio, Hnone, Hout. split; [done|]. split; [done|].
  by apply differing_bits_Ok.
Qed.

Lemma lookup_outside_passes_witness :
  ∃ sd' out,
    dr_out_changes_lookup (-1) ["1"; "0"]%char ["0"; "0"]%char
      {[0%Z := BitInfo "O" "1" "PA" None None None]} ∅ "extest" = Ok (sd', out)
    ∧ sd' !! "extest" = Some []
    ∧ out = [BitChange 0 "1" "0"; PinName "PA"].
Proof.
  destruct (lookup_outside_passes (-1) ["1"; "0"]%char ["0"; "0"]%char
              {[0%Z := BitInfo "O" "1" "PA" None None None]} ∅ "extest")
    as (sd' & out & Hrun & Hk & _); [done | done | simpl; lia |].
  exists sd', out. split; [exact Hrun|]. split; [exact Hk|].
  by injection Hrun as _ <-.
Defined.

(** X17: a comparison overwrites and never merges.  The lists it leaves
    under the key and under the key followed by [io], and what it prints, do
    not depend on the record it is given; every other key of that record is
    handed back unchanged. *)
Theorem lookup_overwrites_two_keys st (old new : list ascii) dict
    (sd1 sd2 : gmap string (list string)) key :
  length old ≤ length new →
  ∃ r1 r2 out,
    dr_out_changes_lookup st old new dict sd1 key = Ok (r1, out)
    ∧ dr_out_changes_lookup st old new dict sd2 key = Ok (r2, out)
    ∧ r1 !! key = r2 !! key
    ∧ r1 !! (key +:+ "io") = r2 !! (key +:+ "io")
    ∧ ∀ k, k ≠ key → k ≠ key +:+ "io" →
        r1 !! k = sd1 !! k ∧ r2 !! k = sd2 !! k.
Proof.
  intros Hlen. unfold dr_out_changes_lookup.
  rewrite (differing_bits_Ok _ _ Hlen). csimpl.
  match goal with |- context [foldl ?f (?s, ?o) ?l] =>
    destruct (lookup_fold st dict key l s o) as (Hk1 & Hio1 & Hother1 & Hout1);
    destruct (foldl f (s, o) l) as [r1 out1] eqn:Hfold1 end.
  match goal with |- context [foldl ?f (<[_ := _]> (<[_ := _]> sd2), ?o) ?l] =>
    destruct (lookup_fold st dict key l (<[key +:+ "io" := []]> (<[key := []]> sd2)) o)
      as (Hk2 & Hio2 & Hother2 & Hout2);
    destruct (foldl f (<[key +:+ "io" := []]> (<[key := []]> sd2), o) l)
      as [r2 out2] eqn:Hfold2 end.
  simpl in *. exists r1, r2, out1.
  assert (out2 = out1) as -> by congruence.
  split; [done|]. split; [done|].
  rewrite Hk1, Hk2, Hio1, Hio2.
  rewrite !(lookup_insert_ne _ (key +:+ "io") key) by apply io_key_ne.
  rewrite !lookup_insert_eq. split; [done|]. split; [done|].
  intros k Hne1 Hne2. rewrite Hother1, Hother2 by done.
  by rewrite !lookup_insert_ne.
Qed.

Lemma lookup_overwrites_two_keys_witness :
  ∃ r1 r2 out,
    dr_out_changes_lookup 0 ["1"; "0"]%char ["0"; "0"]%char
      {[0%Z := BitInfo "O" "1" "PA" None None None]}
      {["extest" := ["OLD"]; "sample" := ["S"]]} "extest" = Ok (r1, out)
    ∧ dr_out_changes_lookup 0 ["1"; "0"]%char ["0"; "0"]%char
        {[0%Z := BitInfo "O" "1" "PA" None None None]} ∅ "extest" = Ok (r2, out)
    ∧ r1 !! "extest" = r2 !! "extest"
    ∧ r1 !! "sample" = Some ["S"].
Proof.
  destruct (lookup_overwrites_two_keys 0 ["1"; "0"]%char ["0"; "0"]%char
              {[0%Z := BitInfo "O" "1" "PA" None None None]}
              {["extest" := ["OLD"]; "sample" := ["S"]]} ∅ "extest")
    as (r1 & r2 & out & Hrun1 & Hrun2 & Hk & _ & Hother); [simpl; lia|].
  exists r1, r2, out. split; [exact Hrun1|]. split; [exact Hrun2|].
  split; [exact Hk|].
  destruct (Hother "sample") as [-> _]; done.
Defined.

(** ** Verdicts *)

(** X18: the four verdicts exclude one another and each one tells the
    shape of the list: [Connected t] exactly for the list of [t] twice,
    [Interference] exactly for three or more entries, [Partial] exactly for
    one entry, and [NotConnected] exactly for the empty list and for two
    different entries. *)
Theorem classify_inversion (L : list string) (t : string) :
  (classify L = Connected t ↔ L = [t; t])
  ∧ (classify L = Interference ↔ 2 < length L)
  ∧ (classify L = Partial ↔ length L = 1)
  ∧ (classify L = NotConnected ↔ L = [] ∨ ∃ a b, L = [a; b] ∧ a ≠ b).
Proof.
  unfold classify.
  destruct L as [|a [|b [|c L]]]; simpl.
  - repeat split; try done; try lia. by left.
  - repeat split; try done; try lia.
    intros [? | (? & ? & ? & _)]; done.
  - destruct (decide (a = b)) as [-> | Hne].
    + rewrite bool_decide_eq_true_2 by done. simpl. repeat split; try done; try lia.
      * by intros [= ->].
      * by intros [= ->].
      * intros [? | (a' & b' & [= -> ->] & ?)]; done.
    + rewrite bool_decide_eq_false_2 by congruence. simpl.
      repeat split; try done; try lia.
      * intros [= -> ->]. done.
      * intros _. right. by exists a, b.
  - repeat split; try done; try lia.
    intros [? | (? & ? & ? & _)]; done.
Qed.

Lemma classify_shape_connected (L : list string) (t : string) :
  classify L = Connected t → L = [t; t].
Proof.
  unfold classify. destruct L as [|a [|b [|c L]]]; simpl; try done.
  case_bool_decide as Heq; simpl; [|done]. injection Heq as ->.
  by intros [= ->].
Qed.

Lemma match_list_app (sl1 sl2 : list (gmap string (list string)))
    (driver : string) :
  match_list (sl1 ++ sl2) driver
  = match_list sl1 driver ++ match_list sl2 driver.
Proof. unfold match_list. apply bind_app. Qed.

Lemma recorded_app (sl1 sl2 : list (gmap string (list string)))
    (driver : string) :
  recorded (sl1 ++ sl2) driver ↔ recorded sl1 driver ∨ recorded sl2 driver.
Proof.
  unfold recorded. split.
  - intros (sd & Hin & Hd). apply elem_of_app in Hin as [Hin | Hin]; eauto.
  - intros [(sd & Hin & Hd) | (sd & Hin & Hd)]; exists sd;
      (split; [apply elem_of_app; auto | done]).
Qed.

Lemma match_list_unobserved (sl : list (gmap string (list string)))
    (driver : string) :
  (∀ sd, sd ∈ sl → field sd "sampleio" = []) → match_list sl driver = [].
Proof.
  unfold match_list. induction sl as [|sd sl IH]; intros Hnone; [done|].
  rewrite bind_cons.
  rewrite IH by (intros sd' Hin; apply Hnone, elem_of_cons; by right).
  rewrite app_nil_r. unfold contribution.
  assert (∀ io, matched sd io = []) as Hm.
  { intros io. unfold matched.
    rewrite (Hnone sd) by (apply elem_of_cons; by left).
    by destruct (field sd "sample"). }
  induction (zip (field sd "extest") (field sd "extestio")) as [|p l IHl];
    [done|].
  rewrite bind_cons, IHl, Hm. by case_bool_decide.
Qed.

(** X19: a driver pin that toggles while nothing is observed is reported
    as not connected.  When no step of the session has an attributed SAMPLE
    transition, every driver pin with an attributed EXTEST transition gets
    the verdict [NotConnected]. *)
Theorem unobserved_drivers_not_connected
    (sl : list (gmap string (list string))) :
  Forall well_formed_record sl →
  (∀ sd, sd ∈ sl → field sd "sampleio" = []) →
  ∃ verdicts,
    view_summary sl = Ok verdicts
    ∧ ∀ driver, recorded sl driver → verdicts !! driver = Some NotConnected.
Proof.
  intros Hwf Hnone.
  destruct (view_summary_runs sl Hwf) as (verdicts & Hview).
  exists verdicts. split; [done|]. intros driver Hrec.
  destruct (view_summary_lookup sl verdicts driver Hwf Hview) as [Hv _].
  rewrite (Hv Hrec).
  by rewrite match_list_unobserved.
Qed.

Lemma unobserved_drivers_not_connected_witness :
  ∃ verdicts,
    view_summary
      [ {["extest" := ["P1"]; "extestio" := ["1 -> 0"];
          "sample" := []; "sampleio" := []]} ] = Ok verdicts
    ∧ verdicts !! "P1" = Some NotConnected.
Proof.
  destruct (unobserved_drivers_not_connected
              [ {["extest" := ["P1"]; "extestio" := ["1 -> 0"];
                  "sample" := []; "sampleio" := []]} ])
    as (verdicts & Hview & Hall).
  - repeat apply Forall_cons_2; [| apply Forall_nil_2];
      (split; [repeat split; by eexists | split; reflexivity]).
  - intros sd Hin. apply list_elem_of_singleton in Hin as ->. reflexivity.
  - exists verdicts. split; [exact Hview|]. apply Hall.
    eexists. split; [apply list_elem_of_here|].
    apply list_elem_of_here.
Defined.

(** X20: why the accumulator has to be emptied.  If the records of a
    session are classified together with a second copy of themselves, as they
    would be if [summary_list] kept them for the next session, every driver
    pin that was [Connected] becomes [Interference]. *)
Theorem stale_records_turn_connected_into_interference
    (sl : list (gmap string (list string)))
    (verdicts : gmap string verdict) (driver target : string) :
  Forall well_formed_record sl →
  view_summary sl = Ok verdicts →
  verdicts !! driver = Some (Connected target) →
  ∃ verdicts',
    view_summary (sl ++ sl) = Ok verdicts'
    ∧ verdicts' !! driver = Some Interference.
Proof.
  intros Hwf Hview Hconn.
  assert (Forall well_formed_record (sl ++ sl)) as Hwf2 by by apply Forall_app.
  destruct (view_summary_runs (sl ++ sl) Hwf2) as (verdicts' & Hview').
  exists verdicts'. split; [done|].
  destruct (summary_chain_spec sl Hwf) as (chain & Hrun & Hspec).
  assert (recorded sl driver) as Hrec.
  { apply (Hspec driver). unfold view_summary in Hview. rewrite Hrun in Hview.
    injection Hview as <-. rewrite lookup_fmap in Hconn.
    destruct (chain !! driver); [eauto | done]. }
  destruct (view_summary_lookup sl verdicts driver Hwf Hview) as [Hv _].
  rewrite (Hv Hrec) in Hconn. injection Hconn as Hconn.
  apply (classify_shape_connected _ target) in Hconn.
  destruct (view_summary_lookup (sl ++ sl) verdicts' driver Hwf2 Hview')
    as [Hv' _].
  rewrite Hv' by (apply recorded_app; by left).
  by rewrite match_list_app, Hconn.
Qed.

Lemma stale_records_turn_connected_into_interference_witness :
  ∃ verdicts',
    view_summary
      ([ {["extest" := ["P1"]; "extestio" := ["1 -> 0"];
           "sample" := ["S1"]; "sampleio" := ["1 -> 0"]]};
         {["extest" := ["P1"]; "extestio" := ["0 -> 1"];
           "sample" := ["S1"]; "sampleio" := ["0 -> 1"]]} ]
       ++ [ {["extest" := ["P1"]; "extestio" := ["1 -> 0"];
              "sample" := ["S1"]; "sampleio" := ["1 -> 0"]]};
            {["extest" := ["P1"]; "extestio" := ["0 -> 1"];
              "sample" := ["S1"]; "sampleio" := ["0 -> 1"]]} ]) = Ok verdicts'
    ∧ verdicts' !! "P1" = Some Interference.
Proof.
  apply (stale_records_turn_connected_into_interference
           [ {["extest" := ["P1"]; "extestio" := ["1 -> 0"];
               "sample" := ["S1"]; "sampleio" := ["1 -> 0"]]};
             {["extest" := ["P1"]; "extestio" := ["0 -> 1"];
               "sample" := ["S1"]; "sampleio" := ["0 -> 1"]]} ]
           {["P1" := Connected "S1"]} "P1" "S1").
  - repeat apply Forall_cons_2; [| | apply Forall_nil_2];
      (split; [repeat split; by eexists | split; reflexivity]).
  - reflexivity.
  - reflexivity.
Defined.

(** ** The records of a pass *)

Lemma dr_out_changes_lookup_exact st (old new : list ascii) dict
    (sd : gmap string (list string)) key :
  length old ≤ length new →
  ∃ out,
    dr_out_changes_lookup st old new dict sd key
    = Ok (<[key +:+ "io" :=
              (omap (attributed st dict) (changed_bits old new)).*2]>
            (<[key := (omap (attributed st dict) (changed_bits old new)).*1]>
               sd), out).
Proof.
  intros Hlen.
  destruct (dr_out_changes_lookup_Ok st old new dict sd key Hlen)
    as (sd' & out & Hrun & Hk & Hio & Hother & _).
  exists out. rewrite Hrun. do 2 f_equal. apply map_eq. intros k.
  destruct (decide (k = key +:+ "io")) as [-> | Hne1].
  { by rewrite lookup_insert_eq. }
  rewrite lookup_insert_ne by done.
  destruct (decide (k = key)) as [-> | Hne2].
  { by rewrite lookup_insert_eq. }
  rewrite lookup_insert_ne by done. by apply Hother.
Qed.

Lemma set_urc_bits_loop_exact (dr_out : nat → list ascii)
    (dict sdict : gmap Z bit_info) (m k : nat) (vs : list (list ascii)) :
  (∀ t, length (dr_out t) = k) →
  Forall (λ b : list ascii, length b = m) vs →
  ∀ (prev sprev : list ascii) w,
  length prev = m → length sprev = k →
  ∃ w',
    set_urc_bits_loop dr_out vs dict prev sdict sprev w = Ok w'
    ∧ summary_list w'
      = summary_list w
          ++ walk_records dr_out (walkin_state w) dict sdict vs prev sprev
               (shift_count w)
    ∧ shift_count w' = shift_count w + 2 * length vs
    ∧ walkin_state w' = walkin_state w.
Proof.
  intros Hdevice. induction 1 as [|cur rest Hb Hrest IH];
    intros prev sprev w Hprev Hsprev.
  - exists w. simpl. rewrite app_nil_r. repeat split; lia.
  - cbn [set_urc_bits_loop]. unfold dr_shift_comapre, sample_run. simpl.
    destruct (dr_out_changes_lookup_exact (walkin_state w) (reverse prev)
                (reverse cur) dict ∅ "extest") as (out1 & ->).
    { rewrite !length_reverse. lia. }
    csimpl. unfold get_dr_out_string, dr_shift_comapre. simpl.
    match goal with |- context [dr_out_changes_lookup _ _ _ sdict ?sd1 _] =>
      destruct (dr_out_changes_lookup_exact (walkin_state w) (reverse sprev)
                  (reverse (dr_out (S (S (shift_count w))))) sdict sd1 "sample")
        as (out2 & ->) end.
    { rewrite !length_reverse, Hdevice. lia. }
    csimpl.
    match goal with |- context [set_urc_bits_loop _ _ _ ?i _ ?s ?w0] =>
      destruct (IH i s w0) as (w' & -> & Hsum & Hcount & Hstate) end.
    { by rewrite reverse_involutive. }
    { by rewrite reverse_involutive. }
    exists w'. split; [done|]. simpl in Hsum, Hcount, Hstate.
    rewrite Hsum, Hcount, Hstate, !reverse_involutive.
    rewrite <- (assoc_L (++)). split; [done|]. split; [lia | done].
Qed.

(** *** Attribution between two snapshots *)

Lemma walk_levels (value : Z) :
  is_bit value →
  attributable value (bit_char (Z.lxor value 1)) = true
  ∧ attributable value (bit_char value) = false
  ∧ bit_char (Z.lxor value 1) ≠ bit_char value.
Proof. by intros [-> | ->]. Qed.

Lemma omap_omap {A B C} (g : A → option B) (f : B → option C) (l : list A) :
  omap f (omap g l) = omap (λ x, g x ≫= f) l.
Proof.
  induction l as [|x l IH]; [done|].
  rewrite (omap_cons_eq g), (omap_cons_eq (λ x, g x ≫= f)).
  destruct (g x) as [y|]; csimpl; [|done].
  by rewrite IH.
Qed.

Lemma omap_all_None {A B} (f : A → option B) (l : list A) :
  (∀ x, x ∈ l → f x = None) → omap f l = [].
Proof.
  induction l as [|x l IH]; intros H; [done|].
  rewrite omap_cons_eq, (H x) by (apply elem_of_cons; by left).
  apply IH. intros y Hy. apply H, elem_of_cons. by right.
Qed.

Lemma omap_seq_single {B} (h : nat → option B) (n q : nat) (x : B) :
  q < n → h q = Some x → (∀ i, i < n → i ≠ q → h i = None) →
  omap h (seq 0 n) = [x].
Proof.
  intros Hq Hx Hnone.
  assert (seq 0 n = seq 0 q ++ q :: seq (S q) (n - S q)) as ->.
  { replace n with (q + S (n - S q)) at 1 by lia. by rewrite seq_app. }
  rewrite omap_app, omap_cons_eq, Hx.
  rewrite (omap_all_None h (seq 0 q))
    by (intros i Hi; apply elem_of_seq in Hi; apply Hnone; lia).
  rewrite (omap_all_None h (seq (S q) (n - S q)))
    by (intros i Hi; apply elem_of_seq in Hi; apply Hnone; lia).
  done.
Qed.

(** A position that moves away from the walk level is not attributed. *)
Lemma diff_attributed_none (value : Z) dict (old new : list ascii) (i : nat) :
  is_bit value →
  old !! i = new !! i ∨ old !! i = Some (bit_char value) →
  diff_at old new i ≫= attributed value dict = None.
Proof.
  intros Hb Hor. destruct (walk_levels value Hb) as (_ & Hno & _).
  unfold diff_at. destruct (old !! i) as [o|] eqn:Ho; [|done].
  destruct (new !! i) as [n'|] eqn:Hn; [|done].
  case_bool_decide as Hne; [|done]. simpl.
  destruct Hor as [[= ->] | [= ->]]; [done|].
  destruct (dict !! Z.of_nat i); [|done]. by rewrite Hno.
Qed.

Lemma attributed_none (value : Z) dict (old new : list ascii) :
  is_bit value →
  (∀ i, i < length old →
     old !! i = new !! i ∨ old !! i = Some (bit_char value)) →
  omap (attributed value dict) (changed_bits old new) = [].
Proof.
  intros Hb Hall. unfold changed_bits. rewrite omap_omap.
  apply omap_all_None. intros i Hi. apply elem_of_seq in Hi.
  apply diff_attributed_none; [done|]. apply Hall. lia.
Qed.

Lemma attributed_single (value : Z) dict (old new : list ascii) (q : nat)
    (info : bit_info) :
  is_bit value → q < length old →
  dict !! Z.of_nat q = Some info →
  old !! q = Some (bit_char (Z.lxor value 1)) →
  new !! q = Some (bit_char value) →
  (∀ i, i < length old → i ≠ q →
     old !! i = new !! i ∨ old !! i = Some (bit_char value)) →
  omap (attributed value dict) (changed_bits old new)
  = [(pin_name info, walk_label value)].
Proof.
  intros Hb Hq Hd Ho Hn Hall.
  destruct (walk_levels value Hb) as (Hyes & _ & Hne).
  unfold changed_bits. rewrite omap_omap.
  apply (omap_seq_single _ _ q); [done | |].
  - unfold diff_at. rewrite Ho, Hn. rewrite bool_decide_eq_true_2 by done.
    simpl. by rewrite Hd, Hyes.
  - intros i Hi Hiq. apply diff_attributed_none; [done|]. by apply Hall.
Qed.

(** *** Pin Maps with separate control cells *)

Section CleanMap.

Variables (n : nat) (dict : gmap Z bit_info) (value : Z) (L : list ascii).
Hypothesis Hvalid : valid_pin_map n dict.
Hypothesis Hb : is_bit value.
Hypothesis HlenL : length L = n.
Hypothesis Hdata : ∀ bit info, (bit, info) ∈ output_items dict →
  L !! Z.to_nat bit = Some (bit_char (Z.lxor value 1)).
Hypothesis Hctl : ∀ bit info c e, (bit, info) ∈ output_items dict →
  gating info = Ok (Some (c, e)) →
  c ≠ bit ∧ L !! Z.to_nat c = Some (bit_char e).

(** On a baseline that already enables every gated pin, the vector of a pin
    is the baseline with the data bit of the pin at the walk level. *)
Lemma clean_pin_write bit info :
  (bit, info) ∈ output_items dict →
  pin_write value L (bit, info) = <[Z.to_nat bit := bit_char value]> L.
Proof.
  intros Hin. pose proof Hin as Hin'.
  apply elem_of_output_items in Hin' as [Hd Hout].
  destruct (Hvalid bit info Hd Hout) as (Hbit & g & Hg & Hgc).
  unfold pin_write. simpl. rewrite Hg. destruct g as [[c e]|]; [|done].
  destruct (Hgc c e eq_refl) as [Hc _].
  destruct (Hctl bit info c e Hin Hg) as [Hne HLc].
  apply list_insert_id. rewrite list_lookup_insert_ne by lia. done.
Qed.

Lemma walk_records_clean (dr_out : nat → list ascii)
    (sdict : gmap Z bit_info) (pins : list (Z * bit_info)) :
  ∀ (prev sprev : list ascii) (t : nat),
  (∀ p, p ∈ pins → p ∈ output_items dict) →
  NoDup pins.*1 →
  length prev = n →
  (∀ p, p ∈ pins →
     reverse prev !! Z.to_nat p.1 = Some (bit_char (Z.lxor value 1))) →
  (∀ i, i < n →
     reverse prev !! i = L !! i ∨ reverse prev !! i = Some (bit_char value)) →
  walk_records dr_out value dict sdict
    ((λ item, reverse (pin_write value L item)) <$> pins) prev sprev t
  = pin_records dr_out value sdict (walk_label value) pins sprev t.
Proof.
  induction pins as [|[bit info] pins IH];
    intros prev sprev t Hsub Hnd Hlen Hrest Hclose; [done|].
  assert ((bit, info) ∈ output_items dict) as Hin
    by (apply Hsub, elem_of_cons; by left).
  pose proof Hin as Hin'. apply elem_of_output_items in Hin' as [Hd Hout].
  destruct (Hvalid bit info Hd Hout) as (Hbit & _).
  csimpl in Hnd. apply NoDup_cons in Hnd as [Hnotin Hnd].
  cbn [fmap list_fmap walk_records pin_records]. f_equal.
  - unfold step_record. f_equal. unfold attributed_changes.
    rewrite reverse_involutive, clean_pin_write by done.
    apply (attributed_single _ _ _ _ (Z.to_nat bit) info); [done | | | | |].
    + rewrite length_reverse. lia.
    + by rewrite Z2Nat.id by lia.
    + apply (Hrest (bit, info)), elem_of_cons. by left.
    + apply list_lookup_insert_eq. lia.
    + intros i Hi Hne. rewrite length_reverse, Hlen in Hi.
      rewrite list_lookup_insert_ne by done. by apply Hclose.
  - apply IH; [| done | | |].
    + intros p Hp. apply Hsub, elem_of_cons. by right.
    + by rewrite length_reverse, length_pin_write.
    + intros [bit' info'] Hp. simpl.
      assert ((bit', info') ∈ output_items dict) as Hin2
        by (apply Hsub, elem_of_cons; by right).
      pose proof Hin2 as Hin2'.
      apply elem_of_output_items in Hin2' as [Hd' Hout'].
      destruct (Hvalid bit' info' Hd' Hout') as (Hbit' & _).
      rewrite reverse_involutive, clean_pin_write by done.
      rewrite list_lookup_insert_ne; [by apply (Hdata bit' info')|].
      intros Heq. apply Hnotin. apply list_elem_of_fmap.
      exists (bit', info'). split; [simpl; lia | done].
    + intros i Hi. rewrite reverse_involutive, clean_pin_write by done.
      destruct (decide (i = Z.to_nat bit)) as [-> | Hne].
      * right. apply list_lookup_insert_eq. lia.
      * left. by apply list_lookup_insert_ne.
Qed.

End CleanMap.

(** The baseline of a Pin Map with separate control cells: every data bit
    at the complement of the walk level, every control cell at its enable
    value. *)
Lemma baseline_data_bits (dict : gmap Z bit_info) (s : list ascii) (v : Z) :
  valid_pin_map (length s) dict → separate_control_cells dict →
  ∀ bit info, (bit, info) ∈ output_items dict →
    foldl (pin_write v) s (output_items dict) !! Z.to_nat bit
    = Some (bit_char v).
Proof.
  intros Hvalid Hsep bit info Hin. pose proof Hin as Hin'.
  apply elem_of_output_items in Hin' as [Hd Hout].
  destruct (Hvalid bit info Hd Hout) as (Hbit & _).
  assert (∀ c e, gating info = Ok (Some (c, e)) → c ≠ bit) as Hself.
  { intros c e Hg Heq. by destruct (Hsep bit info c e Hd Hout Hg bit info). }
  apply (foldl_pin_write_set (length s)); [done | |].
  - intros [bit' info'] Hin2 s' Hlen'.
    apply elem_of_output_items in Hin2 as [Hd' Hout'].
    destruct (Hvalid bit' info' Hd' Hout') as (Hbit' & g & Hg & Hgc).
    destruct (decide (bit' = bit)) as [-> | Hne].
    + left. rewrite Hd in Hd'. injection Hd' as <-.
      by apply (pin_write_data (length s)); [| apply (Hvalid bit info) | |].
    + right. apply pin_write_other; [lia|].
      intros c e Hge Heq. rewrite Hge in Hg. injection Hg as <-.
      destruct (Hgc c e eq_refl) as [Hc _].
      destruct (Hsep bit' info' c e Hd' Hout' Hge bit info Hd Hout) as [? _].
      lia.
  - right. exists (bit, info). split; [done|]. intros s' Hlen'.
    by apply (pin_write_data (length s)); [| apply (Hvalid bit info) | |].
Qed.

Lemma baseline_control_cells (dict : gmap Z bit_info) (s : list ascii) (v : Z) :
  valid_pin_map (length s) dict → separate_control_cells dict →
  ∀ bit info c e, (bit, info) ∈ output_items dict →
    gating info = Ok (Some (c, e)) →
    c ≠ bit
    ∧ foldl (pin_write v) s (output_items dict) !! Z.to_nat c
      = Some (bit_char e).
Proof.
  intros Hvalid Hsep bit info c e Hin Hgate. pose proof Hin as Hin'.
  apply elem_of_output_items in Hin' as [Hd Hout].
  destruct (Hvalid bit info Hd Hout) as (Hbit & g0 & Hg0 & Hgc0).
  rewrite Hgate in Hg0. injection Hg0 as <-.
  destruct (Hgc0 c e eq_refl) as [Hc _].
  split; [by destruct (Hsep bit info c e Hd Hout Hgate bit info)|].
  apply (foldl_pin_write_set (length s)); [done | |].
  - intros [bit' info'] Hin2 s' Hlen'.
    apply elem_of_output_items in Hin2 as [Hd' Hout'].
    destruct (Hvalid bit' info' Hd' Hout') as (Hbit' & g & Hg & Hgc).
    destruct (Hsep bit info c e Hd Hout Hgate bit' info' Hd' Hout')
      as [Hne Hsame].
    destruct (decide (g = Some (c, e))) as [-> | Hdiff].
    + left. exact (pin_write_control (length s) v s' bit' info' Hlen'
                     (Hvalid bit' info' Hd') Hout' c e Hg).
    + right. apply pin_write_other; [lia|].
      intros c' e' Hg' Heq. rewrite Hg' in Hg. injection Hg as <-.
      destruct (Hgc c' e' eq_refl) as [Hc' _].
      assert (c' = c) as -> by lia.
      apply Hdiff. by rewrite (Hsame e' Hg').
  - right. exists (bit, info). split; [done|]. intros s' Hlen'.
    exact (pin_write_control (length s) v s' bit info Hlen'
             (Hvalid bit info Hd) Hout c e Hgate).
Qed.

Lemma NoDup_output_keys (dict : gmap Z bit_info) :
  NoDup (output_items dict).*1.
Proof.
  induction (output_items_sorted dict) as [|p l Hl IH Hall]; csimpl.
  - constructor.
  - constructor; [|done]. intros Hin.
    apply list_elem_of_fmap in Hin as (q & Hq & Hin).
    rewrite Forall_forall in Hall. specialize (Hall q Hin). lia.
Qed.

(** One pass on a Pin Map with separate control cells: the baseline, the
    vectors and the loop all return, and the record of each step names
    exactly the pin that step walks. *)
Lemma pass_records (dr_out : nat → list ascii) (dict sdict : gmap Z bit_info)
    (k : nat) (value : Z) (dr_in sprev : list ascii) (w : world) :
  valid_pin_map (length dr_in) dict → separate_control_cells dict →
  is_bit value → (∀ t, length (dr_out t) = k) → length sprev = k →
  walkin_state w = value →
  ∃ baseline vs w',
    get_walkin_zeros_or_once_setup_string dr_in dict value = Ok baseline
    ∧ get_list_of_walkins_output_string dict baseline value = Ok vs
    ∧ set_urc_bits dr_out vs dict baseline sdict sprev w = Ok w'
    ∧ summary_list w'
      = summary_list w
          ++ pin_records dr_out value sdict (walk_label value)
               (output_items dict) sprev (shift_count w)
    ∧ shift_count w' = shift_count w + 2 * length (output_items dict)
    ∧ walkin_state w' = value.
Proof.
  intros Hvalid Hsep Hb Hdevice Hsprev Hstate.
  assert (is_bit (Z.lxor value 1)) as Hb'
    by (destruct Hb as [-> | ->]; [by right | by left]).
  assert (Z.lxor (Z.lxor value 1) 1 = value) as Hxx
    by (by destruct Hb as [-> | ->]).
  set (L := foldl (pin_write (Z.lxor value 1)) dr_in (output_items dict)).
  assert (length L = length dr_in) as HlenL
    by apply length_foldl_pin_write.
  assert (∀ b i, (b, i) ∈ sorted_items dict → valid_pin (length dr_in) b i)
    as Hitems.
  { intros b i Hin. apply (Hvalid b i). by apply elem_of_sorted_items. }
  exists (reverse L),
    ((λ item, reverse (pin_write value L item)) <$> output_items dict).
  unfold get_walkin_zeros_or_once_setup_string.
  rewrite setup_loop_spec by done. csimpl.
  unfold get_list_of_walkins_output_string.
  rewrite walkins_loop_spec;
    [| by rewrite length_reverse, HlenL | done].
  fold (output_items dict). fold L. rewrite reverse_involutive. simpl.
  unfold set_urc_bits.
  destruct (set_urc_bits_loop_exact dr_out dict sdict (length dr_in) k
              ((λ item, reverse (pin_write value L item)) <$> output_items dict)
              Hdevice) with (prev := reverse L) (sprev := sprev) (w := w)
    as (w' & Hrun & Hsum & Hcount & Hst).
  { apply Forall_fmap, Forall_forall. intros item _. simpl.
    by rewrite length_reverse, length_pin_write. }
  { by rewrite length_reverse. }
  { done. }
  exists w'. split; [done|]. split; [done|]. split; [done|].
  rewrite Hstate in Hsum. rewrite length_fmap in Hcount.
  split; [|split; [done | congruence]].
  rewrite Hsum. f_equal.
  apply (walk_records_clean (length dr_in) dict value L); try done.
  - intros bit info Hin. unfold L.
    rewrite <- HlenL in Hvalid.
    pose proof (baseline_data_bits dict dr_in (Z.lxor value 1)) as Hd.
    rewrite HlenL in Hvalid. by apply (Hd Hvalid Hsep bit info).
  - intros bit info c e Hin Hg.
    by apply (baseline_control_cells dict dr_in (Z.lxor value 1)
                Hvalid Hsep bit info c e).
  - apply NoDup_output_keys.
  - by rewrite length_reverse.
  - intros [bit info] Hin. rewrite reverse_involutive. simpl.
    by apply (baseline_data_bits dict dr_in (Z.lxor value 1)
                Hvalid Hsep bit info).
  - intros i _. left. by rewrite reverse_involutive.
Qed.

(** Both passes of the loop body of [main] on a Pin Map with separate
    control cells. *)
Lemma walking_passes_records (dr_out : nat → list ascii)
    (dict sdict : gmap Z bit_info) (k : nat) (w : world) :
  valid_pin_map (length (dr_in_reg w)) dict → separate_control_cells dict →
  (∀ t, length (dr_out t) = k) →
  ∃ w',
    walking_passes dr_out dict sdict w = Ok w'
    ∧ summary_list w'
      = summary_list w
          ++ pin_records dr_out 0 sdict "1 -> 0" (output_items dict)
               (dr_out (shift_count w + 2)) (shift_count w + 2)
          ++ pin_records dr_out 1 sdict "0 -> 1" (output_items dict)
               (dr_out (shift_count w + 2 * length (output_items dict) + 4))
               (shift_count w + 2 * length (output_items dict) + 4).
Proof.
  intros Hvalid Hsep Hdevice. unfold walking_passes.
  destruct (setup_string_runs dict (dr_in_reg w) 0 Hvalid) as (b0 & Hb0 & _);
    [by left|].
  destruct (setup_string_runs dict (dr_in_reg w) 1 Hvalid) as (b1 & Hb1 & _);
    [by right|].
  rewrite Hb0, Hb1. csimpl.
  unfold get_sample_shift_init_bits, get_dr_out_string.
  cbn [shift_dr set_dr_in shift_count dr_in_reg walkin_state summary_list].
  set (w0 := set_walkin_state 0 (shift_dr (shift_dr (set_dr_in b0 w)))).
  destruct (pass_records dr_out dict sdict k 0 (dr_in_reg w)
              (dr_out (S (S (shift_count w)))) w0 Hvalid Hsep)
    as (b0' & vs0 & w1 & Hb0' & Hvs0 & Hrun0 & Hsum0 & Hcount0 & Hst0);
    [by left | done | done | done |].
  rewrite Hb0 in Hb0'. injection Hb0' as <-.
  rewrite Hvs0. csimpl. rewrite Hrun0. csimpl.
  set (w2 := set_walkin_state 1 (shift_dr (shift_dr (set_dr_in b1 w1)))).
  destruct (pass_records dr_out dict sdict k 1 (dr_in_reg w)
              (dr_out (S (S (shift_count w1)))) w2 Hvalid Hsep)
    as (b1' & vs1 & w3 & Hb1' & Hvs1 & Hrun1 & Hsum1 & Hcount1 & Hst1);
    [by right | done | done | done |].
  rewrite Hb1 in Hb1'. injection Hb1' as <-.
  rewrite Hvs1. csimpl. exists w3. split; [done|].
  rewrite Hsum1. subst w2. simpl. rewrite Hsum0, Hcount0. subst w0. simpl.
  rewrite <- (assoc_L (++)).
  assert (∀ a b, a = b →
            pin_records dr_out 1 sdict (walk_label 1) (output_items dict)
              (dr_out a) a
            = pin_records dr_out 1 sdict "0 -> 1" (output_items dict)
                (dr_out b) b) as Heq by (by intros a b ->).
  rewrite (Heq _ (shift_count w + 2 * length (output_items dict) + 4))
    by lia.
  by replace (S (S (shift_count w))) with (shift_count w + 2) by lia.
Qed.

(** X21: in the loop body of [main], on a Pin Map that fits the register
    and whose control cells are separate from the driven cells and asked for
    one enable value each, both passes return and append one record per
    output pin and pass; the record of a step names under "extest" exactly
    the pin that step walks, with "1 -> 0" in the walking-zeros pass and
    "0 -> 1" in the walking-ones pass, and under "sample" the attributed
    changes between the readback before the step and the one after it. *)
Theorem walking_steps_name_their_pin (dr_out : nat → list ascii)
    (dict sdict : gmap Z bit_info) (k : nat) (w : world) :
  valid_pin_map (length (dr_in_reg w)) dict → separate_control_cells dict →
  (∀ t, length (dr_out t) = k) →
  ∃ w',
    walking_passes dr_out dict sdict w = Ok w'
    ∧ summary_list w'
      = summary_list w
          ++ pin_records dr_out 0 sdict "1 -> 0" (output_items dict)
               (dr_out (shift_count w + 2)) (shift_count w + 2)
          ++ pin_records dr_out 1 sdict "0 -> 1" (output_items dict)
               (dr_out (shift_count w + 2 * length (output_items dict) + 4))
               (shift_count w + 2 * length (output_items dict) + 4).
Proof. apply walking_passes_records. Qed.

Lemma walking_steps_name_their_pin_witness :
  ∃ w',
    walking_passes (λ _, ["0"; "0"]%char)
      {[0%Z := BitInfo "O" "1" "PA" (Some "2") (Some "1") (Some "Z");
        1%Z := BitInfo "B" "1" "PB" None None None]}
      {[0%Z := BitInfo "I" "1" "SA" None None None]}
      (initial_world ["0"; "0"; "1"]%char) = Ok w'
    ∧ summary_list w'
      = [ record_of [("PA", "1 -> 0")] []; record_of [("PB", "1 -> 0")] [];
          record_of [("PA", "0 -> 1")] []; record_of [("PB", "0 -> 1")] [] ].
Proof.
  destruct (walking_steps_name_their_pin (λ _, ["0"; "0"]%char)
              {[0%Z := BitInfo "O" "1" "PA" (Some "2") (Some "1") (Some "Z");
                1%Z := BitInfo "B" "1" "PB" None None None]}
              {[0%Z := BitInfo "I" "1" "SA" None None None]}
              2 (initial_world ["0"; "0"; "1"]%char))
    as (w' & Hrun & Hsum).
  - intros bit info Hin _.
    apply lookup_insert_Some in Hin as [[<- <-] | [_ Hin]];
      [|apply lookup_singleton_Some in Hin as [<- <-]].
    + split; [simpl; lia|]. exists (Some (2, 0)%Z). split; [reflexivity|].
      intros c e [= <- <-]. split; [simpl; lia | by left].
    + split; [simpl; lia|]. exists None. split; [reflexivity|]. done.
  - intros bit info c e Hin _ Hg bit' info' Hin' _.
    apply lookup_insert_Some in Hin as [[<- <-] | [_ Hin]];
      [|apply lookup_singleton_Some in Hin as [<- <-]; discriminate Hg].
    vm_compute in Hg. injection Hg as <- <-.
    apply lookup_insert_Some in Hin' as [[<- <-] | [_ Hin']];
      [|apply lookup_singleton_Some in Hin' as [<- <-]].
    + split; [lia|]. intros e' Hg'. vm_compute in Hg'. by injection Hg' as <-.
    + split; [lia|]. intros e' Hg'. discriminate Hg'.
  - reflexivity.
  - exists w'. split; [exact Hrun|]. rewrite Hsum. reflexivity.
Defined.

(** *** The records of a wired pin *)

Lemma field_record_of (E S : list (string * string)) :
  field (record_of E S) "extest" = E.*1
  ∧ field (record_of E S) "extestio" = E.*2
  ∧ field (record_of E S) "sample" = S.*1
  ∧ field (record_of E S) "sampleio" = S.*2.
Proof. unfold field, record_of. by simplify_map_eq. Qed.

Lemma well_formed_record_of (E S : list (string * string)) :
  well_formed_record (record_of E S).
Proof.
  destruct (field_record_of E S) as (He & Heio & Hs & Hsio).
  unfold well_formed_record. rewrite He, Heio, Hs, Hsio, !length_fmap.
  split; [|done]. unfold record_of. by simplify_map_eq.
Qed.

Lemma contribution_record_of (driver name label : string)
    (S : list (string * string)) :
  contribution driver (record_of [(name, label)] S)
  = if bool_decide (name = driver)
    then S ≫= λ p, if direction_match label p.2 then [p.1] else []
    else [].
Proof.
  destruct (field_record_of [(name, label)] S) as (He & Heio & Hs & Hsio).
  unfold contribution, matched. rewrite He, Heio, Hs, Hsio, zip_fst_snd.
  csimpl. by rewrite app_nil_r.
Qed.

Lemma match_list_quiet {A} (f : A → string * string) (l : list A)
    (driver : string) :
  match_list ((λ p, record_of [f p] []) <$> l) driver = [].
Proof.
  unfold match_list. induction l as [|p l IH]; [done|].
  csimpl. rewrite IH, app_nil_r. destruct (f p) as [name label].
  rewrite contribution_record_of. by case_bool_decide.
Qed.

Lemma attributed_changes_step (value : Z) (sdict : gmap Z bit_info)
    (R : list ascii) (j : nat) (infoS : bit_info) :
  is_bit value → j < length R → sdict !! Z.of_nat j = Some infoS →
  attributed_changes value sdict
    (observed R j (bit_char (Z.lxor value 1))) (observed R j (bit_char value))
  = [(pin_name infoS, walk_label value)].
Proof.
  intros Hb Hj Hs. unfold attributed_changes, observed.
  rewrite !reverse_involutive.
  apply (attributed_single _ _ _ _ j infoS); [done | | done | | |].
  - by rewrite length_insert.
  - by apply list_lookup_insert_eq.
  - by apply list_lookup_insert_eq.
  - intros i _ Hne. left. by rewrite !list_lookup_insert_ne.
Qed.

Lemma attributed_changes_still (value : Z) (sdict : gmap Z bit_info)
    (R : list ascii) (j : nat) (a : ascii) :
  is_bit value → j < length R →
  a = bit_char value ∨ a = bit_char (Z.lxor value 1) →
  attributed_changes value sdict
    (observed R j a) (observed R j (bit_char (Z.lxor value 1)))
  = [].
Proof.
  intros Hb Hj Ha. unfold attributed_changes, observed.
  rewrite !reverse_involutive. apply attributed_none; [done|].
  intros i _. destruct (decide (i = j)) as [-> | Hne].
  - rewrite !list_lookup_insert_eq by done. destruct Ha as [-> | ->]; eauto.
  - left. by rewrite !list_lookup_insert_ne.
Qed.

(** A pass during which the observer stays at the complement of the walk
    level attributes nothing on the observer side. *)
Lemma pin_records_quiet (dr_out : nat → list ascii) (value : Z)
    (sdict : gmap Z bit_info) (R : list ascii) (j : nat)
    (pins : list (Z * bit_info)) :
  is_bit value → j < length R →
  ∀ (a : ascii) (t : nat),
  a = bit_char value ∨ a = bit_char (Z.lxor value 1) →
  (∀ i, i < length pins →
     dr_out (t + 2 * S i) = observed R j (bit_char (Z.lxor value 1))) →
  pin_records dr_out value sdict (walk_label value) pins (observed R j a) t
  = (λ p : Z * bit_info,
       record_of [(pin_name p.2, walk_label value)] []) <$> pins.
Proof.
  intros Hb Hj. induction pins as [|p pins IH]; intros a t Ha Hread; [done|].
  cbn [pin_records]. csimpl.
  replace (S (S t)) with (t + 2 * 1) by lia.
  rewrite (Hread 0) by (simpl; lia).
  rewrite attributed_changes_still by done. f_equal.
  apply IH; [by right|]. intros i Hi.
  replace (t + 2 * 1 + 2 * S i) with (t + 2 * S (S i)) by lia.
  apply Hread. simpl. lia.
Qed.

(** A pass during which the observer follows one pin: the step of that pin
    attributes the observer, the other steps attribute nothing. *)
Lemma pin_records_wired (dr_out : nat → list ascii) (value : Z)
    (sdict : gmap Z bit_info) (R : list ascii) (j : nat) (infoS : bit_info)
    (pin : Z * bit_info) (after : list (Z * bit_info)) :
  is_bit value → j < length R → sdict !! Z.of_nat j = Some infoS →
  ∀ (before : list (Z * bit_info)) (t : nat),
  (∀ i, i ≤ length (before ++ pin :: after) →
     dr_out (t + 2 * i)
     = observed R j (if decide (i = S (length before))
                     then bit_char value else bit_char (Z.lxor value 1))) →
  pin_records dr_out value sdict (walk_label value)
    (before ++ pin :: after) (dr_out t) t
  = ((λ p : Z * bit_info,
        record_of [(pin_name p.2, walk_label value)] []) <$> before)
    ++ record_of [(pin_name pin.2, walk_label value)]
         [(pin_name infoS, walk_label value)]
    :: ((λ p : Z * bit_info,
           record_of [(pin_name p.2, walk_label value)] []) <$> after).
Proof.
  intros Hb Hj Hs before. induction before as [|p before IH]; intros t Hread.
  - pose proof (Hread 0) as H0. pose proof (Hread 1) as H1.
    rewrite Nat.add_0_r in H0. simpl in H0, H1.
    cbn [app pin_records fmap list_fmap].
    replace (S (S t)) with (t + 2) by lia.
    rewrite H0, H1 by lia.
    rewrite (attributed_changes_step value sdict R j infoS) by done.
    f_equal. apply pin_records_quiet; [done | done | by left |].
    intros i Hi. replace (t + 2 + 2 * S i) with (t + 2 * S (S i)) by lia.
    rewrite (Hread (S (S i))) by (simpl; lia).
    by rewrite decide_False by (simpl; lia).
  - pose proof (Hread 0) as H0. pose proof (Hread 1) as H1.
    rewrite Nat.add_0_r in H0.
    rewrite decide_False in H0 by (simpl; lia).
    rewrite decide_False in H1 by (simpl; lia).
    cbn [app pin_records]. csimpl.
    replace (S (S t)) with (t + 2 * 1) by lia.
    rewrite H0 at 1 by lia. rewrite H1 at 1 by (simpl; lia).
    rewrite attributed_changes_still by (done || by right). f_equal.
    apply IH. intros i Hi.
    replace (t + 2 * 1 + 2 * i) with (t + 2 * S i) by lia.
    rewrite (Hread (S i)) by (simpl in *; lia).
    destruct (decide (i = S (length before))) as [-> | Hne].
    + by rewrite decide_True by done.
    + by rewrite decide_False by (simpl; lia).
Qed.

(** The records of a pass in which only one pin reaches the observer. *)
Lemma wired_pass_shape (label : string) (nameS : string)
    (before after : list (Z * bit_info)) (pin : Z * bit_info) :
  let quiet := λ p : Z * bit_info, record_of [(pin_name p.2, label)] [] in
  let pass := (quiet <$> before)
                ++ record_of [(pin_name pin.2, label)] [(nameS, label)]
                :: (quiet <$> after) in
  Forall well_formed_record pass
  ∧ (∀ p, p ∈ before ++ pin :: after → recorded pass (pin_name p.2))
  ∧ ∀ driver, match_list pass driver
      = if bool_decide (pin_name pin.2 = driver)
        then (if direction_match label label then [nameS] else [])
        else [].
Proof.
  intros quiet pass. split; [|split].
  - apply Forall_app. split; [|constructor].
    + apply Forall_fmap, Forall_forall. intros p _.
      exact (well_formed_record_of [(pin_name p.2, label)] []).
    + apply well_formed_record_of.
    + apply Forall_fmap, Forall_forall. intros p _.
      exact (well_formed_record_of [(pin_name p.2, label)] []).
  - intros p Hp.
    assert (∀ l, p ∈ l → recorded (quiet <$> l) (pin_name p.2)) as Hquiet.
    { intros l Hin. exists (quiet p). split; [by apply list_elem_of_fmap_2|].
      unfold quiet.
      destruct (field_record_of [(pin_name p.2, label)] []) as [-> _].
      by apply list_elem_of_singleton. }
    apply elem_of_app in Hp as [Hp | Hp]; unfold pass.
    + apply recorded_app. left. by apply Hquiet.
    + apply recorded_app. right. apply elem_of_cons in Hp as [-> | Hp].
      * eexists. split; [by apply elem_of_cons; left|].
        destruct (field_record_of [(pin_name pin.2, label)] [(nameS, label)])
          as [-> _].
        by apply list_elem_of_singleton.
      * destruct (Hquiet after Hp) as (sd & Hin & Hd).
        exists sd. split; [apply elem_of_cons; by right | done].
  - intros driver. unfold pass. rewrite match_list_app.
    unfold quiet at 1. rewrite match_list_quiet. simpl.
    change (match_list (?r :: ?B) driver)
      with (contribution driver r ++ match_list B driver).
    unfold quiet. rewrite match_list_quiet, app_nil_r.
    rewrite contribution_record_of. case_bool_decide; [|done].
    csimpl. by rewrite app_nil_r.
Qed.

(** X22: a wire is found.  In a session that starts with an empty summary,
    on a Pin Map with separate control cells, let the observed cell [j] of
    the sample map follow one output pin (it reads the level that pin
    drives, and nothing else in the readbacks changes), and let no other
    output pin carry the name of that pin.  Then the session returns, the
    verdict of that pin is Connected to the pin of the observed cell, and
    the verdict of every other output pin is NotConnected. *)
Theorem wired_pin_reported_connected (dr_out : nat → list ascii)
    (dict sdict : gmap Z bit_info) (w : world) (R : list ascii)
    (j k0 : nat) (bitQ : Z) (infoQ infoS : bit_info) :
  valid_pin_map (length (dr_in_reg w)) dict →
  separate_control_cells dict →
  summary_list w = [] →
  output_items dict !! k0 = Some (bitQ, infoQ) →
  (∀ b i, (b, i) ∈ output_items dict → pin_name i = pin_name infoQ →
     b = bitQ) →
  j < length R → sdict !! Z.of_nat j = Some infoS →
  (∀ t, length (dr_out t) = length R) →
  (∀ i, i ≤ length (output_items dict) →
     dr_out (shift_count w + 2 + 2 * i)
     = observed R j (if decide (i = S k0) then "0" else "1")%char) →
  (∀ i, i ≤ length (output_items dict) →
     dr_out (shift_count w + 2 * length (output_items dict) + 4 + 2 * i)
     = observed R j (if decide (i = S k0) then "1" else "0")%char) →
  ∃ verdicts w',
    session dr_out dict sdict w = Ok (verdicts, w')
    ∧ verdicts !! pin_name infoQ = Some (Connected (pin_name infoS))
    ∧ ∀ b i, (b, i) ∈ output_items dict → b ≠ bitQ →
        verdicts !! pin_name i = Some NotConnected.
Proof.
  intros Hvalid Hsep Hempty Hk0 Huniq Hj Hs Hdevice Hzeros Hones.
  destruct (walking_passes_records dr_out dict sdict (length R) w
              Hvalid Hsep Hdevice) as (w' & Hrun & Hsum).
  rewrite Hempty in Hsum. simpl in Hsum.
  assert (∃ before after,
            output_items dict = before ++ (bitQ, infoQ) :: after
            ∧ length before = k0) as (before & after & Hsplit & Hlenb).
  { exists (take k0 (output_items dict)), (drop (S k0) (output_items dict)).
    split; [by rewrite take_drop_middle|].
    rewrite length_take. apply lookup_lt_Some in Hk0. lia. }
  rewrite Hsplit in Hsum, Hzeros, Hones, Huniq. subst k0.
  change "1 -> 0" with (walk_label 0) in Hsum.
  change "0 -> 1" with (walk_label 1) in Hsum.
  rewrite (pin_records_wired dr_out 0 sdict R j infoS) in Hsum;
    [| by left | done | done | exact Hzeros].
  rewrite (pin_records_wired dr_out 1 sdict R j infoS) in Hsum;
    [| by right | done | done | exact Hones].
  destruct (wired_pass_shape (walk_label 0) (pin_name infoS) before after
              (bitQ, infoQ)) as (Hwf0 & Hrec0 & Hmatch0).
  destruct (wired_pass_shape (walk_label 1) (pin_name infoS) before after
              (bitQ, infoQ)) as (Hwf1 & Hrec1 & Hmatch1).
  assert (Forall well_formed_record (summary_list w')) as Hwf
    by (rewrite Hsum; apply Forall_app; by split).
  destruct (view_summary_runs _ Hwf) as (verdicts & Hview).
  exists verdicts, (set_summary_list [] w').
  unfold session. rewrite Hrun. csimpl.
  unfold session_end, view_summary_call.
  rewrite Hview. csimpl. split; [done|].
  assert (∀ p, p ∈ before ++ (bitQ, infoQ) :: after →
            verdicts !! pin_name p.2
            = Some (classify (match_list (summary_list w') (pin_name p.2))))
    as Hlookup.
  { intros p Hp.
    destruct (view_summary_lookup _ _ (pin_name p.2) Hwf Hview) as [Hv _].
    apply Hv. rewrite Hsum. apply recorded_app. left. by apply Hrec0. }
  split.
  - pose proof (Hlookup (bitQ, infoQ)) as HQ. simpl in HQ.
    rewrite HQ by (apply elem_of_app; right; apply elem_of_cons; by left).
    rewrite Hsum, match_list_app, Hmatch0, Hmatch1. simpl.
    rewrite bool_decide_true by done. simpl. unfold classify. simpl.
    by rewrite !bool_decide_true by done.
  - intros b i Hin Hne. rewrite Hsplit in Hin.
    pose proof (Hlookup (b, i) Hin) as Hbi. simpl in Hbi. rewrite Hbi.
    rewrite Hsum, match_list_app, Hmatch0, Hmatch1. simpl.
    rewrite bool_decide_false; [done|].
    intros Heq. apply Hne. by apply (Huniq b i).
Qed.

Lemma wired_pin_reported_connected_witness :
  ∃ verdicts w',
    session
      (λ t, observed ["0"; "0"]%char 0
              (if (t =? 2) || (t =? 6) || (t =? 10) then "1"%char else "0"%char))
      {[0%Z := BitInfo "O" "1" "PA" (Some "2") (Some "1") (Some "Z");
        1%Z := BitInfo "B" "1" "PB" None None None]}
      {[0%Z := BitInfo "I" "1" "SA" None None None]}
      (initial_world ["0"; "0"; "1"]%char) = Ok (verdicts, w')
    ∧ verdicts !! "PA" = Some (Connected "SA")
    ∧ verdicts !! "PB" = Some NotConnected.
Proof.
  destruct (wired_pin_reported_connected
              (λ t, observed ["0"; "0"]%char 0
                      (if (t =? 2) || (t =? 6) || (t =? 10)
                       then "1"%char else "0"%char))
              {[0%Z := BitInfo "O" "1" "PA" (Some "2") (Some "1") (Some "Z");
                1%Z := BitInfo "B" "1" "PB" None None None]}
              {[0%Z := BitInfo "I" "1" "SA" None None None]}
              (initial_world ["0"; "0"; "1"]%char) ["0"; "0"]%char 0 0 0%Z
              (BitInfo "O" "1" "PA" (Some "2") (Some "1") (Some "Z"))
              (BitInfo "I" "1" "SA" None None None))
    as (verdicts & w' & Hrun & HPA & HPB).
  - intros bit info Hin _.
    apply lookup_insert_Some in Hin as [[<- <-] | [_ Hin]];
      [|apply lookup_singleton_Some in Hin as [<- <-]].
    + split; [simpl; lia|]. exists (Some (2, 0)%Z). split; [reflexivity|].
      intros c e [= <- <-]. split; [simpl; lia | by left].
    + split; [simpl; lia|]. exists None. split; [reflexivity|]. done.
  - intros bit info c e Hin _ Hg bit' info' Hin' _.
    apply lookup_insert_Some in Hin as [[<- <-] | [_ Hin]];
      [|apply lookup_singleton_Some in Hin as [<- <-]; discriminate Hg].
    vm_compute in Hg. injection Hg as <- <-.
    apply lookup_insert_Some in Hin' as [[<- <-] | [_ Hin']];
      [|apply lookup_singleton_Some in Hin' as [<- <-]].
    + split; [lia|]. intros e' Hg'. vm_compute in Hg'. by injection Hg' as <-.
    + split; [lia|]. intros e' Hg'. discriminate Hg'.
  - reflexivity.
  - vm_compute. reflexivity.
  - intros b i Hin Hname. apply elem_of_output_items in Hin as [Hin _].
    apply lookup_insert_Some in Hin as [[<- <-] | [_ Hin]]; [done|].
    apply lookup_singleton_Some in Hin as [<- <-]. discriminate Hname.
  - simpl. lia.
  - reflexivity.
  - intros t. unfold observed. by rewrite length_reverse, length_insert.
  - intros i Hi.
    assert (length (output_items
              {[0%Z := BitInfo "O" "1" "PA" (Some "2") (Some "1") (Some "Z");
                1%Z := BitInfo "B" "1" "PB" None None None]}) = 2) as Hlen
      by (vm_compute; reflexivity).
    rewrite Hlen in Hi.
    destruct i as [|[|[|i]]]; [reflexivity | reflexivity | reflexivity | lia].
  - intros i Hi.
    assert (length (output_items
              {[0%Z := BitInfo "O" "1" "PA" (Some "2") (Some "1") (Some "Z");
                1%Z := BitInfo "B" "1" "PB" None None None]}) = 2) as Hlen
      by (vm_compute; reflexivity).
    rewrite Hlen in Hi |- *.
    destruct i as [|[|[|i]]]; [reflexivity | reflexivity | reflexivity | lia].
  - exists verdicts, w'. split; [exact Hrun|]. split; [exact HPA|].
    apply (HPB 1%Z (BitInfo "B" "1" "PB" None None None)); [|done].
    apply elem_of_output_items. split; reflexivity.
Defined.
